(** * warphybrid: blocked LZ4 framing (src/warp_compress.c)

    A shallow embedding of [compress_hybrid] and [decompress_hybrid].

    Modelling conventions.
    - C integers are [Z]; every conversion and every operation that the C
      code performs in a fixed width is written with its wrap-around
      ([size_t], [uint32_t], [int] below; [size_t] is 64 bits wide, as the
      ["L"] argument format stored into it requires).
    - Buffers are [list byte]; [memcpy] into a buffer is stdpp's
      [list_inserts], which leaves the length unchanged.
    - The LZ4 library (lz4.h) is not part of the repository: it is the
      interface [LZ4] below, and its round-trip contract is a hypothesis of
      the theorems that need it.
    - Allocation ([calloc], [malloc], [realloc], [PyBytes_FromStringAndSize])
      is assumed to succeed; the [MemoryError] paths are not modelled.
    - An OpenMP [parallel for] is a loop over the block numbers in an
      arbitrary order, the schedule. *)

From Stdlib Require Import ZArith Lia List Bool Permutation.
From coqutil Require Import Byte Word.LittleEndianList.
From stdpp Require Import base list.

Local Open Scope Z_scope.

(** ** C integer types and constants *)

Definition size_t (x : Z) : Z := x mod 2 ^ 64.
Definition uint32_t (x : Z) : Z := x mod 2 ^ 32.
Definition int (x : Z) : Z := (x + 2 ^ 31) mod 2 ^ 32 - 2 ^ 31.

Definition MAX_BLOCK_SIZE : Z := 512 * 1024 * 1024.
Definition HEADER_SIZE : Z := 8.

(** [Py_buffer.len] is a [Py_ssize_t]. *)
Definition PY_SSIZE_T_MAX : Z := 2 ^ 63 - 1.

(** ** Python results *)

Inductive PyExc : Set :=
| PyExc_TypeError
| PyExc_ValueError
| PyExc_MemoryError
| PyExc_RuntimeError.

Inductive PyResult (A : Type) : Type :=
| PyOk (a : A)
| PyRaise (e : PyExc).
Arguments PyOk {A} a.
Arguments PyRaise {A} e.

(** ** Buffers *)

(** The [len] bytes at [data + off]. *)
Definition slice (data : list byte) (off len : Z) : list byte :=
  take (Z.to_nat len) (drop (Z.to_nat off) data).

(** [memcpy(dst + off, src, length src)]. *)
Definition memcpy (dst : list byte) (off : Z) (src : list byte) : list byte :=
  list_inserts (Z.to_nat off) src dst.

(** A [uint32_t] copied to and from memory in the byte order of the host. *)
Inductive byte_order : Set := little_endian | big_endian.

Definition store32 (bo : byte_order) (x : Z) : list byte :=
  match bo with
  | little_endian => le_split 4 x
  | big_endian => rev (le_split 4 x)
  end.

Definition load32 (bo : byte_order) (bs : list byte) : Z :=
  match bo with
  | little_endian => le_combine bs
  | big_endian => le_combine (rev bs)
  end.

(** ** The LZ4 interface (lz4.h)

    - [LZ4_compressBound isize] is the worst-case compressed size.
    - [LZ4_compress_default src dstCapacity] is the bytes written into [dst];
      the C return value is their number, [0] when compression fails.
    - [LZ4_decompress_safe src compressedSize dstCapacity] is the C return
      value (negative on malformed input) and the bytes written into [dst];
      [src] is the [compressedSize] bytes at the source pointer. *)
Class LZ4 : Type := {
  LZ4_compressBound : Z -> Z;
  LZ4_compress_default : list byte -> Z -> list byte;
  LZ4_decompress_safe : list byte -> Z -> Z -> Z * list byte
}.

(** The largest input of the compressor (lz4.h). *)
Definition LZ4_MAX_INPUT_SIZE : Z := 2113929216. (* 0x7E000000 *)

(** What the spec asks of the single-block codec: the compressor stays
    within the capacity it is given, and whatever a successful compression
    wrote decompresses, with the original length as capacity, to the original
    bytes. *)
Class LZ4_contract (lz4 : LZ4) : Prop := {
  LZ4_compress_fits :
    forall (src : list byte) (dstCapacity : Z),
      Z.of_nat (length (LZ4_compress_default src dstCapacity))
      <= Z.max 0 dstCapacity;
  LZ4_round_trip :
    forall (src : list byte) (dstCapacity : Z),
      Z.of_nat (length src) <= LZ4_MAX_INPUT_SIZE ->
      let c := LZ4_compress_default src dstCapacity in
      0 < Z.of_nat (length c) ->
      LZ4_decompress_safe c (Z.of_nat (length c)) (Z.of_nat (length src))
      = (Z.of_nat (length src), src)
}.

(** What the decoder relies on: a decompression that succeeds wrote as many
    bytes as it returns (lz4.h: the return value is the number of bytes
    decompressed into the destination buffer). *)
Class LZ4_decompress_contract (lz4 : LZ4) : Prop := {
  LZ4_decompress_written :
    forall (src : list byte) (compressedSize dstCapacity : Z),
      0 <= fst (LZ4_decompress_safe src compressedSize dstCapacity) ->
      Z.of_nat (length (snd (LZ4_decompress_safe src compressedSize
                                                 dstCapacity)))
      = fst (LZ4_decompress_safe src compressedSize dstCapacity)
}.

(** ** Block descriptors *)

Module BlockResult.

Record t : Type := mk {
  offset_in : Z;
  orig_size : Z;
  comp_size : Z;
  (* the first [comp_size] bytes of the buffer, all that the writer reads *)
  comp_buf : list byte
}.

End BlockResult.

Module BlockIndex.

Record t : Type := mk {
  in_offset : Z;   (* start of compressed data *)
  out_offset : Z;  (* start of decompressed data *)
  comp_size : Z;
  orig_size : Z
}.

End BlockIndex.

Section Codec.

Context {lz4 : LZ4}.
Variable native : byte_order.

(** ** compress_hybrid *)

(** Line 43. *)
Definition num_blocks_of (in_size block_size : Z) : Z :=
  size_t (in_size + block_size - 1) / block_size.

(** Lines 53-54: the range of block [i]. *)
Definition block_offset (block_size i : Z) : Z := size_t (i * block_size).

Definition block_length (in_size block_size i : Z) : Z :=
  let offset_in := block_offset block_size i in
  if size_t (offset_in + block_size) <=? in_size
  then block_size
  else size_t (in_size - offset_in).

(** Lines 53-89: one iteration of the parallel loop. *)
Definition compress_block (in_data : list byte) (block_size i : Z)
  : BlockResult.t :=
  let in_size := Z.of_nat (length in_data) in
  let offset_in := block_offset block_size i in
  let orig_size := block_length in_size block_size i in
  let max_comp := size_t (LZ4_compressBound (int orig_size)) in
  let written :=
    LZ4_compress_default (slice in_data offset_in (int orig_size))
                         (int max_comp) in
  let comp_size := int (Z.of_nat (length written)) in
  if (0 <? comp_size) && (size_t comp_size <? orig_size)
  then BlockResult.mk offset_in orig_size comp_size
                      (take (Z.to_nat comp_size) written)
  else BlockResult.mk offset_in orig_size (int orig_size)
                      (slice in_data offset_in orig_size).

(** The array [results] after the parallel loop: iteration [i] writes
    [results[i]] only, so the order of the iterations does not matter. *)
Definition block_results (in_data : list byte) (block_size : Z)
  : list BlockResult.t :=
  let in_size := Z.of_nat (length in_data) in
  (fun i => compress_block in_data block_size (Z.of_nat i))
    <$> seq 0 (Z.to_nat (num_blocks_of in_size block_size)).

(** Line 89, the [reduction(+:total_comp_size)]. *)
Definition total_comp_size_of (results : list BlockResult.t) : Z :=
  fold_left
    (fun acc r => size_t (acc + int (BlockResult.comp_size r + HEADER_SIZE)))
    results 0.

(** Lines 108-118. *)
Fixpoint write_frames (results : list BlockResult.t) (out_data : list byte)
  (out_offset : Z) : list byte :=
  match results with
  | [] => out_data
  | r :: rest =>
      let orig_size_32 := uint32_t (BlockResult.orig_size r) in
      let comp_size_32 := uint32_t (BlockResult.comp_size r) in
      let out1 := memcpy out_data out_offset (store32 native orig_size_32) in
      let out2 := memcpy out1 (out_offset + 4) (store32 native comp_size_32) in
      let out3 := memcpy out2 (out_offset + HEADER_SIZE)
                    (take (Z.to_nat comp_size_32) (BlockResult.comp_buf r)) in
      write_frames rest out3
        (size_t (out_offset + uint32_t (HEADER_SIZE + comp_size_32)))
  end.

(** [block_size] is the value of the C variable, a [size_t]. *)
Definition compress_hybrid (in_data : list byte) (block_size : Z)
  : PyResult (list byte) :=
  if MAX_BLOCK_SIZE <? block_size then PyRaise PyExc_ValueError
  else if block_size =? 0 then PyRaise PyExc_ValueError
  else
    let results := block_results in_data block_size in
    let total_comp_size := total_comp_size_of results in
    (* PyBytes_FromStringAndSize(NULL, n): content unspecified until written *)
    let output := replicate (Z.to_nat total_comp_size) Byte.x00 in
    PyOk (write_frames results output 0).

(** ** decompress_hybrid *)

(** Lines 154-186: the body of the [while] loop of pass 1, on the cursor,
    the output-size accumulator and the index built so far. *)
Definition index_step (in_data : list byte)
  (st : Z * Z * list BlockIndex.t) : PyResult (Z * Z * list BlockIndex.t) :=
  let '(in_offset, total_uncompressed_size, index) := st in
  let in_size := Z.of_nat (length in_data) in
  let block_size := load32 native (slice in_data in_offset 4) in
  let comp_size := load32 native (slice in_data (in_offset + 4) 4) in
  if (MAX_BLOCK_SIZE <? block_size)
     || (size_t (in_size - size_t (in_offset + HEADER_SIZE)) <? comp_size)
  then PyRaise PyExc_RuntimeError
  else
    PyOk (size_t (in_offset + uint32_t (HEADER_SIZE + comp_size)),
          size_t (total_uncompressed_size + block_size),
          index ++ [BlockIndex.mk (size_t (in_offset + HEADER_SIZE))
                                  total_uncompressed_size
                                  comp_size block_size]).

(** Lines 153-186: the [while] loop; [None] when [fuel] iterations were not
    enough. *)
Fixpoint index_loop (fuel : nat) (in_data : list byte)
  (st : Z * Z * list BlockIndex.t)
  : option (PyResult (Z * Z * list BlockIndex.t)) :=
  match fuel with
  | O => None
  | S fuel' =>
      let in_size := Z.of_nat (length in_data) in
      if size_t (fst (fst st) + HEADER_SIZE) <=? in_size
      then match index_step in_data st with
           | PyRaise e => Some (PyRaise e)
           | PyOk st' => index_loop fuel' in_data st'
           end
      else Some (PyOk st)
  end.

(** Lines 153-192: pass 1 with the trailing-data check. *)
Definition build_index (fuel : nat) (in_data : list byte)
  : option (PyResult (Z * list BlockIndex.t)) :=
  match index_loop fuel in_data (0, 0, []) with
  | None => None
  | Some (PyRaise e) => Some (PyRaise e)
  | Some (PyOk (in_offset, total_uncompressed_size, index)) =>
      if negb (in_offset =? Z.of_nat (length in_data))
      then Some (PyRaise PyExc_RuntimeError)
      else Some (PyOk (total_uncompressed_size, index))
  end.

(** Lines 207-233: one iteration of the parallel loop of pass 2, on the
    output buffer and [error_flag]. *)
Definition decode_block (in_data : list byte) (block : BlockIndex.t)
  (st : list byte * bool) : list byte * bool :=
  let '(out_data, error_flag) := st in
  if error_flag then st
  else
    let in_offset := BlockIndex.in_offset block in
    let out_offset := BlockIndex.out_offset block in
    let comp_size := BlockIndex.comp_size block in
    let orig_size := BlockIndex.orig_size block in
    if comp_size =? orig_size
    then (memcpy out_data out_offset (slice in_data in_offset orig_size), false)
    else
      let '(decomp_size, written) :=
        LZ4_decompress_safe (slice in_data in_offset (int comp_size))
                            (int comp_size) (int orig_size) in
      (memcpy out_data out_offset written,
       negb (decomp_size =? int orig_size)).

(** Lines 205-234: the parallel loop, its iterations taken in the order
    [order]. *)
Definition decode_blocks (in_data : list byte) (index : list BlockIndex.t)
  (order : list nat) (st : list byte * bool) : list byte * bool :=
  fold_left
    (fun st i =>
       match index !! i with
       | Some block => decode_block in_data block st
       | None => st
       end)
    order st.

(** The schedule: the order in which the [n] iterations are taken. *)
Variable schedule : nat -> list nat.

(** The iterations needed by pass 1 never exceed the input length (the
    cursor moves forward or stays for ever), so [None] is a pass that does
    not end before the index exhausts the memory. *)
Definition decompress_hybrid (in_data : list byte)
  : option (PyResult (list byte)) :=
  match build_index (S (length in_data)) in_data with
  | None => None
  | Some (PyRaise e) => Some (PyRaise e)
  | Some (PyOk (total_uncompressed_size, index)) =>
      let out := replicate (Z.to_nat total_uncompressed_size) Byte.x00 in
      let '(out_data, error_flag) :=
        decode_blocks in_data index (schedule (length index)) (out, false) in
      if error_flag then Some (PyRaise PyExc_RuntimeError)
      else Some (PyOk out_data)
  end.

End Codec.

(** ** The arguments of compress_hybrid (lines 27-30)

    [block_size] is given as a Python integer. The unit ["L"] of
    [PyArg_ParseTuple] converts it to a [long long], and fails when it does
    not fit; whatever the failure of the parser, line 28 sets [TypeError].
    The [long long] is stored into the [size_t] variable. *)

Definition LLONG_MIN : Z := - 2 ^ 63.
Definition LLONG_MAX : Z := 2 ^ 63 - 1.

Definition PyArg_Parse_L (arg : Z) : option Z :=
  if (LLONG_MIN <=? arg) && (arg <=? LLONG_MAX) then Some arg else None.

Definition compress_hybrid_args {lz4 : LZ4} (native : byte_order)
  (in_data : list byte) (block_size : Z) : PyResult (list byte) :=
  match PyArg_Parse_L block_size with
  | None => PyRaise PyExc_TypeError
  | Some value => compress_hybrid native in_data (size_t value)
  end.

(** ** The parallel loops, iteration by iteration

    [compress_hybrid]: [calloc] gives zeroed descriptors; iteration [i] of the
    loop of lines 51-90 writes [results[i]] and adds its term to
    [total_comp_size] (the partial sums of the [reduction] are added modulo
    [2 ^ 64], whatever their grouping). *)

Definition BlockResult_zero : BlockResult.t := BlockResult.mk 0 0 0 [].

Definition compress_step {lz4 : LZ4} (in_data : list byte) (block_size : Z)
  (st : list BlockResult.t * Z) (i : nat) : list BlockResult.t * Z :=
  let '(results, total_comp_size) := st in
  let r := compress_block in_data block_size (Z.of_nat i) in
  (<[i := r]> results,
   size_t (total_comp_size + int (BlockResult.comp_size r + HEADER_SIZE))).

Definition compress_loop {lz4 : LZ4} (in_data : list byte) (block_size : Z)
  (order : list nat) (st : list BlockResult.t * Z)
  : list BlockResult.t * Z :=
  fold_left (compress_step in_data block_size) order st.

Definition compress_hybrid_scheduled {lz4 : LZ4} (native : byte_order)
  (schedule : nat -> list nat) (in_data : list byte) (block_size : Z)
  : PyResult (list byte) :=
  if MAX_BLOCK_SIZE <? block_size then PyRaise PyExc_ValueError
  else if block_size =? 0 then PyRaise PyExc_ValueError
  else
    let num_blocks :=
      Z.to_nat (num_blocks_of (Z.of_nat (length in_data)) block_size) in
    let '(results, total_comp_size) :=
      compress_loop in_data block_size (schedule num_blocks)
                    (replicate num_blocks BlockResult_zero, 0) in
    let output := replicate (Z.to_nat total_comp_size) Byte.x00 in
    PyOk (write_frames native results output 0).

(** [decompress_hybrid]: line 207 reads [error_flag] outside the critical
    section that sets it, so an iteration that starts after a failure may or
    may not see the flag; [sees] says whether it does. An iteration that does
    not see it does its work. *)

Definition decode_block_unsync {lz4 : LZ4} (in_data : list byte)
  (block : BlockIndex.t) (sees : bool) (st : list byte * bool)
  : list byte * bool :=
  let '(out_data, error_flag) := st in
  if error_flag && sees then st
  else
    let '(out_data', failed) :=
      decode_block in_data block (out_data, false) in
    (out_data', error_flag || failed).

Definition decode_blocks_unsync {lz4 : LZ4} (in_data : list byte)
  (index : list BlockIndex.t) (order : list (nat * bool))
  (st : list byte * bool) : list byte * bool :=
  fold_left
    (fun st step =>
       match index !! fst step with
       | Some block => decode_block_unsync in_data block (snd step) st
       | None => st
       end)
    order st.

Definition decompress_hybrid_unsync {lz4 : LZ4} (native : byte_order)
  (schedule : nat -> list (nat * bool)) (in_data : list byte)
  : option (PyResult (list byte)) :=
  match build_index native (S (length in_data)) in_data with
  | None => None
  | Some (PyRaise e) => Some (PyRaise e)
  | Some (PyOk (total_uncompressed_size, index)) =>
      let out := replicate (Z.to_nat total_uncompressed_size) Byte.x00 in
      let '(out_data, error_flag) :=
        decode_blocks_unsync in_data index (schedule (length index))
                             (out, false) in
      if error_flag then Some (PyRaise PyExc_RuntimeError)
      else Some (PyOk out_data)
  end.

(** * Vocabulary of the specification *)

(** ** Sums and frames *)

Definition sumZ {A : Type} (f : A -> Z) (l : list A) : Z :=
  foldr (fun a acc => f a + acc) 0 l.

(** The wire format of one frame (spec, section 6). *)
Definition frame_bytes (bo : byte_order) (original_size : Z)
  (payload : list byte) : list byte :=
  store32 bo original_size
  ++ store32 bo (Z.of_nat (length payload))
  ++ payload.

Section Vocabulary.

Context {lz4 : LZ4}.
Variable native : byte_order.

Local Abbreviation state := (Z * Z * list BlockIndex.t)%type.
Local Abbreviation frame := (Z * list byte)%type.

(** ** The encoder *)

(** A descriptor the writer can serialise without truncation. *)
Definition result_ok (r : BlockResult.t) : Prop :=
  0 <= BlockResult.orig_size r <= MAX_BLOCK_SIZE
  /\ 0 <= BlockResult.comp_size r <= MAX_BLOCK_SIZE
  /\ Z.of_nat (length (BlockResult.comp_buf r)) = BlockResult.comp_size r.

Definition frame_of (r : BlockResult.t) : list byte :=
  frame_bytes native (BlockResult.orig_size r) (BlockResult.comp_buf r).

Definition stored_plus_header (r : BlockResult.t) : Z :=
  BlockResult.comp_size r + HEADER_SIZE.

(** The frame the writer emits for a descriptor. *)
Definition frame_of_result (r : BlockResult.t) : Z * list byte :=
  (BlockResult.orig_size r, BlockResult.comp_buf r).

(** ** Pass 1 *)

Definition cursor (st : state) : Z := fst (fst st).

(** The header fields the loop reads at a cursor. *)
Definition header_at (data : list byte) (in_offset : Z) : Z * Z :=
  (load32 native (slice data in_offset 4),
   load32 native (slice data (in_offset + 4) 4)).

(** The loop condition and the check of lines 158-162. *)
Definition in_loop (data : list byte) (in_offset : Z) : Prop :=
  in_offset + HEADER_SIZE <= Z.of_nat (length data).

Definition header_accepted (data : list byte) (in_offset : Z) : Prop :=
  let '(original_size, stored_size) := header_at data in_offset in
  original_size <= MAX_BLOCK_SIZE
  /\ stored_size <= Z.of_nat (length data) - (in_offset + HEADER_SIZE).

(** A frame is its original size and its payload; a stream is the
    concatenation of its frames (spec, section 6). *)
Definition stream_of (fs : list frame) : list byte :=
  concat ((fun f => frame_bytes native (fst f) (snd f)) <$> fs).

(** Both sizes fit their header fields, and the frame is shorter than 4 GiB. *)
Definition frame_valid (f : frame) : Prop :=
  0 <= fst f <= MAX_BLOCK_SIZE
  /\ HEADER_SIZE + Z.of_nat (length (snd f)) < 2 ^ 32.

(** The index entries of a stream whose first frame starts at [in_off] and
    decodes to [out_off]. *)
Fixpoint index_of_frames (in_off out_off : Z) (fs : list frame)
  : list BlockIndex.t :=
  match fs with
  | [] => []
  | f :: fs' =>
      BlockIndex.mk (in_off + HEADER_SIZE) out_off
                    (Z.of_nat (length (snd f))) (fst f)
      :: index_of_frames (in_off + HEADER_SIZE + Z.of_nat (length (snd f)))
                         (out_off + fst f) fs'
  end.

(** Where the frames of an index end, in the input and in the output. *)
Fixpoint index_end (in_off out_off : Z) (index : list BlockIndex.t) : Z * Z :=
  match index with
  | [] => (in_off, out_off)
  | e :: rest =>
      index_end (BlockIndex.in_offset e + BlockIndex.comp_size e)
                (BlockIndex.out_offset e + BlockIndex.orig_size e) rest
  end.

(** Each header starts where the payload before it ends, and each output
    region where the one before it ends. *)
Fixpoint index_tiled (in_off out_off : Z) (index : list BlockIndex.t) : Prop :=
  match index with
  | [] => True
  | e :: rest =>
      BlockIndex.in_offset e = in_off + HEADER_SIZE
      /\ BlockIndex.out_offset e = out_off
      /\ index_tiled (BlockIndex.in_offset e + BlockIndex.comp_size e)
                     (BlockIndex.out_offset e + BlockIndex.orig_size e) rest
  end.

(** ** Pass 2 on a frame *)

Local Abbreviation frame_lz4_call f :=
  (let stored_size := Z.of_nat (length (snd f)) in
   LZ4_decompress_safe (take (Z.to_nat (int stored_size)) (snd f))
                       (int stored_size) (int (fst f))).

(** What pass 2 does with a frame: whether it fails, and what it writes. *)
Definition frame_fails (f : frame) : bool :=
  negb (Z.of_nat (length (snd f)) =? fst f)
  && negb (fst (frame_lz4_call f) =? int (fst f)).

Definition frame_output (f : frame) : list byte :=
  if Z.of_nat (length (snd f)) =? fst f then snd f
  else snd (frame_lz4_call f).

Section OnInput.

Variable in_data : list byte.
Variable block_size : Z.

Local Abbreviation in_size := (Z.of_nat (length in_data)).

(** What LZ4 wrote for a block, and the value it returned. *)
Definition lz4_written (r : BlockResult.t) : list byte :=
  LZ4_compress_default
    (slice in_data (BlockResult.offset_in r) (int (BlockResult.orig_size r)))
    (int (size_t (LZ4_compressBound (int (BlockResult.orig_size r))))).

Definition lz4_returned (r : BlockResult.t) : Z :=
  int (Z.of_nat (length (lz4_written r))).

(** The descriptors of the first [k] blocks. *)
Definition blocks_upto (k : nat) : list BlockResult.t :=
  (fun i => compress_block in_data block_size (Z.of_nat i)) <$> seq 0 k.

Definition block_data (r : BlockResult.t) : list byte :=
  slice in_data (BlockResult.offset_in r) (BlockResult.orig_size r).

(** The states the loop goes through. *)
Inductive index_reach : state -> Prop :=
| reach_start : index_reach (0, 0, [])
| reach_next (st st' : state) :
    index_reach st -> in_loop in_data (cursor st) ->
    index_step native in_data st = PyOk st' ->
    index_reach st'.

(** What the check of lines 158-162 establishes for an entry. *)
Definition entry_checked (e : BlockIndex.t) : Prop :=
  0 <= BlockIndex.orig_size e <= MAX_BLOCK_SIZE
  /\ 0 <= BlockIndex.comp_size e < 2 ^ 32
  /\ HEADER_SIZE <= BlockIndex.in_offset e
  /\ BlockIndex.in_offset e + BlockIndex.comp_size e <= in_size.

Local Abbreviation lz4_call block :=
  (LZ4_decompress_safe
     (slice in_data (BlockIndex.in_offset block)
            (int (BlockIndex.comp_size block)))
     (int (BlockIndex.comp_size block)) (int (BlockIndex.orig_size block))).

(** The block goes to LZ4, and LZ4 does not return its original size. *)
Definition block_fails (block : BlockIndex.t) : bool :=
  negb (BlockIndex.comp_size block =? BlockIndex.orig_size block)
  && negb (fst (lz4_call block) =? int (BlockIndex.orig_size block)).

(** The bytes the iteration writes at [out_offset]. *)
Definition block_output (block : BlockIndex.t) : list byte :=
  if BlockIndex.comp_size block =? BlockIndex.orig_size block
  then slice in_data (BlockIndex.in_offset block) (BlockIndex.orig_size block)
  else snd (lz4_call block).

Definition write_block (index : list BlockIndex.t) (out : list byte) (i : nat)
  : list byte :=
  match index !! i with
  | Some block => memcpy out (BlockIndex.out_offset block) (block_output block)
  | None => out
  end.

End OnInput.

End Vocabulary.

(** The frame an index entry describes. *)
Definition frame_of_entry (in_data : list byte) (e : BlockIndex.t)
  : Z * list byte :=
  (BlockIndex.orig_size e,
   slice in_data (BlockIndex.in_offset e) (BlockIndex.comp_size e)).

(** ** Chunks of a buffer *)

Section Chunks.

Context {A : Type}.
Implicit Types (cs : list (list A)) (out c : list A) (i j k : nat).

Definition chunk_offset cs i : nat := length (concat (take i cs)).

Definition write_chunk cs out i : list A :=
  match cs !! i with
  | Some c => list_inserts (chunk_offset cs i) c out
  | None => out
  end.

End Chunks.

(** ** A codec to run the model on

    A run-length codec with the interface of LZ4: a run of up to 255 equal
    bytes becomes the pair of its length and its byte. It meets
    [LZ4_contract], and stands for LZ4 where the model is evaluated on
    concrete inputs. *)

Module RunLength.

Fixpoint pack (l : list byte) : list byte :=
  match l with
  | [] => []
  | b :: t =>
      match pack t with
      | k :: b' :: r =>
          if Byte.eqb b b' && (byte.unsigned k <? 255)
          then byte.of_Z (byte.unsigned k + 1) :: b' :: r
          else Byte.x01 :: b :: k :: b' :: r
      | _ => [Byte.x01; b]
      end
  end.

Fixpoint unpack (c : list byte) : option (list byte) :=
  match c with
  | [] => Some []
  | k :: b :: r =>
      match unpack r with
      | Some d => Some (replicate (Z.to_nat (byte.unsigned k)) b ++ d)
      | None => None
      end
  | [_] => None
  end.

Definition compressBound (isize : Z) : Z := isize + isize / 255 + 16.

Definition compress (src : list byte) (dstCapacity : Z) : list byte :=
  let c := pack src in
  if Z.of_nat (length c) <=? dstCapacity then c else [].

Definition decompress (src : list byte) (compressedSize dstCapacity : Z)
  : Z * list byte :=
  if negb (Z.of_nat (length src) =? compressedSize) then (-1, [])
  else
    match unpack src with
    | None => (-1, [])
    | Some d =>
        if Z.of_nat (length d) <=? dstCapacity
        then (Z.of_nat (length d), d)
        else (-1, take (Z.to_nat dstCapacity) d)
    end.

Definition codec : LZ4 := {|
  LZ4_compressBound := compressBound;
  LZ4_compress_default := compress;
  LZ4_decompress_safe := decompress
|}.

End RunLength.

(** Two schedules: the iterations in order, and last to first. *)
Definition in_order (n : nat) : list nat := seq 0 n.
Definition backwards (n : nat) : list nat := rev (seq 0 n).

(** ** A stream of 4 GiB

    One frame by the wire format: original size 0, stored size [2 ^ 32 - 1],
    and as many payload bytes, [filler] of them zero. The payload starts
    with what reads, from byte 7 of the stream on, as a second header. *)
Definition long_frame (filler : nat) : list byte :=
  [Byte.x00; Byte.x00; Byte.x00; Byte.x00;   (* original size 0 *)
   Byte.xff; Byte.xff; Byte.xff; Byte.xff;   (* stored size 2 ^ 32 - 1 *)
   Byte.x00; Byte.x00; Byte.x00;
   Byte.xf0; Byte.xff; Byte.xff; Byte.xff]
  ++ replicate filler Byte.x00
  ++ replicate 8 Byte.x00.

Definition stream_4GiB : list byte := long_frame (Z.to_nat (2 ^ 32 - 16)).

(** ** A header that stops the cursor

    An original size of 0 and a stored size of [2 ^ 32 - 8], then [filler]
    bytes. *)
Definition stuck_stream (filler : nat) : list byte :=
  [Byte.x00; Byte.x00; Byte.x00; Byte.x00;   (* original size 0 *)
   Byte.xf8; Byte.xff; Byte.xff; Byte.xff]   (* stored size 2 ^ 32 - 8 *)
  ++ replicate filler Byte.x00.

Definition stuck_4GiB : list byte := stuck_stream (Z.to_nat (2 ^ 32 - 8)).

(** ** A small stream

    Three frames, as the run-length codec encodes ten bytes [0x41] in blocks
    of four: two packed blocks and a stored block of two bytes. *)
Definition three_frames : list byte :=
  [Byte.x04; Byte.x00; Byte.x00; Byte.x00; Byte.x02; Byte.x00;
   Byte.x00; Byte.x00; Byte.x04; Byte.x41; Byte.x04; Byte.x00;
   Byte.x00; Byte.x00; Byte.x02; Byte.x00; Byte.x00; Byte.x00;
   Byte.x04; Byte.x41; Byte.x02; Byte.x00; Byte.x00; Byte.x00;
   Byte.x02; Byte.x00; Byte.x00; Byte.x00; Byte.x41; Byte.x41].

(** * Properties *)

(** ** Fixed-width arithmetic *)

Lemma size_t_small (x : Z) : 0 <= x < 2 ^ 64 -> size_t x = x.
Proof. intros H. unfold size_t. now apply Z.mod_small. Qed.

Lemma uint32_t_small (x : Z) : 0 <= x < 2 ^ 32 -> uint32_t x = x.
Proof. intros H. unfold uint32_t. now apply Z.mod_small. Qed.

Lemma int_small (x : Z) : - 2 ^ 31 <= x < 2 ^ 31 -> int x = x.
Proof. intros H. unfold int. rewrite Z.mod_small; lia. Qed.

Lemma uint32_t_range (x : Z) : 0 <= uint32_t x < 2 ^ 32.
Proof. unfold uint32_t. apply Z.mod_pos_bound. lia. Qed.

Lemma size_t_range (x : Z) : 0 <= size_t x < 2 ^ 64.
Proof. unfold size_t. apply Z.mod_pos_bound. lia. Qed.

Lemma int_range (x : Z) : - 2 ^ 31 <= int x < 2 ^ 31.
Proof.
  unfold int. pose proof (Z.mod_pos_bound (x + 2 ^ 31) (2 ^ 32)). lia.
Qed.

Lemma int_of_nat_le (n : nat) :
  0 < int (Z.of_nat n) -> int (Z.of_nat n) <= Z.of_nat n.
Proof.
  unfold int. intros H.
  pose proof (Z.div_mod (Z.of_nat n + 2 ^ 31) (2 ^ 32) ltac:(lia)) as E.
  assert (0 <= (Z.of_nat n + 2 ^ 31) / 2 ^ 32) by (apply Z.div_pos; lia).
  lia.
Qed.

Lemma MAX_BLOCK_SIZE_val : MAX_BLOCK_SIZE = 2 ^ 29.
Proof. reflexivity. Qed.

(** ** Headers in memory *)

Lemma length_store32 (bo : byte_order) (x : Z) :
  length (store32 bo x) = 4%nat.
Proof.
  destruct bo; unfold store32; rewrite ?length_rev; apply length_le_split.
Qed.

Lemma load32_store32 (bo : byte_order) (x : Z) :
  load32 bo (store32 bo x) = uint32_t x.
Proof.
  destruct bo; unfold load32, store32, uint32_t.
  - now rewrite le_combine_split.
  - now rewrite rev_involutive, le_combine_split.
Qed.

Lemma load32_range (bo : byte_order) (bs : list byte) :
  length bs = 4%nat -> 0 <= load32 bo bs < 2 ^ 32.
Proof.
  intros H. destruct bo; unfold load32.
  - pose proof (le_combine_bound bs) as B. rewrite H in B. exact B.
  - pose proof (le_combine_bound (rev bs)) as B.
    rewrite length_rev, H in B. exact B.
Qed.

(** ** Slices and copies *)

Lemma length_slice (data : list byte) (off len : Z) :
  0 <= off -> 0 <= len -> off + len <= Z.of_nat (length data) ->
  Z.of_nat (length (slice data off len)) = len.
Proof.
  intros Ho Hl Hb. unfold slice. rewrite length_take, length_drop. lia.
Qed.

Lemma slice_app_at (pre x post : list byte) (off len : Z) :
  off = Z.of_nat (length pre) -> len = Z.of_nat (length x) ->
  slice (pre ++ x ++ post) off len = x.
Proof.
  intros -> ->. unfold slice. rewrite !Nat2Z.id.
  rewrite drop_app_length. now rewrite take_app_length.
Qed.

Lemma length_memcpy (dst : list byte) (off : Z) (src : list byte) :
  length (memcpy dst off src) = length dst.
Proof. unfold memcpy. apply length_inserts. Qed.

Lemma memcpy_app_at (pre old post src : list byte) (off : Z) :
  off = Z.of_nat (length pre) -> length src = length old ->
  memcpy (pre ++ old ++ post) off src = pre ++ src ++ post.
Proof.
  intros -> Hlen. unfold memcpy. rewrite Nat2Z.id.
  replace (length pre) with (length pre + 0)%nat at 1 by lia.
  rewrite list_inserts_app_r. f_equal. now apply list_inserts_0_r.
Qed.

(** ** The partition of the input (lines 43-54) *)

Section Partition.

Variables in_size block_size : Z.
Hypothesis block_size_valid : 0 < block_size <= MAX_BLOCK_SIZE.
Hypothesis in_size_valid : 0 <= in_size <= PY_SSIZE_T_MAX.

Lemma num_blocks_of_div :
  num_blocks_of in_size block_size = (in_size + block_size - 1) / block_size.
Proof.
  unfold num_blocks_of. rewrite size_t_small; [reflexivity|].
  unfold MAX_BLOCK_SIZE, PY_SSIZE_T_MAX in *. lia.
Qed.

Lemma num_blocks_of_ceil :
  let n := num_blocks_of in_size block_size in
  0 <= n /\ (n - 1) * block_size < in_size <= n * block_size.
Proof.
  cbv zeta. rewrite num_blocks_of_div.
  pose proof (Z.div_mod (in_size + block_size - 1) block_size) as E.
  pose proof (Z.mod_pos_bound (in_size + block_size - 1) block_size) as B.
  set (q := (in_size + block_size - 1) / block_size) in *.
  set (r := (in_size + block_size - 1) mod block_size) in *.
  assert (0 <= q) by (apply Z.div_pos; lia).
  nia.
Qed.

Lemma num_blocks_of_le : num_blocks_of in_size block_size <= in_size.
Proof. pose proof num_blocks_of_ceil as H. cbv zeta in H. nia. Qed.

Lemma block_offset_mul (i : Z) :
  0 <= i < num_blocks_of in_size block_size ->
  block_offset block_size i = i * block_size.
Proof.
  intros Hi. pose proof num_blocks_of_ceil as H. cbv zeta in H.
  unfold block_offset. apply size_t_small.
  unfold MAX_BLOCK_SIZE, PY_SSIZE_T_MAX in *. nia.
Qed.

Lemma block_length_min (i : Z) :
  0 <= i < num_blocks_of in_size block_size ->
  block_length in_size block_size i
  = Z.min ((i + 1) * block_size) in_size - i * block_size.
Proof.
  intros Hi. pose proof num_blocks_of_ceil as H. cbv zeta in H.
  unfold block_length. rewrite (block_offset_mul i Hi).
  assert (i * block_size < in_size) by nia.
  rewrite !size_t_small
    by (unfold MAX_BLOCK_SIZE, PY_SSIZE_T_MAX in *; nia).
  destruct (Z.leb_spec (i * block_size + block_size) in_size); lia.
Qed.

Lemma block_length_range (i : Z) :
  0 <= i < num_blocks_of in_size block_size ->
  0 < block_length in_size block_size i <= block_size
  /\ i * block_size + block_length in_size block_size i <= in_size.
Proof.
  intros Hi. rewrite (block_length_min i Hi).
  pose proof num_blocks_of_ceil as H. cbv zeta in H.
  assert (i * block_size < in_size) by nia. lia.
Qed.

Lemma block_length_full (i : Z) :
  0 <= i -> i + 1 < num_blocks_of in_size block_size ->
  block_length in_size block_size i = block_size.
Proof.
  intros Hi Hlt. rewrite block_length_min by lia.
  pose proof num_blocks_of_ceil as H. cbv zeta in H.
  assert ((i + 1) * block_size <= in_size) by nia. lia.
Qed.

End Partition.

(** ** The block encoder (lines 52-90) *)

Section Encoder.

Context {lz4 : LZ4}.
Variable in_data : list byte.
Variable block_size : Z.
Hypothesis block_size_valid : 0 < block_size <= MAX_BLOCK_SIZE.
Hypothesis in_size_valid : Z.of_nat (length in_data) <= PY_SSIZE_T_MAX.

Local Abbreviation in_size := (Z.of_nat (length in_data)).
Local Abbreviation num_blocks := (num_blocks_of in_size block_size).

Lemma in_size_range : 0 <= in_size <= PY_SSIZE_T_MAX.
Proof. lia. Qed.

Lemma length_block_results :
  length (block_results in_data block_size) = Z.to_nat num_blocks.
Proof. unfold block_results. now rewrite length_fmap, length_seq. Qed.

Lemma lookup_block_results (i : nat) (r : BlockResult.t) :
  block_results in_data block_size !! i = Some r <->
  Z.of_nat i < num_blocks /\ r = compress_block in_data block_size (Z.of_nat i).
Proof.
  unfold block_results. rewrite list_lookup_fmap.
  split.
  - intros H. destruct (seq 0 (Z.to_nat num_blocks) !! i) as [k|] eqn:E;
      [|discriminate].
    apply lookup_seq in E as [-> Hlt]. simpl in H. inversion H. split; [lia|].
    reflexivity.
  - intros [Hlt ->]. rewrite lookup_seq_lt by lia. reflexivity.
Qed.

Lemma compress_block_fields (i : Z) :
  0 <= i < num_blocks ->
  let r := compress_block in_data block_size i in
  BlockResult.offset_in r = i * block_size
  /\ BlockResult.orig_size r = block_length in_size block_size i
  /\ ((0 < lz4_returned in_data r < BlockResult.orig_size r
       /\ BlockResult.comp_size r = lz4_returned in_data r
       /\ BlockResult.comp_buf r
          = take (Z.to_nat (lz4_returned in_data r)) (lz4_written in_data r))
      \/ (~ 0 < lz4_returned in_data r < BlockResult.orig_size r
          /\ BlockResult.comp_size r = BlockResult.orig_size r
          /\ BlockResult.comp_buf r
             = slice in_data (BlockResult.offset_in r)
                             (BlockResult.orig_size r))).
Proof.
  intros Hi.
  pose proof (block_length_range in_size block_size block_size_valid
                in_size_range i Hi) as [Hlen Hend].
  pose proof (block_offset_mul in_size block_size block_size_valid
                in_size_range i Hi) as Hoff.
  assert (Hint : int (block_length in_size block_size i)
                 = block_length in_size block_size i).
  { apply int_small. unfold MAX_BLOCK_SIZE in *. lia. }
  set (r := compress_block in_data block_size i).
  assert (Hr_off : BlockResult.offset_in r = i * block_size).
  { subst r. unfold compress_block. rewrite Hoff.
    destruct (_ && _); reflexivity. }
  assert (Hr_len : BlockResult.orig_size r = block_length in_size block_size i).
  { subst r. unfold compress_block. destruct (_ && _); reflexivity. }
  split; [exact Hr_off|]. split; [exact Hr_len|].
  unfold lz4_returned, lz4_written. rewrite Hr_off, Hr_len.
  subst r. unfold compress_block. rewrite Hoff, Hint.
  set (w := LZ4_compress_default _ _).
  destruct (Z.ltb_spec 0 (int (Z.of_nat (length w)))) as [Hpos|Hnpos]; simpl.
  - rewrite size_t_small
      by (pose proof (int_range (Z.of_nat (length w))); lia).
    destruct (Z.ltb_spec (int (Z.of_nat (length w)))
                (block_length in_size block_size i)) as [Hlt|Hge]; simpl.
    + left. repeat split; trivial.
    + right. repeat split; trivial. lia.
  - right. repeat split; trivial. lia.
Qed.

Lemma compress_block_sizes (i : Z) :
  0 <= i < num_blocks ->
  let r := compress_block in_data block_size i in
  0 < BlockResult.comp_size r <= BlockResult.orig_size r
  /\ BlockResult.orig_size r <= block_size
  /\ Z.of_nat (length (BlockResult.comp_buf r)) = BlockResult.comp_size r.
Proof.
  intros Hi r.
  pose proof (block_length_range in_size block_size block_size_valid
                in_size_range i Hi) as [Hlen Hend].
  destruct (compress_block_fields i Hi) as (Ho & Hl & Hc). fold r in Ho, Hl, Hc.
  destruct Hc as [(Hret & Hcs & Hbuf) | (Hret & Hcs & Hbuf)].
  - rewrite Hcs, Hbuf. split; [lia|]. split; [lia|].
    rewrite length_take. unfold lz4_returned in *.
    pose proof (int_of_nat_le _ (proj1 Hret)). lia.
  - rewrite Hcs, Hbuf. split; [lia|]. split; [lia|].
    apply length_slice; lia.
Qed.

End Encoder.

(** ** Sums over blocks *)

Lemma sumZ_cons {A : Type} (f : A -> Z) (a : A) (l : list A) :
  sumZ f (a :: l) = f a + sumZ f l.
Proof. reflexivity. Qed.

Lemma sumZ_app {A : Type} (f : A -> Z) (l1 l2 : list A) :
  sumZ f (l1 ++ l2) = sumZ f l1 + sumZ f l2.
Proof.
  induction l1 as [|a l1 IH]; [reflexivity|].
  rewrite <- app_comm_cons, !sumZ_cons, IH. lia.
Qed.

Lemma sumZ_fmap {A B : Type} (g : A -> B) (f : B -> Z) (l : list A) :
  sumZ f (g <$> l) = sumZ (fun a => f (g a)) l.
Proof.
  induction l as [|a l IH]; [reflexivity|].
  rewrite fmap_cons, !sumZ_cons, IH. reflexivity.
Qed.

Lemma sumZ_le {A : Type} (f g : A -> Z) (l : list A) :
  Forall (fun a => f a <= g a) l -> sumZ f l <= sumZ g l.
Proof. induction 1; rewrite ?sumZ_cons; [reflexivity|lia]. Qed.

Lemma sumZ_nonneg {A : Type} (f : A -> Z) (l : list A) :
  Forall (fun a => 0 <= f a) l -> 0 <= sumZ f l.
Proof. induction 1; rewrite ?sumZ_cons; [reflexivity|lia]. Qed.

Lemma sumZ_plus_const {A : Type} (f : A -> Z) (c : Z) (l : list A) :
  sumZ (fun a => f a + c) l = sumZ f l + Z.of_nat (length l) * c.
Proof.
  induction l as [|a l IH]; [reflexivity|].
  rewrite !sumZ_cons, IH. simpl length. lia.
Qed.

Lemma length_frame_bytes (bo : byte_order) (o : Z) (p : list byte) :
  Z.of_nat (length (frame_bytes bo o p)) = HEADER_SIZE + Z.of_nat (length p).
Proof.
  unfold frame_bytes, HEADER_SIZE. rewrite !length_app, !length_store32. lia.
Qed.

(** ** The frame writer (lines 98-118) *)

Section Writer.

Variable native : byte_order.

Lemma total_comp_size_of_acc (results : list BlockResult.t) (acc : Z) :
  Forall result_ok results ->
  0 <= acc -> acc + sumZ stored_plus_header results < 2 ^ 64 ->
  fold_left
    (fun acc r => size_t (acc + int (BlockResult.comp_size r + HEADER_SIZE)))
    results acc
  = acc + sumZ stored_plus_header results.
Proof.
  intros Hok. revert acc.
  induction Hok as [|r rs (Ho & Hc & Hl) Hrs IH]; intros acc Hacc Hsum.
  { simpl. unfold sumZ. simpl. lia. }
  assert (0 <= sumZ stored_plus_header rs).
  { apply sumZ_nonneg. eapply Forall_impl; [exact Hrs|].
    intros r' (_ & ? & _). unfold stored_plus_header, HEADER_SIZE. lia. }
  rewrite sumZ_cons in *. cbn [fold_left].
  assert (Hr : stored_plus_header r = BlockResult.comp_size r + 8)
    by reflexivity.
  unfold HEADER_SIZE.
  rewrite int_small by (unfold MAX_BLOCK_SIZE in *; lia).
  rewrite size_t_small by lia.
  unfold HEADER_SIZE in IH. rewrite IH by lia. lia.
Qed.

Lemma total_comp_size_of_sum (results : list BlockResult.t) :
  Forall result_ok results ->
  sumZ stored_plus_header results < 2 ^ 64 ->
  total_comp_size_of results = sumZ stored_plus_header results.
Proof.
  intros Hok Hsum. unfold total_comp_size_of.
  rewrite total_comp_size_of_acc; trivial; lia.
Qed.

Lemma length_write_frames (results : list BlockResult.t)
  (out_data : list byte) (out_offset : Z) :
  length (write_frames native results out_data out_offset) = length out_data.
Proof.
  revert out_data out_offset.
  induction results as [|r rs IH]; intros out_data out_offset; simpl;
    [reflexivity|].
  now rewrite IH, !length_memcpy.
Qed.

Lemma length_concat_frames (results : list BlockResult.t) :
  Forall result_ok results ->
  Z.of_nat (length (concat (frame_of native <$> results)))
  = sumZ stored_plus_header results.
Proof.
  induction 1 as [|r rs (Ho & Hc & Hl) Hrs IH]; [reflexivity|].
  rewrite fmap_cons, sumZ_cons. simpl concat.
  rewrite length_app, Nat2Z.inj_add, IH. unfold frame_of.
  rewrite length_frame_bytes, Hl. unfold stored_plus_header. lia.
Qed.

Lemma memcpy_over (pre rest src : list byte) (off : Z) :
  off = Z.of_nat (length pre) -> (length src <= length rest)%nat ->
  memcpy (pre ++ rest) off src = pre ++ src ++ drop (length src) rest.
Proof.
  intros Hoff Hlen.
  rewrite <- (take_drop (length src) rest) at 1.
  apply memcpy_app_at; [exact Hoff|]. rewrite length_take. lia.
Qed.

Lemma write_frames_concat (results : list BlockResult.t)
  (pre rest : list byte) (out_offset : Z) :
  Forall result_ok results ->
  out_offset = Z.of_nat (length pre) ->
  Z.of_nat (length rest) = sumZ stored_plus_header results ->
  out_offset + sumZ stored_plus_header results < 2 ^ 64 ->
  write_frames native results (pre ++ rest) out_offset
  = pre ++ concat (frame_of native <$> results).
Proof.
  intros Hok. revert pre rest out_offset.
  induction Hok as [|r rs (Ho & Hc & Hl) Hrs IH];
    intros pre rest out_offset Hoff Hrest Hsum.
  - destruct rest; [reflexivity|]. unfold sumZ in Hrest. simpl in Hrest. lia.
  - assert (0 <= sumZ stored_plus_header rs).
    { apply sumZ_nonneg. eapply Forall_impl; [exact Hrs|].
      intros r' (_ & ? & _). unfold stored_plus_header, HEADER_SIZE. lia. }
    rewrite sumZ_cons in Hrest, Hsum.
    assert (Hr : stored_plus_header r = BlockResult.comp_size r + 8)
      by reflexivity.
    cbn [write_frames fmap list_fmap concat].
    unfold HEADER_SIZE in *.
    rewrite (uint32_t_small (BlockResult.orig_size r))
      by (unfold MAX_BLOCK_SIZE in *; lia).
    rewrite (uint32_t_small (BlockResult.comp_size r))
      by (unfold MAX_BLOCK_SIZE in *; lia).
    rewrite uint32_t_small by (unfold MAX_BLOCK_SIZE in *; lia).
    rewrite size_t_small by lia.
    rewrite (take_ge (BlockResult.comp_buf r)) by lia.
    rewrite (memcpy_over pre rest) by (rewrite ?length_store32; lia).
    rewrite length_store32.
    rewrite (app_assoc pre).
    rewrite (memcpy_over (pre ++ _))
      by (rewrite ?length_app, ?length_store32, ?length_drop; lia).
    rewrite length_store32, drop_drop.
    rewrite (app_assoc (pre ++ _)).
    rewrite (memcpy_over ((pre ++ _) ++ _))
      by (rewrite ?length_app, ?length_store32, ?length_drop; lia).
    rewrite drop_drop.
    rewrite (app_assoc ((pre ++ _) ++ _)).
    rewrite IH.
    + unfold frame_of at 2, frame_bytes. rewrite Hl, <- !app_assoc.
      reflexivity.
    + rewrite !length_app, !length_store32. lia.
    + rewrite length_drop. lia.
    + lia.
Qed.

End Writer.

(** ** The encoded stream *)

Section EncodedStream.

Context {lz4 : LZ4}.
Variable native : byte_order.
Variable in_data : list byte.
Variable block_size : Z.
Hypothesis block_size_valid : 0 < block_size <= MAX_BLOCK_SIZE.
Hypothesis in_size_valid : Z.of_nat (length in_data) <= PY_SSIZE_T_MAX.

Local Abbreviation in_size := (Z.of_nat (length in_data)).
Local Abbreviation num_blocks := (num_blocks_of in_size block_size).
Local Abbreviation in_size_ok := (in_size_range in_data in_size_valid).

Lemma blocks_upto_S (k : nat) :
  blocks_upto in_data block_size (S k)
  = blocks_upto in_data block_size k
    ++ [compress_block in_data block_size (Z.of_nat k)].
Proof. unfold blocks_upto. now rewrite seq_S, fmap_app. Qed.

Lemma blocks_upto_all :
  block_results in_data block_size
  = blocks_upto in_data block_size (Z.to_nat num_blocks).
Proof. reflexivity. Qed.

Lemma num_blocks_ceil :
  0 <= num_blocks /\ (num_blocks - 1) * block_size < in_size
  /\ in_size <= num_blocks * block_size.
Proof.
  pose proof (num_blocks_of_ceil in_size block_size block_size_valid
                in_size_ok) as H.
  cbv zeta in H. lia.
Qed.

Lemma blocks_upto_sizes (k : nat) (r : BlockResult.t) :
  Z.of_nat k <= num_blocks -> r ∈ blocks_upto in_data block_size k ->
  0 < BlockResult.comp_size r <= BlockResult.orig_size r
  /\ BlockResult.orig_size r <= block_size
  /\ Z.of_nat (length (BlockResult.comp_buf r)) = BlockResult.comp_size r.
Proof.
  intros Hk Hr.
  apply list_elem_of_fmap in Hr as (i & -> & Hi).
  apply elem_of_seq in Hi.
  apply (compress_block_sizes in_data block_size block_size_valid
           in_size_valid (Z.of_nat i)).
  lia.
Qed.

Lemma blocks_upto_ok (k : nat) :
  Z.of_nat k <= num_blocks ->
  Forall result_ok (blocks_upto in_data block_size k).
Proof.
  intros Hk. apply Forall_forall. intros r Hr.
  destruct (blocks_upto_sizes k r Hk Hr) as (Hc & Ho & Hl).
  repeat split; lia.
Qed.

Lemma sum_orig_blocks_upto (k : nat) :
  Z.of_nat k <= num_blocks ->
  sumZ BlockResult.orig_size (blocks_upto in_data block_size k)
  = Z.min (Z.of_nat k * block_size) in_size.
Proof.
  pose proof num_blocks_ceil as Hceil.
  induction k as [|k IH]; intros Hk.
  - unfold blocks_upto, sumZ. simpl. lia.
  - rewrite blocks_upto_S, sumZ_app, IH by lia.
    destruct (compress_block_fields in_data block_size block_size_valid
                in_size_valid (Z.of_nat k)) as (_ & Hl & _); [lia|].
    rewrite sumZ_cons, Hl.
    rewrite (block_length_min in_size block_size block_size_valid in_size_ok)
      by lia.
    unfold sumZ. simpl foldr.
    assert (Z.of_nat k * block_size < in_size) by nia. lia.
Qed.

Lemma sum_orig_block_results :
  sumZ BlockResult.orig_size (block_results in_data block_size) = in_size.
Proof.
  pose proof num_blocks_ceil as Hceil.
  rewrite blocks_upto_all, sum_orig_blocks_upto by lia.
  rewrite Z2Nat.id by lia. lia.
Qed.

Lemma concat_blocks_upto (k : nat) :
  Z.of_nat k <= num_blocks ->
  concat (block_data in_data <$> blocks_upto in_data block_size k)
  = take (Z.to_nat (Z.min (Z.of_nat k * block_size) in_size)) in_data.
Proof.
  pose proof num_blocks_ceil as Hceil.
  induction k as [|k IH]; intros Hk.
  - unfold blocks_upto. simpl. rewrite Z.min_l by lia. reflexivity.
  - rewrite blocks_upto_S, fmap_app, concat_app, IH by lia.
    destruct (compress_block_fields in_data block_size block_size_valid
                in_size_valid (Z.of_nat k)) as (Ho & Hl & _); [lia|].
    cbn [fmap list_fmap concat]. rewrite app_nil_r.
    unfold block_data. rewrite Ho, Hl.
    rewrite (block_length_min in_size block_size block_size_valid in_size_ok)
      by lia.
    assert (Z.of_nat k * block_size < in_size) by nia.
    rewrite (Z.min_l (Z.of_nat k * block_size)) by lia.
    unfold slice. rewrite take_take_drop. f_equal. lia.
Qed.

Lemma concat_block_data :
  concat (block_data in_data <$> block_results in_data block_size) = in_data.
Proof.
  pose proof num_blocks_ceil as Hceil.
  rewrite blocks_upto_all, concat_blocks_upto by lia.
  rewrite Z2Nat.id by lia. apply take_ge. lia.
Qed.

Lemma block_results_ok : Forall result_ok (block_results in_data block_size).
Proof.
  pose proof num_blocks_ceil as Hceil.
  rewrite blocks_upto_all. apply blocks_upto_ok. lia.
Qed.

Lemma sum_stored_le :
  sumZ stored_plus_header (block_results in_data block_size)
  <= in_size + num_blocks * HEADER_SIZE.
Proof.
  pose proof num_blocks_ceil as Hceil.
  unfold stored_plus_header. rewrite sumZ_plus_const.
  rewrite length_block_results.
  rewrite Z2Nat.id by lia.
  rewrite <- sum_orig_block_results at 2.
  apply Z.add_le_mono_r. apply sumZ_le.
  apply Forall_forall. intros r Hr. rewrite blocks_upto_all in Hr.
  apply blocks_upto_sizes in Hr; lia.
Qed.

Lemma sum_stored_nonneg :
  0 <= sumZ stored_plus_header (block_results in_data block_size).
Proof.
  apply sumZ_nonneg. eapply Forall_impl; [apply block_results_ok|].
  intros r (_ & ? & _). unfold stored_plus_header, HEADER_SIZE. lia.
Qed.

(** The worst-case size of the output is a valid [Py_ssize_t]. *)
Hypothesis encoded_size_valid :
  in_size + num_blocks * HEADER_SIZE <= PY_SSIZE_T_MAX.

Lemma sum_stored_no_overflow :
  sumZ stored_plus_header (block_results in_data block_size) < 2 ^ 64.
Proof.
  pose proof sum_stored_le as H.
  unfold HEADER_SIZE, PY_SSIZE_T_MAX in *. lia.
Qed.

Lemma compress_hybrid_frames :
  compress_hybrid native in_data block_size
  = PyOk (concat (frame_of native <$> block_results in_data block_size)).
Proof.
  unfold compress_hybrid.
  destruct (Z.ltb_spec MAX_BLOCK_SIZE block_size); [lia|].
  destruct (Z.eqb_spec block_size 0); [lia|].
  f_equal.
  rewrite total_comp_size_of_sum
    by (apply block_results_ok || apply sum_stored_no_overflow).
  pose proof sum_stored_no_overflow as Hsum.
  pose proof sum_stored_nonneg as Hnn.
  change (replicate ?n ?x) with ([] ++ replicate n x).
  rewrite (write_frames_concat native _ [] _ 0); trivial.
  - apply block_results_ok.
  - rewrite length_replicate. lia.
Qed.

End EncodedStream.

(** ** Pass 1: the index loop (lines 153-192) *)

Section Indexer.

Variable native : byte_order.
Variable in_data : list byte.
Hypothesis in_size_valid : Z.of_nat (length in_data) <= PY_SSIZE_T_MAX.

Local Abbreviation in_size := (Z.of_nat (length in_data)).
Local Abbreviation state := (Z * Z * list BlockIndex.t)%type.

Lemma header_accepted_dec (data : list byte) (in_offset : Z) :
  {header_accepted native data in_offset}
  + {~ header_accepted native data in_offset}.
Proof.
  unfold header_accepted. destruct (header_at native data in_offset) as [o s].
  destruct (Z_le_dec o MAX_BLOCK_SIZE);
    destruct (Z_le_dec s (Z.of_nat (length data) - (in_offset + HEADER_SIZE)));
    (left; split; assumption) || (right; intros [? ?]; contradiction).
Qed.

Lemma index_step_accepts (st : state) :
  0 <= cursor st -> in_loop in_data (cursor st) ->
  header_accepted native in_data (cursor st) ->
  let '(original_size, stored_size) := header_at native in_data (cursor st) in
  index_step native in_data st
  = PyOk (size_t (cursor st + uint32_t (HEADER_SIZE + stored_size)),
          size_t (snd (fst st) + original_size),
          snd st ++ [BlockIndex.mk (cursor st + HEADER_SIZE) (snd (fst st))
                                   stored_size original_size]).
Proof.
  destruct st as [[c t] idx].
  unfold cursor, in_loop, header_accepted, header_at.
  simpl fst; simpl snd. intros Hc Hloop [Ho Hs].
  unfold index_step, HEADER_SIZE in *.
  rewrite (size_t_small (c + 8)) by (unfold PY_SSIZE_T_MAX in *; lia).
  rewrite (size_t_small (in_size - (c + 8)))
    by (unfold PY_SSIZE_T_MAX in *; lia).
  destruct (Z.ltb_spec MAX_BLOCK_SIZE (load32 native (slice in_data c 4)));
    [lia|].
  destruct (Z.ltb_spec (in_size - (c + 8))
              (load32 native (slice in_data (c + 4) 4))); [lia|].
  reflexivity.
Qed.

Lemma index_step_rejects (st : state) :
  0 <= cursor st -> in_loop in_data (cursor st) ->
  ~ header_accepted native in_data (cursor st) ->
  index_step native in_data st = PyRaise PyExc_RuntimeError.
Proof.
  destruct st as [[c t] idx].
  unfold cursor, in_loop, header_accepted, header_at.
  simpl fst. intros Hc Hloop Hrej.
  unfold index_step, HEADER_SIZE in *.
  rewrite (size_t_small (c + 8)) by (unfold PY_SSIZE_T_MAX in *; lia).
  rewrite (size_t_small (in_size - (c + 8)))
    by (unfold PY_SSIZE_T_MAX in *; lia).
  destruct (Z.ltb_spec MAX_BLOCK_SIZE (load32 native (slice in_data c 4)));
    [reflexivity|].
  destruct (Z.ltb_spec (in_size - (c + 8))
              (load32 native (slice in_data (c + 4) 4))); [reflexivity|].
  exfalso. apply Hrej. lia.
Qed.


Lemma index_step_raise_rejected (st : state) (e : PyExc) :
  0 <= cursor st -> in_loop in_data (cursor st) ->
  index_step native in_data st = PyRaise e ->
  ~ header_accepted native in_data (cursor st).
Proof.
  intros Hc Hloop Hstep Hacc.
  pose proof (index_step_accepts st Hc Hloop Hacc) as E.
  destruct (header_at native in_data (cursor st)) as [o s].
  rewrite E in Hstep. discriminate.
Qed.

(** A step keeps the cursor inside the input and never moves it back. *)
Lemma index_step_cursor (st st' : state) :
  0 <= cursor st -> in_loop in_data (cursor st) ->
  index_step native in_data st = PyOk st' ->
  cursor st <= cursor st' <= in_size
  /\ cursor st'
     = cursor st
       + uint32_t (HEADER_SIZE + snd (header_at native in_data (cursor st)))
  /\ header_accepted native in_data (cursor st).
Proof.
  intros Hc Hloop Hstep.
  destruct (header_accepted_dec in_data (cursor st)) as [Hacc|Hrej].
  2:{ rewrite index_step_rejects in Hstep by trivial. discriminate. }
  split; [|split; [|exact Hacc]].
  all: pose proof (index_step_accepts st Hc Hloop Hacc) as E.
  all: unfold header_accepted in Hacc.
  all: destruct (header_at native in_data (cursor st)) as [o s] eqn:Eh.
  all: rewrite E in Hstep; inversion Hstep; subst st'; clear Hstep E.
  all: destruct st as [[c t] idx]; unfold cursor in *.
  all: simpl fst in *; simpl snd in *.
  all: assert (0 <= s) by
    (unfold header_at in Eh; inversion Eh;
     apply load32_range; unfold slice; rewrite length_take, length_drop;
     unfold in_loop, HEADER_SIZE in Hloop; lia).
  all: pose proof (uint32_t_range (HEADER_SIZE + s)) as Hu.
  all: assert (uint32_t (HEADER_SIZE + s) <= HEADER_SIZE + s) by
    (unfold uint32_t; apply Z.mod_le; unfold HEADER_SIZE; lia).
  all: unfold in_loop, HEADER_SIZE in *.
  all: rewrite size_t_small by (unfold PY_SSIZE_T_MAX in *; lia).
  all: lia.
Qed.

End Indexer.

Section IndexLoop.

Variable native : byte_order.
Variable in_data : list byte.
Hypothesis in_size_valid : Z.of_nat (length in_data) <= PY_SSIZE_T_MAX.

Local Abbreviation in_size := (Z.of_nat (length in_data)).
Local Abbreviation state := (Z * Z * list BlockIndex.t)%type.

Lemma index_loop_in (fuel : nat) (st : state) :
  0 <= cursor st -> in_loop in_data (cursor st) ->
  index_loop native (S fuel) in_data st
  = match index_step native in_data st with
    | PyRaise e => Some (PyRaise e)
    | PyOk st' => index_loop native fuel in_data st'
    end.
Proof.
  intros Hc Hloop. unfold in_loop, HEADER_SIZE in Hloop. cbn [index_loop].
  fold (cursor st). unfold HEADER_SIZE.
  rewrite size_t_small by (unfold PY_SSIZE_T_MAX in *; lia).
  destruct (Z.leb_spec (cursor st + 8) in_size); [reflexivity|lia].
Qed.

Lemma index_loop_out (fuel : nat) (st : state) :
  0 <= cursor st <= in_size -> ~ in_loop in_data (cursor st) ->
  index_loop native (S fuel) in_data st = Some (PyOk st).
Proof.
  intros Hc Hloop. unfold in_loop, HEADER_SIZE in Hloop. cbn [index_loop].
  fold (cursor st). unfold HEADER_SIZE.
  rewrite size_t_small by (unfold PY_SSIZE_T_MAX in *; lia).
  destruct (Z.leb_spec (cursor st + 8) in_size); [lia|reflexivity].
Qed.

(** More fuel does not change a result. *)
Lemma index_loop_mono (fuel fuel' : nat) (st : state)
  (r : PyResult state) :
  (fuel <= fuel')%nat ->
  index_loop native fuel in_data st = Some r ->
  index_loop native fuel' in_data st = Some r.
Proof.
  revert fuel' st. induction fuel as [|fuel IH]; intros fuel' st Hle H.
  - discriminate.
  - destruct fuel' as [|fuel']; [lia|]. cbn [index_loop] in *.
    destruct (_ <=? _); [|exact H].
    destruct (index_step native in_data st) as [st'|e]; [|exact H].
    apply IH; [lia|exact H].
Qed.

(** A header that is accepted and whose stored size makes the 32-bit sum
    [HEADER_SIZE + comp_size] wrap to zero keeps the cursor in place: the
    loop does not end. *)
Lemma index_loop_stuck (c : Z) :
  0 <= c -> in_loop in_data c -> header_accepted native in_data c ->
  uint32_t (HEADER_SIZE + snd (header_at native in_data c)) = 0 ->
  forall (fuel : nat) (st : state),
    cursor st = c -> index_loop native fuel in_data st = None.
Proof.
  intros Hc Hloop Hacc Hzero fuel.
  induction fuel as [|fuel IH]; intros st Hst; [reflexivity|].
  rewrite index_loop_in by (rewrite Hst; trivial).
  destruct (index_step native in_data st) as [st'|e] eqn:E.
  - apply IH.
    apply index_step_cursor in E as (_ & E & _); rewrite ?Hst; trivial.
    rewrite E, Hst, Hzero. lia.
  - exfalso.
    apply (index_step_raise_rejected native in_data in_size_valid st e);
      rewrite ?Hst; trivial.
Qed.

(** The input length bounds the iterations of a pass that ends. *)
Lemma index_loop_enough (fuel : nat) (st : state) (r : PyResult state) :
  0 <= cursor st <= in_size ->
  index_loop native fuel in_data st = Some r ->
  index_loop native (S (Z.to_nat (in_size - cursor st))) in_data st = Some r.
Proof.
  revert st. induction fuel as [|fuel IH]; intros st Hc H; [discriminate|].
  destruct (Z_le_dec (cursor st + HEADER_SIZE) in_size) as [Hloop|Hout].
  2:{ rewrite index_loop_out in * by (trivial; lia). exact H. }
  pose proof H as H0.
  rewrite index_loop_in in H by (trivial; lia).
  rewrite index_loop_in by (trivial; lia).
  destruct (index_step native in_data st) as [st'|e] eqn:E; [|exact H].
  pose proof E as E'.
  apply index_step_cursor in E' as (Hc' & Hnext & Hacc); trivial; [|lia].
  destruct (Z.eq_dec (uint32_t (HEADER_SIZE
              + snd (header_at native in_data (cursor st)))) 0) as [Hz|Hnz].
  - rewrite (index_loop_stuck (cursor st) ltac:(lia) Hloop Hacc Hz
               (S fuel) st eq_refl) in H0.
    discriminate.
  - pose proof (uint32_t_range (HEADER_SIZE
                  + snd (header_at native in_data (cursor st)))).
    apply (index_loop_mono (S (Z.to_nat (in_size - cursor st')))); [lia|].
    apply IH; [lia|exact H].
Qed.

Lemma index_reach_cursor (st : state) :
  index_reach native in_data st -> 0 <= cursor st <= in_size.
Proof.
  induction 1 as [|st st' Hreach IH Hloop Hstep].
  - unfold cursor. simpl. lia.
  - apply index_step_cursor in Hstep; trivial; lia.
Qed.

Lemma index_reach_loop (st : state) (fuel : nat) (r : PyResult state) :
  index_reach native in_data st ->
  index_loop native fuel in_data st = Some r ->
  index_loop native (S (length in_data)) in_data (0, 0, []) = Some r.
Proof.
  intros Hreach. revert fuel.
  induction Hreach as [|st st' Hreach IH Hloop Hstep]; intros fuel H.
  - apply index_loop_enough in H; [|unfold cursor; simpl; lia].
    unfold cursor in H. simpl in H.
    rewrite Z.sub_0_r, Nat2Z.id in H. exact H.
  - apply (IH (S fuel)).
    pose proof (index_reach_cursor st Hreach).
    rewrite index_loop_in by (trivial; lia). rewrite Hstep. exact H.
Qed.

(** When the fuel of [decompress_hybrid] is not enough, no fuel is: the
    loop of pass 1 does not end. *)
Lemma index_loop_never :
  index_loop native (S (length in_data)) in_data (0, 0, []) = None ->
  forall fuel, index_loop native fuel in_data (0, 0, []) = None.
Proof.
  intros Hnone fuel.
  destruct (index_loop native fuel in_data (0, 0, [])) as [r|] eqn:E;
    [|reflexivity].
  apply (index_reach_loop (0, 0, []) fuel r (reach_start _ _)) in E.
  congruence.
Qed.

End IndexLoop.

(** ** The index of a stream of frames *)

Section Frames.

Variable native : byte_order.

Local Abbreviation frame := (Z * list byte)%type.
Local Abbreviation state := (Z * Z * list BlockIndex.t)%type.

Lemma stream_of_cons (f : frame) (fs : list frame) :
  stream_of native (f :: fs)
  = frame_bytes native (fst f) (snd f) ++ stream_of native fs.
Proof. reflexivity. Qed.

Lemma length_stream_of (fs : list frame) :
  Z.of_nat (length (stream_of native fs))
  = sumZ (fun f => HEADER_SIZE + Z.of_nat (length (snd f))) fs.
Proof.
  induction fs as [|f fs IH]; [reflexivity|].
  rewrite stream_of_cons, length_app, Nat2Z.inj_add, IH, length_frame_bytes.
  reflexivity.
Qed.

Lemma length_stream_of_ge (fs : list frame) :
  Z.of_nat (length fs) * HEADER_SIZE <= Z.of_nat (length (stream_of native fs)).
Proof.
  induction fs as [|f fs IH]; [simpl; lia|].
  rewrite stream_of_cons, length_app, Nat2Z.inj_add, length_frame_bytes.
  simpl length. unfold HEADER_SIZE in *. lia.
Qed.

Lemma length_index_of_frames (in_off out_off : Z) (fs : list frame) :
  length (index_of_frames in_off out_off fs) = length fs.
Proof.
  revert in_off out_off. induction fs as [|f fs IH]; intros; simpl;
    [reflexivity|]. now rewrite IH.
Qed.

Lemma header_at_frame (pre post : list byte) (f : frame) :
  0 <= fst f < 2 ^ 32 -> Z.of_nat (length (snd f)) < 2 ^ 32 ->
  header_at native (pre ++ frame_bytes native (fst f) (snd f) ++ post)
            (Z.of_nat (length pre))
  = (fst f, Z.of_nat (length (snd f))).
Proof.
  intros Ho Hp. unfold header_at, frame_bytes. f_equal.
  - rewrite <- !app_assoc.
    rewrite (slice_app_at pre (store32 native (fst f))); trivial.
    + rewrite load32_store32. now apply uint32_t_small.
    + now rewrite length_store32.
  - rewrite <- !app_assoc. rewrite (app_assoc pre).
    rewrite (slice_app_at (pre ++ store32 native (fst f))
               (store32 native (Z.of_nat (length (snd f))))).
    + rewrite load32_store32. apply uint32_t_small. lia.
    + rewrite length_app, length_store32. lia.
    + now rewrite length_store32.
Qed.

Lemma index_step_frame (pre post : list byte) (f : frame)
  (total : Z) (index : list BlockIndex.t) :
  let data := pre ++ frame_bytes native (fst f) (snd f) ++ post in
  Z.of_nat (length data) <= PY_SSIZE_T_MAX ->
  frame_valid f -> 0 <= total -> total + fst f < 2 ^ 64 ->
  index_step native data (Z.of_nat (length pre), total, index)
  = PyOk (Z.of_nat (length pre) + HEADER_SIZE + Z.of_nat (length (snd f)),
          total + fst f,
          index ++ [BlockIndex.mk (Z.of_nat (length pre) + HEADER_SIZE) total
                                  (Z.of_nat (length (snd f))) (fst f)]).
Proof.
  intros data Hlen [Ho Hp] Ht Hsum.
  pose proof (length_frame_bytes native (fst f) (snd f)) as Hf.
  assert (Hd : Z.of_nat (length data)
               = Z.of_nat (length pre) + HEADER_SIZE
                 + Z.of_nat (length (snd f)) + Z.of_nat (length post)).
  { unfold data. rewrite !length_app. lia. }
  pose proof (header_at_frame pre post f
                ltac:(unfold MAX_BLOCK_SIZE in *; lia)
                ltac:(unfold HEADER_SIZE in *; lia)) as Hh.
  fold data in Hh.
  pose proof (index_step_accepts native data Hlen
                (Z.of_nat (length pre), total, index)) as E.
  unfold cursor, in_loop, header_accepted in E. simpl fst in E; simpl snd in E.
  rewrite Hh in E. rewrite E; [|lia|unfold HEADER_SIZE in *; lia|lia].
  rewrite uint32_t_small by (unfold HEADER_SIZE in *; lia).
  rewrite !size_t_small
    by (unfold PY_SSIZE_T_MAX, HEADER_SIZE in *; lia).
  do 3 f_equal. lia.
Qed.

Lemma index_loop_frames (fs : list frame) :
  Forall frame_valid fs ->
  forall (pre post : list byte) (total : Z) (index : list BlockIndex.t)
         (fuel : nat),
    let data := pre ++ stream_of native fs ++ post in
    Z.of_nat (length data) <= PY_SSIZE_T_MAX ->
    0 <= total -> total + sumZ fst fs < 2 ^ 64 ->
    index_loop native (length fs + fuel) data
               (Z.of_nat (length pre), total, index)
    = index_loop native fuel data
        (Z.of_nat (length pre) + Z.of_nat (length (stream_of native fs)),
         total + sumZ fst fs,
         index ++ index_of_frames (Z.of_nat (length pre)) total fs).
Proof.
  induction 1 as [|f fs Hf Hfs IH]; intros pre post total index fuel data
    Hlen Ht Hsum.
  - simpl. unfold sumZ. simpl. rewrite !Z.add_0_r, app_nil_r. reflexivity.
  - assert (0 <= sumZ fst fs).
    { apply sumZ_nonneg. eapply Forall_impl; [exact Hfs|].
      intros f' [? _]. lia. }
    rewrite sumZ_cons in Hsum |- *.
    pose proof Hf as [Ho Hp].
    pose proof (length_frame_bytes native (fst f) (snd f)) as Hfl.
    assert (Hdata : data = pre ++ frame_bytes native (fst f) (snd f)
                             ++ (stream_of native fs ++ post)).
    { unfold data. rewrite stream_of_cons, <- !app_assoc. reflexivity. }
    assert (Hdata' : data = (pre ++ frame_bytes native (fst f) (snd f))
                              ++ stream_of native fs ++ post).
    { rewrite Hdata, <- !app_assoc. reflexivity. }
    assert (Hd : Z.of_nat (length data)
                 = Z.of_nat (length pre) + HEADER_SIZE
                   + Z.of_nat (length (snd f))
                   + Z.of_nat (length (stream_of native fs ++ post))).
    { rewrite Hdata, !length_app. lia. }
    cbn [length Nat.add].
    rewrite index_loop_in;
      [|trivial|unfold cursor; simpl; lia
       |unfold cursor, in_loop; simpl fst; unfold HEADER_SIZE in *; lia].
    rewrite Hdata at 1.
    rewrite index_step_frame; [|rewrite <- Hdata; trivial|trivial|lia|lia].
    rewrite Hdata' at 1.
    replace (Z.of_nat (length pre) + HEADER_SIZE + Z.of_nat (length (snd f)))
      with (Z.of_nat (length (pre ++ frame_bytes native (fst f) (snd f))))
      by (rewrite length_app; lia).
    rewrite IH; [|rewrite <- Hdata'; trivial|lia|lia].
    rewrite <- Hdata'. f_equal. f_equal; [f_equal|].
    + rewrite stream_of_cons, !length_app. lia.
    + lia.
    + rewrite <- app_assoc. f_equal. cbn [index_of_frames app]. f_equal.
      f_equal. rewrite length_app. lia.
Qed.

(** Pass 1 on a stream of valid frames: every frame is indexed, and the
    cursor lands on the end. *)
Lemma build_index_stream (fs : list frame) :
  Forall frame_valid fs ->
  Z.of_nat (length (stream_of native fs)) <= PY_SSIZE_T_MAX ->
  sumZ fst fs < 2 ^ 64 ->
  build_index native (S (length (stream_of native fs))) (stream_of native fs)
  = Some (PyOk (sumZ fst fs, index_of_frames 0 0 fs)).
Proof.
  intros Hfs Hlen Hsum.
  pose proof (index_loop_frames fs Hfs [] [] 0 [] 1) as E.
  cbv zeta in E. rewrite app_nil_r in E. simpl app in E. simpl length in E.
  rewrite !Z.add_0_l in E. specialize (E Hlen ltac:(lia) Hsum).
  rewrite index_loop_out in E
    by (unfold cursor, in_loop, HEADER_SIZE; cbn [fst]; lia).
  change (Z.of_nat 0) with 0 in E.
  unfold build_index.
  assert (Hfuel : (length fs + 1 <= S (length (stream_of native fs)))%nat).
  { pose proof (length_stream_of_ge fs). unfold HEADER_SIZE in *. lia. }
  rewrite (index_loop_mono native (stream_of native fs) _ _ _ _ Hfuel E).
  rewrite Z.eqb_refl. reflexivity.
Qed.

End Frames.

(** ** Writing the chunks of a buffer in any order

    The argument behind pass 2: chunks written at the running sum of the
    lengths of their predecessors fill disjoint regions, so after every chunk
    has been written, in whatever order, the buffer is their concatenation. *)

Section Tiling.

Context {A : Type}.
Implicit Types (cs : list (list A)) (out c : list A) (i j k : nat).

Lemma chunk_offset_S cs i c :
  cs !! i = Some c ->
  chunk_offset cs (S i) = (chunk_offset cs i + length c)%nat.
Proof.
  intros H. unfold chunk_offset. rewrite (take_S_r _ _ _ H), concat_app.
  rewrite length_app. simpl. rewrite app_nil_r. reflexivity.
Qed.

Lemma chunk_offset_le_S cs i :
  (chunk_offset cs i <= chunk_offset cs (S i))%nat.
Proof.
  destruct (cs !! i) as [c|] eqn:E.
  - rewrite (chunk_offset_S _ _ _ E). lia.
  - apply lookup_ge_None in E. unfold chunk_offset.
    rewrite !take_ge by lia. lia.
Qed.

Lemma chunk_offset_mono cs i k :
  (i <= k)%nat -> (chunk_offset cs i <= chunk_offset cs k)%nat.
Proof.
  induction 1 as [|k Hle IH]; [lia|].
  pose proof (chunk_offset_le_S cs k). lia.
Qed.

Lemma chunk_offset_end cs i c :
  cs !! i = Some c ->
  (chunk_offset cs i + length c <= length (concat cs))%nat.
Proof.
  intros H. rewrite <- (chunk_offset_S _ _ _ H).
  assert (E : concat cs = concat (take (S i) cs) ++ concat (drop (S i) cs)).
  { rewrite <- concat_app. now rewrite take_drop. }
  rewrite E, length_app. unfold chunk_offset. lia.
Qed.

Lemma lookup_concat_chunk cs k c j :
  cs !! k = Some c -> (j < length c)%nat ->
  concat cs !! (chunk_offset cs k + j)%nat = c !! j.
Proof.
  intros H Hj.
  assert (E : concat cs
              = concat (take k cs) ++ c ++ concat (drop (S k) cs)).
  { rewrite <- (take_drop_middle _ _ _ H) at 1. now rewrite concat_app. }
  rewrite E. unfold chunk_offset.
  rewrite lookup_app_r by lia.
  replace (length (concat (take k cs)) + j - length (concat (take k cs)))%nat
    with j by lia.
  now apply lookup_app_l.
Qed.

Lemma chunk_of_position cs j :
  (j < length (concat cs))%nat ->
  exists k c, cs !! k = Some c
    /\ (chunk_offset cs k <= j < chunk_offset cs k + length c)%nat.
Proof.
  revert j. induction cs as [|c0 cs IH]; intros j Hj; [simpl in Hj; lia|].
  simpl concat in Hj. rewrite length_app in Hj.
  destruct (Nat.lt_ge_cases j (length c0)) as [Hlt|Hge].
  - exists 0%nat, c0. split; [reflexivity|]. unfold chunk_offset. simpl. lia.
  - destruct (IH (j - length c0)%nat ltac:(lia)) as (k & c & Hk & Hr).
    exists (S k), c. split; [exact Hk|].
    unfold chunk_offset in *. simpl take. simpl concat.
    rewrite length_app. lia.
Qed.

Lemma length_write_chunk cs out i : length (write_chunk cs out i) = length out.
Proof.
  unfold write_chunk. destruct (cs !! i); [apply length_inserts|reflexivity].
Qed.

Lemma length_fold_write_chunk cs (order : list nat) out :
  length (fold_left (write_chunk cs) order out) = length out.
Proof.
  revert out. induction order as [|i order IH]; intros out; simpl;
    [reflexivity|]. now rewrite IH, length_write_chunk.
Qed.

(** Writing another chunk leaves the region of chunk [k] as it is. *)
Lemma write_chunk_other cs out i k c j :
  cs !! k = Some c -> i <> k ->
  (chunk_offset cs k <= j < chunk_offset cs k + length c)%nat ->
  write_chunk cs out i !! j = out !! j.
Proof.
  intros Hk Hne Hj. unfold write_chunk.
  destruct (cs !! i) as [ci|] eqn:Hi; [|reflexivity].
  destruct (Nat.lt_ge_cases i k) as [Hlt|Hgt].
  - apply list_lookup_inserts_ge.
    rewrite <- (chunk_offset_S _ _ _ Hi).
    pose proof (chunk_offset_mono cs (S i) k ltac:(lia)). lia.
  - apply list_lookup_inserts_lt.
    rewrite <- (chunk_offset_S _ _ _ Hk) in Hj.
    pose proof (chunk_offset_mono cs (S k) i ltac:(lia)). lia.
Qed.

Lemma write_chunk_same cs out k c j :
  cs !! k = Some c ->
  (chunk_offset cs k <= j < chunk_offset cs k + length c)%nat ->
  (chunk_offset cs k + length c <= length out)%nat ->
  write_chunk cs out k !! j = c !! (j - chunk_offset cs k)%nat.
Proof.
  intros Hk Hj Hout. unfold write_chunk. rewrite Hk.
  apply list_lookup_inserts; lia.
Qed.

Lemma fold_write_chunk_lookup cs (order : list nat) out k c j :
  length out = length (concat cs) ->
  cs !! k = Some c -> k ∈ order ->
  (chunk_offset cs k <= j < chunk_offset cs k + length c)%nat ->
  fold_left (write_chunk cs) order out !! j = c !! (j - chunk_offset cs k)%nat.
Proof.
  intros Hlen Hk Hin Hj. revert Hin.
  induction order as [|i order IH] using rev_ind; intros Hin.
  - inversion Hin.
  - rewrite fold_left_app. simpl.
    destruct (Nat.eq_dec i k) as [->|Hne].
    + apply write_chunk_same; trivial.
      rewrite length_fold_write_chunk, Hlen. now apply chunk_offset_end.
    + rewrite (write_chunk_other _ _ _ _ _ _ Hk Hne Hj). apply IH.
      apply elem_of_app in Hin as [Hin|Hin]; [exact Hin|].
      apply list_elem_of_singleton in Hin. congruence.
Qed.

Lemma tile_writes cs (order : list nat) out :
  length out = length (concat cs) ->
  (forall k, (k < length cs)%nat -> k ∈ order) ->
  fold_left (write_chunk cs) order out = concat cs.
Proof.
  intros Hlen Hall. apply list_eq. intros j.
  destruct (Nat.lt_ge_cases j (length (concat cs))) as [Hlt|Hge].
  - destruct (chunk_of_position cs j Hlt) as (k & c & Hk & Hj).
    rewrite (fold_write_chunk_lookup cs order out k c j); trivial.
    + replace j with (chunk_offset cs k + (j - chunk_offset cs k))%nat at 2
        by lia.
      symmetry. apply lookup_concat_chunk; [exact Hk|lia].
    + apply Hall. now apply lookup_lt_Some in Hk.
  - rewrite (proj2 (lookup_ge_None _ _))
      by (rewrite length_fold_write_chunk; lia).
    symmetry. now apply lookup_ge_None.
Qed.

End Tiling.

(** ** Pass 2: the block loop (lines 205-234) *)

Section Decoder.

Context {lz4 : LZ4}.
Variable in_data : list byte.

Lemma decode_block_run (block : BlockIndex.t) (out : list byte) :
  decode_block in_data block (out, false)
  = (memcpy out (BlockIndex.out_offset block) (block_output in_data block),
     block_fails in_data block).
Proof.
  unfold decode_block, block_output, block_fails.
  destruct (_ =? _); [reflexivity|].
  destruct (LZ4_decompress_safe _ _ _) as [ret written]. reflexivity.
Qed.

Lemma decode_blocks_cons (index : list BlockIndex.t) (i : nat)
  (order : list nat) (st : list byte * bool) :
  decode_blocks in_data index (i :: order) st
  = decode_blocks in_data index order
      (match index !! i with
       | Some block => decode_block in_data block st
       | None => st
       end).
Proof. reflexivity. Qed.

(** Once [error_flag] is set, the remaining iterations do nothing. *)
Lemma decode_blocks_set (index : list BlockIndex.t) (order : list nat)
  (out : list byte) :
  decode_blocks in_data index order (out, true) = (out, true).
Proof.
  induction order as [|i order IH]; [reflexivity|].
  rewrite decode_blocks_cons. destruct (index !! i); exact IH.
Qed.

(** A failing block sets [error_flag], wherever the schedule puts it. *)
Lemma decode_blocks_fail (index : list BlockIndex.t) (order : list nat)
  (i : nat) (block : BlockIndex.t) (st : list byte * bool) :
  index !! i = Some block -> block_fails in_data block = true -> i ∈ order ->
  snd (decode_blocks in_data index order st) = true.
Proof.
  intros Hi Hfail. revert st.
  induction order as [|j order IH]; intros [out flag] Hin; [inversion Hin|].
  destruct flag; [now rewrite decode_blocks_set|].
  rewrite decode_blocks_cons.
  apply elem_of_cons in Hin as [<-|Hin].
  - rewrite Hi, decode_block_run, Hfail. now rewrite decode_blocks_set.
  - now apply IH.
Qed.

(** With no failing block, the loop is its writes. *)
Lemma decode_blocks_ok (index : list BlockIndex.t) (order : list nat)
  (out : list byte) :
  (forall i block, i ∈ order -> index !! i = Some block ->
                   block_fails in_data block = false) ->
  decode_blocks in_data index order (out, false)
  = (fold_left (write_block in_data index) order out, false).
Proof.
  revert out. induction order as [|j order IH]; intros out Hok;
    [reflexivity|].
  rewrite decode_blocks_cons. cbn [fold_left]. unfold write_block at 2.
  destruct (index !! j) as [block|] eqn:Hj.
  - rewrite decode_block_run, (Hok j block); [|left|exact Hj].
    apply IH. intros i b Hin. apply Hok. now right.
  - apply IH. intros i b Hin. apply Hok. now right.
Qed.

(** The loop ends with [error_flag] set exactly when some block fails. *)
Lemma decode_blocks_flag (index : list BlockIndex.t) (order : list nat)
  (out : list byte) :
  snd (decode_blocks in_data index order (out, false)) = true
  <-> exists i block,
        i ∈ order /\ index !! i = Some block
        /\ block_fails in_data block = true.
Proof.
  split.
  - revert out. induction order as [|j order IH]; intros out H;
      [discriminate|].
    rewrite decode_blocks_cons in H.
    destruct (index !! j) as [block|] eqn:Hj.
    + rewrite decode_block_run in H.
      destruct (block_fails in_data block) eqn:Hf.
      * exists j, block. split; [left|]. split; trivial.
      * destruct (IH _ H) as (i & b & Hin & Hi & Hb).
        exists i, b. split; [now right|]. split; trivial.
    + destruct (IH _ H) as (i & b & Hin & Hi & Hb).
      exists i, b. split; [now right|]. split; trivial.
  - intros (i & block & Hin & Hi & Hf).
    now apply (decode_blocks_fail index order i block).
Qed.

End Decoder.

(** ** Decoding a stream of frames *)

Section DecodedStream.

Context {lz4 : LZ4}.
Variable native : byte_order.
Variable schedule : nat -> list nat.
Hypothesis schedule_perm : forall n, Permutation (schedule n) (seq 0 n).

Local Abbreviation frame := (Z * list byte)%type.

Lemma stream_of_app (fs1 fs2 : list frame) :
  stream_of native (fs1 ++ fs2) = stream_of native fs1 ++ stream_of native fs2.
Proof. unfold stream_of. now rewrite fmap_app, concat_app. Qed.

Lemma stream_of_middle (fs : list frame) (i : nat) (f : frame) :
  fs !! i = Some f ->
  stream_of native fs
  = stream_of native (take i fs)
    ++ frame_bytes native (fst f) (snd f)
    ++ stream_of native (drop (S i) fs).
Proof.
  intros H. rewrite <- (take_drop_middle _ _ _ H) at 1.
  now rewrite stream_of_app, stream_of_cons.
Qed.

Lemma index_of_frames_lookup (fs : list frame) (in_off out_off : Z) (i : nat)
  (f : frame) :
  fs !! i = Some f ->
  index_of_frames in_off out_off fs !! i
  = Some (BlockIndex.mk
            (in_off + Z.of_nat (length (stream_of native (take i fs)))
             + HEADER_SIZE)
            (out_off + sumZ fst (take i fs))
            (Z.of_nat (length (snd f))) (fst f)).
Proof.
  revert in_off out_off i. induction fs as [|f0 fs IH];
    intros in_off out_off i Hi; [discriminate|].
  destruct i as [|i].
  - inversion Hi; subst f0. simpl. unfold sumZ. simpl.
    do 3 f_equal; lia.
  - simpl in Hi. cbn [index_of_frames take]. rewrite lookup_cons.
    rewrite (IH _ _ _ Hi). rewrite stream_of_cons, length_app, sumZ_cons.
    pose proof (length_frame_bytes native (fst f0) (snd f0)).
    do 2 f_equal; lia.
Qed.

Lemma index_of_frames_lookup_None (fs : list frame) (in_off out_off : Z)
  (i : nat) :
  fs !! i = None -> index_of_frames in_off out_off fs !! i = None.
Proof.
  intros H. apply lookup_ge_None. rewrite length_index_of_frames.
  now apply lookup_ge_None.
Qed.

(** The payload of frame [i], seen from its index entry. *)
Lemma payload_at_entry (fs : list frame) (i : nat) (f : frame) (len : Z) :
  fs !! i = Some f -> len <= Z.of_nat (length (snd f)) ->
  slice (stream_of native fs)
        (0 + Z.of_nat (length (stream_of native (take i fs))) + HEADER_SIZE)
        len
  = take (Z.to_nat len) (snd f).
Proof.
  intros Hi Hlen. rewrite (stream_of_middle fs i f Hi). unfold frame_bytes.
  set (pre := stream_of native (take i fs)).
  set (post := stream_of native (drop (S i) fs)).
  unfold slice.
  replace (pre ++ (store32 native (fst f)
                   ++ store32 native (Z.of_nat (length (snd f))) ++ snd f)
               ++ post)
    with ((pre ++ store32 native (fst f)
               ++ store32 native (Z.of_nat (length (snd f))))
          ++ snd f ++ post)
    by (now rewrite <- !app_assoc).
  rewrite drop_app_length'.
  - rewrite take_app_le by lia. reflexivity.
  - rewrite !length_app, !length_store32. unfold HEADER_SIZE. lia.
Qed.

Section OneStream.

Variable fs : list frame.
Hypothesis frames_valid : Forall frame_valid fs.

Local Abbreviation in_data := (stream_of native fs).
Local Abbreviation index := (index_of_frames 0 0 fs).

Lemma entry_fails (i : nat) (f : frame) :
  fs !! i = Some f ->
  forall block, index !! i = Some block ->
    block_fails in_data block = frame_fails f.
Proof.
  intros Hi block Hb. rewrite (index_of_frames_lookup _ _ _ _ _ Hi) in Hb.
  inversion Hb; subst block; clear Hb.
  unfold block_fails, frame_fails. cbn [BlockIndex.in_offset
    BlockIndex.comp_size BlockIndex.orig_size].
  destruct (Z.le_gt_cases (int (Z.of_nat (length (snd f)))) 0) as [Hn|Hp].
  - unfold slice.
    replace (Z.to_nat (int (Z.of_nat (length (snd f))))) with 0%nat by lia.
    reflexivity.
  - rewrite (payload_at_entry fs i f _ Hi); [reflexivity|].
    apply int_of_nat_le. lia.
Qed.

Lemma entry_output (i : nat) (f : frame) :
  fs !! i = Some f ->
  forall block, index !! i = Some block ->
    block_output in_data block = frame_output f.
Proof.
  intros Hi block Hb. rewrite (index_of_frames_lookup _ _ _ _ _ Hi) in Hb.
  inversion Hb; subst block; clear Hb.
  unfold block_output, frame_output. cbn [BlockIndex.in_offset
    BlockIndex.comp_size BlockIndex.orig_size].
  destruct (Z.eqb_spec (Z.of_nat (length (snd f))) (fst f)) as [E|E].
  - rewrite (payload_at_entry fs i f _ Hi) by lia.
    apply take_ge. lia.
  - destruct (Z.le_gt_cases (int (Z.of_nat (length (snd f)))) 0) as [Hn|Hp].
    + unfold slice.
      replace (Z.to_nat (int (Z.of_nat (length (snd f))))) with 0%nat by lia.
      reflexivity.
    + rewrite (payload_at_entry fs i f _ Hi); [reflexivity|].
      apply int_of_nat_le. lia.
Qed.

(** Some frame fails: the decode raises, whatever the schedule. *)
Lemma decompress_stream_fails :
  Z.of_nat (length in_data) <= PY_SSIZE_T_MAX -> sumZ fst fs < 2 ^ 64 ->
  (exists f, f ∈ fs /\ frame_fails f = true) ->
  decompress_hybrid native schedule in_data = Some (PyRaise PyExc_RuntimeError).
Proof.
  intros Hlen Hsum (f & Hin & Hf).
  unfold decompress_hybrid. rewrite build_index_stream by trivial.
  apply list_elem_of_lookup in Hin as [i Hi].
  pose proof (index_of_frames_lookup fs 0 0 i f Hi) as Hb.
  set (block := BlockIndex.mk _ _ _ _) in Hb.
  assert (Hfail : block_fails in_data block = true)
    by (rewrite (entry_fails i f Hi block Hb); exact Hf).
  assert (Hsched : i ∈ schedule (length index)).
  { rewrite schedule_perm. apply elem_of_seq.
    rewrite length_index_of_frames. apply lookup_lt_Some in Hi. lia. }
  pose proof (decode_blocks_fail in_data index _ i block
                (replicate (Z.to_nat (sumZ fst fs)) Byte.x00, false)
                Hb Hfail Hsched) as Hflag.
  destruct (decode_blocks _ _ _ _) as [out flag]. simpl in Hflag.
  now rewrite Hflag.
Qed.

Hypothesis frames_decode :
  forall f, f ∈ fs ->
    frame_fails f = false /\ Z.of_nat (length (frame_output f)) = fst f.

Local Abbreviation chunks := (frame_output <$> fs).

Lemma chunk_offset_frames (i : nat) :
  Z.of_nat (chunk_offset chunks i) = sumZ fst (take i fs).
Proof.
  unfold chunk_offset. rewrite <- fmap_take.
  assert (Hsub : forall f, f ∈ take i fs -> f ∈ fs).
  { intros f Hf. apply list_elem_of_lookup in Hf as [j Hj].
    apply lookup_take_Some in Hj as [Hj _].
    now apply list_elem_of_lookup_2 in Hj. }
  induction (take i fs) as [|f l IH]; [reflexivity|].
  rewrite fmap_cons. simpl concat. rewrite length_app, Nat2Z.inj_add.
  rewrite sumZ_cons, IH.
  - destruct (frames_decode f) as [_ ->]; [|reflexivity].
    apply Hsub. left.
  - intros f' Hf'. apply Hsub. now right.
Qed.

Lemma length_concat_chunks :
  Z.of_nat (length (concat chunks)) = sumZ fst fs.
Proof.
  pose proof (chunk_offset_frames (length fs)) as H.
  unfold chunk_offset in H. rewrite !take_ge in H; trivial.
  now rewrite length_fmap.
Qed.

Lemma write_block_chunk (out : list byte) (i : nat) :
  write_block in_data index out i = write_chunk chunks out i.
Proof.
  unfold write_block, write_chunk. rewrite list_lookup_fmap.
  destruct (fs !! i) as [f|] eqn:Hi.
  - pose proof (index_of_frames_lookup fs 0 0 i f Hi) as Hb.
    rewrite Hb. simpl option_map. cbn [fmap option_fmap option_map].
    rewrite (entry_output i f Hi _ Hb). unfold memcpy.
    cbn [BlockIndex.out_offset]. f_equal.
    rewrite Z.add_0_l, <- chunk_offset_frames. apply Nat2Z.id.
  - rewrite (index_of_frames_lookup_None fs 0 0 i Hi). reflexivity.
Qed.

Lemma fold_write_block_chunk (order : list nat) (out : list byte) :
  fold_left (write_block in_data index) order out
  = fold_left (write_chunk chunks) order out.
Proof.
  revert out. induction order as [|i order IH]; intros out; [reflexivity|].
  cbn [fold_left]. now rewrite write_block_chunk, IH.
Qed.

(** Every frame decodes: the decode returns the outputs of the frames, in
    the order of the stream, whatever the schedule. *)
Lemma decompress_stream_ok :
  Z.of_nat (length in_data) <= PY_SSIZE_T_MAX -> sumZ fst fs < 2 ^ 64 ->
  decompress_hybrid native schedule in_data = Some (PyOk (concat chunks)).
Proof.
  intros Hlen Hsum.
  unfold decompress_hybrid. rewrite build_index_stream by trivial.
  rewrite decode_blocks_ok.
  - rewrite fold_write_block_chunk, tile_writes; [reflexivity| |].
    + rewrite length_replicate. apply Nat2Z.inj.
      rewrite length_concat_chunks. apply Z2Nat.id.
      rewrite <- length_concat_chunks. lia.
    + intros k Hk. rewrite schedule_perm. apply elem_of_seq.
      rewrite length_index_of_frames. rewrite length_fmap in Hk. lia.
  - intros i block _ Hb.
    destruct (fs !! i) as [f|] eqn:Hi.
    + rewrite (entry_fails i f Hi block Hb).
      apply frames_decode. now apply list_elem_of_lookup_2 in Hi.
    + rewrite (index_of_frames_lookup_None fs 0 0 i Hi) in Hb. discriminate.
Qed.

End OneStream.

End DecodedStream.

(** ** What pass 1 guarantees about the index *)

Section IndexInvariant.

Variable native : byte_order.
Variable in_data : list byte.
Hypothesis in_size_valid : Z.of_nat (length in_data) <= PY_SSIZE_T_MAX.

Local Abbreviation in_size := (Z.of_nat (length in_data)).
Local Abbreviation state := (Z * Z * list BlockIndex.t)%type.
Local Abbreviation reach := (index_reach native in_data).

Lemma index_end_app (a b : Z) (l1 l2 : list BlockIndex.t) :
  index_end a b (l1 ++ l2)
  = index_end (fst (index_end a b l1)) (snd (index_end a b l1)) l2.
Proof.
  revert a b. induction l1 as [|e l1 IH]; intros a b; [reflexivity|].
  simpl. apply IH.
Qed.

Lemma index_tiled_app (a b : Z) (l1 l2 : list BlockIndex.t) :
  index_tiled a b (l1 ++ l2)
  <-> index_tiled a b l1
      /\ index_tiled (fst (index_end a b l1)) (snd (index_end a b l1)) l2.
Proof.
  revert a b. induction l1 as [|e l1 IH]; intros a b; simpl; [tauto|].
  rewrite IH. tauto.
Qed.

Lemma index_tiled_adjacent (a b : Z) (index : list BlockIndex.t) (i : nat)
  (e e' : BlockIndex.t) :
  index_tiled a b index ->
  index !! i = Some e -> index !! S i = Some e' ->
  BlockIndex.in_offset e' - HEADER_SIZE
  = BlockIndex.in_offset e + BlockIndex.comp_size e
  /\ BlockIndex.out_offset e'
     = BlockIndex.out_offset e + BlockIndex.orig_size e.
Proof.
  revert a b i. induction index as [|e0 index IH]; intros a b i Ht Hi Hi';
    [discriminate|].
  destruct Ht as (_ & _ & Ht). destruct i as [|i].
  - inversion Hi; subst e0. destruct index as [|e1 index]; [discriminate|].
    inversion Hi'; subst e1. destruct Ht as (Hin & Hout & _). lia.
  - apply (IH _ _ i Ht Hi Hi').
Qed.

Lemma header_at_range (c : Z) :
  0 <= c -> in_loop in_data c ->
  0 <= fst (header_at native in_data c) < 2 ^ 32
  /\ 0 <= snd (header_at native in_data c) < 2 ^ 32.
Proof.
  intros Hc Hloop. unfold in_loop, HEADER_SIZE in Hloop.
  unfold header_at. simpl.
  split; apply load32_range; unfold slice;
    rewrite length_take, length_drop; lia.
Qed.

Lemma index_step_entry (st st' : state) :
  0 <= cursor st -> in_loop in_data (cursor st) ->
  index_step native in_data st = PyOk st' ->
  let h := header_at native in_data (cursor st) in
  st' = (size_t (cursor st + uint32_t (HEADER_SIZE + snd h)),
         size_t (snd (fst st) + fst h),
         snd st ++ [BlockIndex.mk (cursor st + HEADER_SIZE) (snd (fst st))
                                  (snd h) (fst h)])
  /\ header_accepted native in_data (cursor st).
Proof.
  intros Hc Hloop Hstep.
  pose proof (index_step_cursor native in_data in_size_valid st st'
                Hc Hloop Hstep) as (_ & _ & Hacc).
  pose proof (index_step_accepts native in_data in_size_valid st
                Hc Hloop Hacc) as E.
  cbv zeta. destruct (header_at native in_data (cursor st)) as [o s].
  rewrite E in Hstep. inversion Hstep. split; [reflexivity|exact Hacc].
Qed.

(** Every recorded entry passed the check. *)
Lemma index_reach_checked (st : state) :
  reach st -> Forall (entry_checked in_data) (snd st).
Proof.
  induction 1 as [|st st' Hreach IH Hloop Hstep]; [constructor|].
  pose proof (index_reach_cursor native in_data in_size_valid st Hreach) as Hc.
  destruct (index_step_entry st st' ltac:(lia) Hloop Hstep) as [-> Hacc].
  pose proof (header_at_range (cursor st) ltac:(lia) Hloop) as [Ho Hs].
  unfold header_accepted in Hacc.
  destruct (header_at native in_data (cursor st)) as [o s].
  cbn [fst snd] in *. apply Forall_app. split; [exact IH|].
  constructor; [|constructor].
  unfold entry_checked. cbn. unfold in_loop, HEADER_SIZE in *. lia.
Qed.

(** The states of a pass that returns an index. *)
Lemma index_loop_reach (fuel : nat) (st st' : state) :
  reach st -> index_loop native fuel in_data st = Some (PyOk st') ->
  reach st' /\ ~ in_loop in_data (cursor st').
Proof.
  revert st. induction fuel as [|fuel IH]; intros st Hreach H;
    [discriminate|].
  pose proof (index_reach_cursor native in_data in_size_valid st Hreach) as Hc.
  destruct (Z_le_dec (cursor st + HEADER_SIZE) in_size) as [Hloop|Hout].
  - rewrite index_loop_in in H by (trivial; lia).
    destruct (index_step native in_data st) as [st1|e] eqn:E; [|discriminate].
    apply (IH st1); [|exact H]. now apply (reach_next _ _ st).
  - rewrite index_loop_out in H by trivial. inversion H; subst st'.
    split; trivial.
Qed.

Lemma build_index_reach (fuel : nat) (total : Z) (index : list BlockIndex.t) :
  build_index native fuel in_data = Some (PyOk (total, index)) ->
  reach (in_size, total, index).
Proof.
  unfold build_index. intros H.
  destruct (index_loop native fuel in_data (0, 0, [])) as [[[[c t] idx]|e]|]
    eqn:E; try discriminate.
  destruct (Z.eqb_spec c in_size) as [->|Hne]; [|discriminate].
  simpl in H. inversion H; subst t idx.
  apply (index_loop_reach fuel (0, 0, [])); [constructor|exact E].
Qed.

Lemma build_index_checked (fuel : nat) (total : Z)
  (index : list BlockIndex.t) :
  build_index native fuel in_data = Some (PyOk (total, index)) ->
  Forall (entry_checked in_data) index.
Proof.
  intros H. apply build_index_reach in H.
  now apply index_reach_checked in H.
Qed.

(** Below 4 GiB no 32-bit sum wraps, and the entries tile the input and
    the output. *)
Lemma index_reach_tiled (st : state) :
  in_size < 2 ^ 32 -> reach st ->
  index_tiled 0 0 (snd st)
  /\ index_end 0 0 (snd st) = (cursor st, snd (fst st))
  /\ 0 <= snd (fst st) <= MAX_BLOCK_SIZE * cursor st.
Proof.
  intros Hsmall.
  induction 1 as [|st st' Hreach (IHt & IHe & IHb) Hloop Hstep].
  - unfold cursor. simpl. unfold MAX_BLOCK_SIZE. repeat split; lia.
  - pose proof (index_reach_cursor native in_data in_size_valid st Hreach)
      as Hc.
    destruct (index_step_entry st st' ltac:(lia) Hloop Hstep) as [-> Hacc].
    pose proof (header_at_range (cursor st) ltac:(lia) Hloop) as [Ho Hs].
    unfold header_accepted in Hacc.
    destruct (header_at native in_data (cursor st)) as [o s].
    destruct st as [[c t] idx]. unfold cursor in *. cbn [fst snd] in *.
    unfold in_loop, HEADER_SIZE in *.
    assert (Hb : MAX_BLOCK_SIZE * c <= MAX_BLOCK_SIZE * 2 ^ 32)
      by (apply Z.mul_le_mono_nonneg_l; unfold MAX_BLOCK_SIZE; lia).
    rewrite uint32_t_small by lia.
    rewrite !size_t_small
      by (unfold MAX_BLOCK_SIZE, PY_SSIZE_T_MAX in *; lia).
    split; [|split].
    + apply index_tiled_app. split; [exact IHt|]. rewrite IHe. cbn.
      unfold HEADER_SIZE. tauto.
    + rewrite index_end_app, IHe. cbn. f_equal; lia.
    + unfold MAX_BLOCK_SIZE in *. nia.
Qed.

End IndexInvariant.

(** ** The run-length codec meets the contract *)

Lemma run_length_unpack_pack (l : list byte) :
  RunLength.unpack (RunLength.pack l) = Some l.
Proof.
  induction l as [|b t IH]; [reflexivity|].
  cbn [RunLength.pack]. destruct (RunLength.pack t) as [|k [|b' r]] eqn:E.
  - simpl in IH. inversion IH. reflexivity.
  - discriminate.
  - cbn [RunLength.unpack] in IH.
    destruct (RunLength.unpack r) as [d|] eqn:Er; [|discriminate].
    inversion IH as [Ht]. clear IH.
    destruct (Byte.eqb b b' && (byte.unsigned k <? 255)) eqn:Hc.
    + apply andb_true_iff in Hc as [Hb Hk].
      apply Byte.byte_dec_bl in Hb. subst b'. apply Z.ltb_lt in Hk.
      cbn [RunLength.unpack]. rewrite Er.
      rewrite byte.unsigned_of_Z. unfold byte.wrap.
      pose proof (byte.unsigned_range k).
      rewrite Z.mod_small by lia.
      rewrite Z2Nat.inj_add by lia. rewrite Nat.add_comm. reflexivity.
    + cbn [RunLength.unpack]. rewrite Er. reflexivity.
Qed.

Lemma run_length_contract : LZ4_contract RunLength.codec.
Proof.
  split.
  - intros src cap. cbn. unfold RunLength.compress.
    destruct (Z.leb_spec (Z.of_nat (length (RunLength.pack src))) cap);
      simpl; lia.
  - intros src cap _. cbn. unfold RunLength.compress.
    destruct (Z.leb_spec (Z.of_nat (length (RunLength.pack src))) cap);
      [|simpl; lia].
    intros _. unfold RunLength.decompress. rewrite Z.eqb_refl. simpl negb.
    cbv iota. rewrite run_length_unpack_pack, Z.leb_refl. reflexivity.
Qed.

Lemma in_order_perm (n : nat) : Permutation (in_order n) (seq 0 n).
Proof. reflexivity. Qed.

Lemma backwards_perm (n : nat) : Permutation (backwards n) (seq 0 n).
Proof. unfold backwards. symmetry. apply Permutation_rev. Qed.

(** ** Decoding what the encoder wrote *)

Section RoundTrip.

Context {lz4 : LZ4} {lz4_ok : LZ4_contract lz4}.
Variable native : byte_order.
Variable in_data : list byte.
Variable block_size : Z.
Hypothesis block_size_valid : 0 < block_size <= MAX_BLOCK_SIZE.
Hypothesis in_size_valid : Z.of_nat (length in_data) <= PY_SSIZE_T_MAX.

Local Abbreviation in_size := (Z.of_nat (length in_data)).
Local Abbreviation num_blocks := (num_blocks_of in_size block_size).
Local Abbreviation results := (block_results in_data block_size).

Lemma stream_of_results :
  stream_of native (frame_of_result <$> results)
  = concat (frame_of native <$> results).
Proof.
  unfold stream_of. rewrite <- list_fmap_compose. reflexivity.
Qed.

Lemma elem_of_results (r : BlockResult.t) :
  r ∈ results ->
  exists i, 0 <= i < num_blocks /\ r = compress_block in_data block_size i.
Proof.
  intros Hr. apply list_elem_of_lookup in Hr as [i Hi].
  apply lookup_block_results in Hi as [Hlt ->].
  exists (Z.of_nat i). split; [lia|reflexivity].
Qed.

Lemma frame_of_result_valid (r : BlockResult.t) :
  r ∈ results -> frame_valid (frame_of_result r).
Proof.
  intros Hr. apply elem_of_results in Hr as (i & Hi & ->).
  destruct (compress_block_sizes in_data block_size block_size_valid
              in_size_valid i Hi) as (Hc & Ho & Hl).
  unfold frame_valid, frame_of_result. cbn [fst snd].
  unfold MAX_BLOCK_SIZE, HEADER_SIZE in *. lia.
Qed.

(** Pass 2 gives back the bytes of the block, compressed or not. *)
Lemma frame_of_result_decodes (r : BlockResult.t) :
  r ∈ results ->
  frame_fails (frame_of_result r) = false
  /\ frame_output (frame_of_result r) = block_data in_data r.
Proof.
  intros Hr. apply elem_of_results in Hr as (i & Hi & ->).
  pose proof (block_length_range in_size block_size block_size_valid
                (in_size_range in_data in_size_valid) i Hi) as [Hlen Hend].
  destruct (compress_block_fields in_data block_size block_size_valid
              in_size_valid i Hi) as (Hoff & Hor & Hcase).
  set (r := compress_block in_data block_size i) in *.
  assert (Hblk : Z.of_nat (length (block_data in_data r))
                 = BlockResult.orig_size r).
  { unfold block_data. rewrite Hoff, Hor. apply length_slice; lia. }
  unfold frame_fails, frame_output, frame_of_result. cbn [fst snd].
  destruct Hcase as [(Hret & Hcs & Hbuf) | (Hret & Hcs & Hbuf)].
  - unfold lz4_returned in *.
    assert (Hio : int (BlockResult.orig_size r) = BlockResult.orig_size r)
      by (apply int_small; unfold MAX_BLOCK_SIZE in *; lia).
    pose proof (LZ4_compress_fits
                  (slice in_data (BlockResult.offset_in r)
                         (int (BlockResult.orig_size r)))
                  (int (size_t (LZ4_compressBound
                                  (int (BlockResult.orig_size r))))))
      as Hfits.
    pose proof (LZ4_round_trip
                  (slice in_data (BlockResult.offset_in r)
                         (int (BlockResult.orig_size r)))
                  (int (size_t (LZ4_compressBound
                                  (int (BlockResult.orig_size r))))))
      as Hrt.
    rewrite Hio in Hrt at 1. fold (block_data in_data r) in Hrt.
    rewrite Hblk in Hrt.
    specialize (Hrt ltac:(unfold MAX_BLOCK_SIZE, LZ4_MAX_INPUT_SIZE in *; lia)).
    cbv zeta in Hrt.
    fold (lz4_written in_data r) in Hfits, Hrt.
    rewrite Hio in Hrt. fold (block_data in_data r) in Hrt.
    rewrite Hblk in Hrt.
    set (w := lz4_written in_data r) in *.
    pose proof (int_range
                  (size_t (LZ4_compressBound
                             (int (BlockResult.orig_size r))))).
    rewrite int_small in Hret, Hcs, Hbuf by lia.
    rewrite take_ge in Hbuf by lia.
    rewrite Hbuf.
    rewrite (int_small (Z.of_nat (length w))) by lia.
    rewrite Hio.
    rewrite take_ge by lia.
    rewrite (Hrt ltac:(lia)). cbn [fst snd].
    destruct (Z.eqb_spec (Z.of_nat (length w)) (BlockResult.orig_size r));
      [lia|].
    rewrite Z.eqb_refl. split; reflexivity.
  - assert (Hl : Z.of_nat (length (BlockResult.comp_buf r))
                 = BlockResult.orig_size r) by (rewrite Hbuf; exact Hblk).
    rewrite Hl, Z.eqb_refl. split; [reflexivity|exact Hbuf].
Qed.

Hypothesis encoded_size_valid :
  in_size + num_blocks * HEADER_SIZE <= PY_SSIZE_T_MAX.

Variable schedule : nat -> list nat.
Hypothesis schedule_perm : forall n, Permutation (schedule n) (seq 0 n).

Lemma decompress_compressed :
  decompress_hybrid native schedule (concat (frame_of native <$> results))
  = Some (PyOk in_data).
Proof.
  rewrite <- stream_of_results.
  assert (Hout : frame_output <$> (frame_of_result <$> results)
                 = block_data in_data <$> results).
  { rewrite <- list_fmap_compose. apply list_fmap_ext.
    intros i r Hr. apply list_elem_of_lookup_2 in Hr.
    now destruct (frame_of_result_decodes r Hr). }
  assert (Hsum : sumZ fst (frame_of_result <$> results) = in_size).
  { rewrite sumZ_fmap.
    apply (sum_orig_block_results in_data block_size block_size_valid
             in_size_valid). }
  rewrite (decompress_stream_ok native schedule schedule_perm
             (frame_of_result <$> results)).
  - rewrite Hout.
    now rewrite (concat_block_data in_data block_size block_size_valid
                   in_size_valid).
  - apply Forall_forall. intros f Hf.
    apply list_elem_of_fmap in Hf as (r & -> & Hr).
    now apply frame_of_result_valid.
  - intros f Hf. apply list_elem_of_fmap in Hf as (r & -> & Hr).
    destruct (frame_of_result_decodes r Hr) as [Hfail Hdata].
    split; [exact Hfail|]. rewrite Hdata.
    apply elem_of_results in Hr as (i & Hi & ->).
    destruct (compress_block_fields in_data block_size block_size_valid
                in_size_valid i Hi) as (Hoff & Hor & _).
    pose proof (block_length_range in_size block_size block_size_valid
                  (in_size_range in_data in_size_valid) i Hi) as [Hlen Hend].
    unfold frame_of_result, block_data. cbn [fst].
    rewrite Hoff, Hor. apply length_slice; lia.
  - rewrite stream_of_results.
    pose proof (sum_stored_le in_data block_size block_size_valid
                  in_size_valid) as Hle.
    rewrite length_concat_frames
      by apply (block_results_ok in_data block_size block_size_valid
                  in_size_valid).
    lia.
  - rewrite Hsum. unfold PY_SSIZE_T_MAX in *. lia.
Qed.

End RoundTrip.

(** * The properties of the specification *)

(** ** Encoder *)

(** C8: [compress_hybrid] raises the configuration error ([ValueError]) and
    returns no data exactly when [block_size] is zero or greater than
    [MAX_BLOCK_SIZE]; with [block_size] in [(0, MAX_BLOCK_SIZE]] the
    validation passes and the call returns data. [block_size] ranges over
    the values of the C variable, a [size_t]. *)
Theorem block_size_validation {lz4 : LZ4} (native : byte_order)
  (in_data : list byte) (block_size : Z) :
  0 <= block_size < 2 ^ 64 ->
  (compress_hybrid native in_data block_size = PyRaise PyExc_ValueError
   <-> block_size = 0 \/ MAX_BLOCK_SIZE < block_size)
  /\ (0 < block_size <= MAX_BLOCK_SIZE
      <-> exists out, compress_hybrid native in_data block_size = PyOk out)
  /\ (forall e, compress_hybrid native in_data block_size = PyRaise e ->
                e = PyExc_ValueError).
Proof.
  intros Hrange. unfold compress_hybrid.
  destruct (Z.ltb_spec MAX_BLOCK_SIZE block_size) as [Hbig|Hle].
  - split; [|split].
    + split; [right; exact Hbig|reflexivity].
    + split; [lia|]. intros [out H]. discriminate.
    + intros e H. now inversion H.
  - destruct (Z.eqb_spec block_size 0) as [Hz|Hnz].
    + split; [|split].
      * split; [left; exact Hz|reflexivity].
      * split; [lia|]. intros [out H]. discriminate.
      * intros e H. now inversion H.
    + split; [|split].
      * split; [discriminate|lia].
      * split; [eauto|lia].
      * intros e H. discriminate.
Qed.

Lemma block_size_validation_witness :
  (compress_hybrid (lz4 := RunLength.codec) little_endian [Byte.x41] 0
   = PyRaise PyExc_ValueError
   <-> 0 = 0 \/ MAX_BLOCK_SIZE < 0)
  /\ (0 < MAX_BLOCK_SIZE + 1 <= MAX_BLOCK_SIZE
      <-> exists out,
            compress_hybrid (lz4 := RunLength.codec) little_endian [Byte.x41]
                            (MAX_BLOCK_SIZE + 1) = PyOk out)
  /\ (0 < 4 <= MAX_BLOCK_SIZE
      <-> exists out,
            compress_hybrid (lz4 := RunLength.codec) big_endian
                            [Byte.x41; Byte.x42] 4 = PyOk out).
Proof.
  split; [|split].
  - apply (block_size_validation (lz4 := RunLength.codec) little_endian
             [Byte.x41] 0). vm_compute. split; [discriminate|reflexivity].
  - apply (block_size_validation (lz4 := RunLength.codec) little_endian
             [Byte.x41] (MAX_BLOCK_SIZE + 1)).
    vm_compute. split; [discriminate|reflexivity].
  - apply (block_size_validation (lz4 := RunLength.codec) big_endian
             [Byte.x41; Byte.x42] 4).
    vm_compute. split; [discriminate|reflexivity].
Defined.

(** C7: the partitioner produces [ceil (N / block_size)] blocks; block [i]
    covers [[i * block_size, min ((i + 1) * block_size) N)], so every block
    but the last has length [block_size], the last is not empty and may be
    shorter, and an empty input has no block. *)
Theorem partition_blocks {lz4 : LZ4} (in_data : list byte) (block_size : Z) :
  0 < block_size <= MAX_BLOCK_SIZE ->
  Z.of_nat (length in_data) <= PY_SSIZE_T_MAX ->
  let N := Z.of_nat (length in_data) in
  let num_blocks := num_blocks_of N block_size in
  (0 <= num_blocks
   /\ (num_blocks - 1) * block_size < N <= num_blocks * block_size)
  /\ Z.of_nat (length (block_results in_data block_size)) = num_blocks
  /\ (forall (i : nat) (r : BlockResult.t),
        block_results in_data block_size !! i = Some r ->
        BlockResult.offset_in r = Z.of_nat i * block_size
        /\ BlockResult.offset_in r + BlockResult.orig_size r
           = Z.min ((Z.of_nat i + 1) * block_size) N
        /\ 0 < BlockResult.orig_size r <= block_size
        /\ (Z.of_nat i + 1 < num_blocks ->
            BlockResult.orig_size r = block_size))
  /\ (N = 0 -> num_blocks = 0).
Proof.
  intros Hbs Hn N num_blocks.
  pose proof (num_blocks_of_ceil N block_size Hbs ltac:(subst N; lia)) as Hceil.
  cbv zeta in Hceil. fold num_blocks in Hceil.
  split; [exact Hceil|]. split; [|split].
  - rewrite length_block_results. fold N num_blocks. lia.
  - intros i r Hi. apply lookup_block_results in Hi as [Hlt ->].
    fold N num_blocks in Hlt.
    destruct (compress_block_fields in_data block_size Hbs Hn (Z.of_nat i)
                ltac:(fold N num_blocks; lia)) as (Ho & Hl & _).
    rewrite Ho, Hl. fold N.
    pose proof (block_length_range N block_size Hbs ltac:(subst N; lia)
                  (Z.of_nat i) ltac:(fold num_blocks; lia)) as [Hr _].
    rewrite (block_length_min N block_size Hbs ltac:(subst N; lia)
               (Z.of_nat i) ltac:(fold num_blocks; lia)) in *.
    split; [reflexivity|]. split; [lia|]. split; [exact Hr|].
    intros Hfull.
    rewrite <- (block_length_min N block_size Hbs ltac:(subst N; lia)
                  (Z.of_nat i) ltac:(fold num_blocks; lia)).
    apply block_length_full; trivial; subst N; lia.
  - intros HN. nia.
Qed.

Lemma partition_blocks_witness :
  (0 <= 3 /\ (3 - 1) * 4 < 10 <= 3 * 4)
  /\ (forall (i : nat) (r : BlockResult.t),
        block_results (lz4 := RunLength.codec) (replicate 10 Byte.x41) 4 !! i
        = Some r ->
        BlockResult.offset_in r = Z.of_nat i * 4
        /\ BlockResult.offset_in r + BlockResult.orig_size r
           = Z.min ((Z.of_nat i + 1) * 4) 10
        /\ 0 < BlockResult.orig_size r <= 4
        /\ (Z.of_nat i + 1 < 3 -> BlockResult.orig_size r = 4)).
Proof.
  pose proof (partition_blocks (lz4 := RunLength.codec)
                (replicate 10 Byte.x41) 4
                ltac:(vm_compute; split; [reflexivity|discriminate])
                ltac:(vm_compute; discriminate)) as H.
  cbv zeta in H.
  change (num_blocks_of (Z.of_nat (length (replicate 10 Byte.x41))) 4)
    with 3 in H.
  change (Z.of_nat (length (replicate 10 Byte.x41))) with 10 in H.
  destruct H as (Hceil & _ & Hblocks & _). split; [exact Hceil|exact Hblocks].
Defined.

(** C2: for every block the encoder emits, the stored size is at most the
    original size. What LZ4 wrote is kept exactly when the size it returned
    is positive and strictly less than the original size; otherwise the
    payload is a copy of the block and the stored size is the original size.
    So the two sizes are equal exactly when the payload is the copy. *)
Theorem fallback_stored_size {lz4 : LZ4} (in_data : list byte)
  (block_size : Z) (i : nat) (r : BlockResult.t) :
  0 < block_size <= MAX_BLOCK_SIZE ->
  Z.of_nat (length in_data) <= PY_SSIZE_T_MAX ->
  block_results in_data block_size !! i = Some r ->
  let returned := lz4_returned in_data r in
  BlockResult.comp_size r <= BlockResult.orig_size r
  /\ Z.of_nat (length (BlockResult.comp_buf r)) = BlockResult.comp_size r
  /\ (0 < returned < BlockResult.orig_size r ->
      BlockResult.comp_size r = returned
      /\ BlockResult.comp_buf r
         = take (Z.to_nat returned) (lz4_written in_data r))
  /\ (BlockResult.comp_size r < BlockResult.orig_size r ->
      0 < returned < BlockResult.orig_size r)
  /\ (~ 0 < returned < BlockResult.orig_size r ->
      BlockResult.comp_size r = BlockResult.orig_size r
      /\ BlockResult.comp_buf r = block_data in_data r)
  /\ (BlockResult.comp_size r = BlockResult.orig_size r
      <-> BlockResult.comp_buf r = block_data in_data r).
Proof.
  intros Hbs Hn Hi returned.
  apply lookup_block_results in Hi as [Hlt ->].
  assert (Hi : 0 <= Z.of_nat i
                 < num_blocks_of (Z.of_nat (length in_data)) block_size)
    by lia.
  destruct (compress_block_sizes in_data block_size Hbs Hn _ Hi)
    as (Hc & Ho & Hl).
  destruct (compress_block_fields in_data block_size Hbs Hn _ Hi)
    as (Hoff & Hor & Hcase).
  pose proof (block_length_range _ block_size Hbs
                (in_size_range in_data Hn) _ Hi) as [Hlen Hend].
  set (r := compress_block in_data block_size (Z.of_nat i)) in *.
  assert (Hblk : Z.of_nat (length (block_data in_data r))
                 = BlockResult.orig_size r).
  { unfold block_data. rewrite Hoff, Hor. apply length_slice; lia. }
  fold returned in Hcase. unfold block_data in *.
  split; [lia|]. split; [exact Hl|].
  destruct Hcase as [(Hret & Hcs & Hbuf) | (Hret & Hcs & Hbuf)].
  - split; [intros _; split; assumption|]. split; [intros _; exact Hret|].
    split; [intros Hn'; contradiction|].
    split; [lia|]. intros E. rewrite E in Hl. lia.
  - split; [intros Hr; contradiction|]. split; [lia|].
    split; [intros _; split; assumption|].
    split; [intros _; exact Hbuf|intros _; exact Hcs].
Qed.

Lemma fallback_stored_size_witness :
  (* block 0 of ten equal bytes shrinks to one run; block 2 does not shrink *)
  (BlockResult.comp_size
     (compress_block (lz4 := RunLength.codec) (replicate 10 Byte.x41) 4 0)
   < BlockResult.orig_size
       (compress_block (lz4 := RunLength.codec) (replicate 10 Byte.x41) 4 0)
   -> 0 < 2 < 4)
  /\ (BlockResult.comp_size
        (compress_block (lz4 := RunLength.codec) (replicate 10 Byte.x41) 4 2)
      = BlockResult.orig_size
          (compress_block (lz4 := RunLength.codec) (replicate 10 Byte.x41) 4 2)
      <-> BlockResult.comp_buf
            (compress_block (lz4 := RunLength.codec)
                            (replicate 10 Byte.x41) 4 2)
          = [Byte.x41; Byte.x41]).
Proof.
  split.
  - apply (fallback_stored_size (lz4 := RunLength.codec)
             (replicate 10 Byte.x41) 4 0 _
             ltac:(vm_compute; split; [reflexivity|discriminate])
             ltac:(vm_compute; discriminate) eq_refl).
  - apply (fallback_stored_size (lz4 := RunLength.codec)
             (replicate 10 Byte.x41) 4 2 _
             ltac:(vm_compute; split; [reflexivity|discriminate])
             ltac:(vm_compute; discriminate) eq_refl).
Defined.

(** C6: the length of the encoded output is the sum over the blocks of
    [stored_size + 8], and is at most [N + num_blocks * 8], where
    [num_blocks] is [ceil (N / block_size)]. *)
Theorem encoded_length {lz4 : LZ4} (native : byte_order)
  (in_data : list byte) (block_size : Z) (out : list byte) :
  0 < block_size <= MAX_BLOCK_SIZE ->
  let N := Z.of_nat (length in_data) in
  let num_blocks := num_blocks_of N block_size in
  N + num_blocks * HEADER_SIZE <= PY_SSIZE_T_MAX ->
  compress_hybrid native in_data block_size = PyOk out ->
  Z.of_nat (length out)
  = sumZ (fun r => BlockResult.comp_size r + HEADER_SIZE)
         (block_results in_data block_size)
  /\ Z.of_nat (length out) <= N + num_blocks * HEADER_SIZE
  /\ (num_blocks - 1) * block_size < N <= num_blocks * block_size.
Proof.
  intros Hbs N num_blocks Hsize Hout.
  assert (Hnb : 0 <= num_blocks).
  { unfold num_blocks, num_blocks_of. apply Z.div_pos; [|lia].
    apply size_t_range. }
  assert (Hn : N <= PY_SSIZE_T_MAX) by (unfold HEADER_SIZE in *; lia).
  pose proof (num_blocks_of_ceil N block_size Hbs ltac:(subst N; lia)) as Hceil.
  cbv zeta in Hceil. fold num_blocks in Hceil.
  rewrite (compress_hybrid_frames native in_data block_size Hbs Hn Hsize)
    in Hout.
  inversion Hout; subst out; clear Hout.
  rewrite length_concat_frames by now apply block_results_ok.
  split; [reflexivity|]. split; [|lia].
  now apply sum_stored_le.
Qed.

Lemma encoded_length_witness :
  Z.of_nat (length
    [Byte.x04; Byte.x00; Byte.x00; Byte.x00; Byte.x02; Byte.x00;
     Byte.x00; Byte.x00; Byte.x04; Byte.x41; Byte.x04; Byte.x00;
     Byte.x00; Byte.x00; Byte.x02; Byte.x00; Byte.x00; Byte.x00;
     Byte.x04; Byte.x41; Byte.x02; Byte.x00; Byte.x00; Byte.x00;
     Byte.x02; Byte.x00; Byte.x00; Byte.x00; Byte.x41; Byte.x41])
  <= 10 + 3 * HEADER_SIZE.
Proof.
  apply (encoded_length (lz4 := RunLength.codec) little_endian
           (replicate 10 Byte.x41) 4 _
           ltac:(vm_compute; split; [reflexivity|discriminate])
           ltac:(vm_compute; discriminate) eq_refl).
Defined.

(** ** Encoder and decoder together *)

(** The header of frame [i] of a stream, byte by byte. *)
Lemma header_bytes_of_frame (native : byte_order)
  (fs : list (Z * list byte)) (i : nat) (f : Z * list byte) :
  fs !! i = Some f ->
  let header := Z.of_nat (length (stream_of native (take i fs))) in
  slice (stream_of native fs) header 4 = store32 native (fst f)
  /\ slice (stream_of native fs) (header + 4) 4
     = store32 native (Z.of_nat (length (snd f))).
Proof.
  intros Hi header. rewrite (stream_of_middle native fs i f Hi).
  unfold frame_bytes. fold (stream_of native (take i fs)).
  set (pre := stream_of native (take i fs)) in *.
  set (post := stream_of native (drop (S i) fs)).
  split.
  - rewrite <- !app_assoc.
    apply slice_app_at; [reflexivity|now rewrite length_store32].
  - rewrite <- !app_assoc. rewrite (app_assoc pre).
    apply slice_app_at; [|now rewrite length_store32].
    subst header. rewrite length_app, length_store32. lia.
Qed.

(** C10: a frame header is two 32-bit unsigned integers in the byte order of
    the host, [original_size] in bytes 0-3 and [stored_size] in bytes 4-7;
    pass 1 of the decoder reads them with the same layout, so the index it
    builds from the encoder's output has, frame by frame, the sizes the
    encoder wrote. *)
Theorem header_fields_recovered {lz4 : LZ4} (native : byte_order)
  (in_data : list byte) (block_size : Z) :
  0 < block_size <= MAX_BLOCK_SIZE ->
  Z.of_nat (length in_data)
  + num_blocks_of (Z.of_nat (length in_data)) block_size * HEADER_SIZE
  <= PY_SSIZE_T_MAX ->
  exists (encoded : list byte) (total : Z) (index : list BlockIndex.t),
    compress_hybrid native in_data block_size = PyOk encoded
    /\ build_index native (S (length encoded)) encoded
       = Some (PyOk (total, index))
    /\ length index = length (block_results in_data block_size)
    /\ forall (i : nat) (r : BlockResult.t),
         block_results in_data block_size !! i = Some r ->
         exists e,
           index !! i = Some e
           /\ let header := BlockIndex.in_offset e - HEADER_SIZE in
              slice encoded header 4
              = store32 native (BlockResult.orig_size r)
              /\ slice encoded (header + 4) 4
                 = store32 native (BlockResult.comp_size r)
              /\ load32 native (slice encoded header 4)
                 = BlockResult.orig_size r
              /\ load32 native (slice encoded (header + 4) 4)
                 = BlockResult.comp_size r
              /\ BlockIndex.orig_size e = BlockResult.orig_size r
              /\ BlockIndex.comp_size e = BlockResult.comp_size r.
Proof.
  intros Hbs Hsize.
  assert (Hnb : 0 <= num_blocks_of (Z.of_nat (length in_data)) block_size).
  { unfold num_blocks_of. apply Z.div_pos; [|lia]. apply size_t_range. }
  assert (Hn : Z.of_nat (length in_data) <= PY_SSIZE_T_MAX)
    by (unfold HEADER_SIZE in *; lia).
  set (results := block_results in_data block_size).
  set (fs := frame_of_result <$> results).
  assert (Hvalid : Forall frame_valid fs).
  { apply Forall_forall. intros f Hf.
    apply list_elem_of_fmap in Hf as (r & -> & Hr).
    now apply (frame_of_result_valid in_data block_size). }
  assert (Hok : Forall result_ok results) by now apply block_results_ok.
  assert (Hstream : stream_of native fs = concat (frame_of native <$> results))
    by apply stream_of_results.
  assert (Hlen : Z.of_nat (length (stream_of native fs)) <= PY_SSIZE_T_MAX).
  { rewrite Hstream, length_concat_frames by exact Hok.
    pose proof (sum_stored_le in_data block_size Hbs Hn). fold results in H.
    lia. }
  assert (Hsum : sumZ fst fs = Z.of_nat (length in_data)).
  { unfold fs. rewrite sumZ_fmap. now apply sum_orig_block_results. }
  exists (stream_of native fs), (sumZ fst fs), (index_of_frames 0 0 fs).
  split; [|split; [|split]].
  - rewrite Hstream. now apply compress_hybrid_frames.
  - apply build_index_stream; trivial.
    rewrite Hsum. unfold PY_SSIZE_T_MAX in Hn. lia.
  - rewrite length_index_of_frames. unfold fs. apply length_fmap.
  - intros i r Hi.
    assert (Hf : fs !! i = Some (frame_of_result r))
      by (unfold fs; rewrite list_lookup_fmap, Hi; reflexivity).
    eexists. split; [apply (index_of_frames_lookup native fs 0 0 i _ Hf)|].
    cbn [BlockIndex.in_offset BlockIndex.orig_size BlockIndex.comp_size].
    destruct (header_bytes_of_frame native fs i _ Hf) as [H1 H2].
    cbv zeta in H1, H2 |- *.
    replace (0 + Z.of_nat (length (stream_of native (take i fs)))
             + HEADER_SIZE - HEADER_SIZE)
      with (Z.of_nat (length (stream_of native (take i fs)))) by lia.
    assert (Hr : result_ok r).
    { eapply Forall_forall in Hok; [exact Hok|].
      now apply list_elem_of_lookup_2 in Hi. }
    destruct Hr as (Ho & Hc & Hl).
    cbn [frame_of_result fst snd] in *. rewrite Hl in *.
    rewrite H1, H2, !load32_store32.
    rewrite !uint32_t_small by (unfold MAX_BLOCK_SIZE in *; lia).
    repeat split; reflexivity.
Qed.

Lemma header_fields_recovered_witness :
  exists (encoded : list byte) (total : Z) (index : list BlockIndex.t),
    compress_hybrid (lz4 := RunLength.codec) big_endian
                    (replicate 10 Byte.x41) 4 = PyOk encoded
    /\ build_index big_endian (S (length encoded)) encoded
       = Some (PyOk (total, index))
    /\ length index
       = length (block_results (lz4 := RunLength.codec)
                               (replicate 10 Byte.x41) 4).
Proof.
  destruct (header_fields_recovered (lz4 := RunLength.codec) big_endian
              (replicate 10 Byte.x41) 4
              ltac:(vm_compute; split; [reflexivity|discriminate])
              ltac:(vm_compute; discriminate))
    as (encoded & total & index & H1 & H2 & H3 & _).
  exists encoded, total, index. split; [exact H1|]. split; [exact H2|exact H3].
Defined.

(** C1: for every byte sequence and every block size in
    [(0, MAX_BLOCK_SIZE]], decoding the encoding gives the byte sequence
    back, whatever the order in which the decoder takes the blocks. LZ4 is
    assumed to meet its contract, and the worst-case encoded size to be a
    valid [Py_ssize_t]. *)
Theorem round_trip {lz4 : LZ4} {lz4_ok : LZ4_contract lz4}
  (native : byte_order) (schedule : nat -> list nat)
  (in_data : list byte) (block_size : Z) :
  (forall n, Permutation (schedule n) (seq 0 n)) ->
  0 < block_size <= MAX_BLOCK_SIZE ->
  Z.of_nat (length in_data)
  + num_blocks_of (Z.of_nat (length in_data)) block_size * HEADER_SIZE
  <= PY_SSIZE_T_MAX ->
  exists encoded,
    compress_hybrid native in_data block_size = PyOk encoded
    /\ decompress_hybrid native schedule encoded = Some (PyOk in_data).
Proof.
  intros Hsched Hbs Hsize.
  assert (Hnb : 0 <= num_blocks_of (Z.of_nat (length in_data)) block_size).
  { unfold num_blocks_of. apply Z.div_pos; [|lia]. apply size_t_range. }
  assert (Hn : Z.of_nat (length in_data) <= PY_SSIZE_T_MAX)
    by (unfold HEADER_SIZE in *; lia).
  exists (concat (frame_of native <$> block_results in_data block_size)).
  split.
  - now apply compress_hybrid_frames.
  - now apply decompress_compressed.
Qed.

Lemma round_trip_witness :
  exists encoded,
    compress_hybrid (lz4 := RunLength.codec) little_endian
                    (replicate 10 Byte.x41) 4 = PyOk encoded
    /\ decompress_hybrid (lz4 := RunLength.codec) little_endian backwards
                         encoded
       = Some (PyOk (replicate 10 Byte.x41)).
Proof.
  apply (round_trip (lz4 := RunLength.codec) (lz4_ok := run_length_contract)
           little_endian backwards (replicate 10 Byte.x41) 4
           backwards_perm
           ltac:(vm_compute; split; [reflexivity|discriminate])
           ltac:(vm_compute; discriminate)).
Defined.

(** ** Decoder *)

Lemma slice_app_l (s t : list byte) (off len : Z) :
  0 <= off -> 0 <= len -> off + len <= Z.of_nat (length s) ->
  slice (s ++ t) off len = slice s off len.
Proof.
  intros Ho Hl Hb. unfold slice.
  rewrite drop_app_le by lia.
  apply take_app_le. rewrite length_drop. lia.
Qed.

Lemma header_at_app (native : byte_order) (s t : list byte) (c : Z) :
  0 <= c -> in_loop s c ->
  header_at native (s ++ t) c = header_at native s c.
Proof.
  intros Hc Hloop. unfold in_loop, HEADER_SIZE in Hloop. unfold header_at.
  rewrite !slice_app_l by lia. reflexivity.
Qed.

(** Bytes appended to the input do not change the steps already possible. *)
Lemma index_step_app (native : byte_order) (s t : list byte)
  (st st' : Z * Z * list BlockIndex.t) :
  Z.of_nat (length (s ++ t)) <= PY_SSIZE_T_MAX ->
  0 <= cursor st -> in_loop s (cursor st) ->
  index_step native s st = PyOk st' ->
  index_step native (s ++ t) st = PyOk st'.
Proof.
  intros Hlen Hc Hloop Hstep. rewrite length_app in Hlen.
  assert (Hs : Z.of_nat (length s) <= PY_SSIZE_T_MAX) by lia.
  destruct (index_step_entry native s Hs st st' Hc Hloop Hstep) as [-> Hacc].
  assert (Hloop' : in_loop (s ++ t) (cursor st)).
  { unfold in_loop in *. rewrite length_app. lia. }
  assert (Hacc' : header_accepted native (s ++ t) (cursor st)).
  { unfold header_accepted in *. rewrite header_at_app by trivial.
    destruct (header_at native s (cursor st)) as [o sz].
    rewrite length_app. lia. }
  pose proof (index_step_accepts native (s ++ t)
                ltac:(rewrite length_app; lia) st Hc Hloop' Hacc') as E.
  rewrite header_at_app in E by trivial.
  destruct (header_at native s (cursor st)) as [o sz]. exact E.
Qed.

Lemma index_reach_app (native : byte_order) (s t : list byte)
  (st : Z * Z * list BlockIndex.t) :
  Z.of_nat (length (s ++ t)) <= PY_SSIZE_T_MAX ->
  index_reach native s st -> index_reach native (s ++ t) st.
Proof.
  intros Hlen. assert (Hs : Z.of_nat (length s) <= PY_SSIZE_T_MAX)
    by (rewrite length_app in Hlen; lia).
  induction 1 as [|st st' Hreach IH Hloop Hstep]; [constructor|].
  pose proof (index_reach_cursor native s Hs st Hreach) as Hc.
  apply (reach_next _ _ st); [exact IH| |].
  - unfold in_loop in *. rewrite length_app. lia.
  - apply index_step_app; trivial; lia.
Qed.

(** How the result of pass 1 becomes the result of the call. *)
Lemma decompress_hybrid_raise {lz4 : LZ4} (native : byte_order)
  (schedule : nat -> list nat) (in_data : list byte) (e : PyExc) :
  index_loop native (S (length in_data)) in_data (0, 0, [])
  = Some (PyRaise e) ->
  decompress_hybrid native schedule in_data = Some (PyRaise e).
Proof.
  intros H. unfold decompress_hybrid, build_index. rewrite H. reflexivity.
Qed.

Lemma decompress_hybrid_trailing {lz4 : LZ4} (native : byte_order)
  (schedule : nat -> list nat) (in_data : list byte)
  (st : Z * Z * list BlockIndex.t) :
  index_loop native (S (length in_data)) in_data (0, 0, [])
  = Some (PyOk st) ->
  cursor st <> Z.of_nat (length in_data) ->
  decompress_hybrid native schedule in_data
  = Some (PyRaise PyExc_RuntimeError).
Proof.
  intros H Hne. unfold decompress_hybrid, build_index. rewrite H.
  destruct st as [[c t] idx]. unfold cursor in Hne. simpl in Hne.
  destruct (Z.eqb_spec c (Z.of_nat (length in_data))); [contradiction|].
  reflexivity.
Qed.

Lemma decompress_hybrid_indexed {lz4 : LZ4} (native : byte_order)
  (schedule : nat -> list nat) (in_data : list byte) (total : Z)
  (index : list BlockIndex.t) :
  build_index native (S (length in_data)) in_data
  = Some (PyOk (total, index)) ->
  decompress_hybrid native schedule in_data
  = let '(out_data, error_flag) :=
      decode_blocks in_data index (schedule (length index))
                    (replicate (Z.to_nat total) Byte.x00, false) in
    if error_flag then Some (PyRaise PyExc_RuntimeError)
    else Some (PyOk out_data).
Proof. intros H. unfold decompress_hybrid. rewrite H. reflexivity. Qed.

(** C3: in pass 1, a header whose original size exceeds [MAX_BLOCK_SIZE],
    or whose stored size exceeds the bytes left after the header, makes the
    step and the whole call raise the format error; when the loop ends and
    the cursor is not on the end of the input, the call raises the format
    error; so it does when one to seven bytes follow a stream whose frames
    end on its last byte. No data is returned in any of these cases. *)
Theorem malformed_stream_rejected {lz4 : LZ4} (native : byte_order)
  (schedule : nat -> list nat) (in_data : list byte)
  (st : Z * Z * list BlockIndex.t) :
  Z.of_nat (length in_data) <= PY_SSIZE_T_MAX ->
  index_reach native in_data st ->
  (in_loop in_data (cursor st) ->
   MAX_BLOCK_SIZE < fst (header_at native in_data (cursor st))
   \/ Z.of_nat (length in_data) - (cursor st + HEADER_SIZE)
      < snd (header_at native in_data (cursor st)) ->
   index_step native in_data st = PyRaise PyExc_RuntimeError
   /\ decompress_hybrid native schedule in_data
      = Some (PyRaise PyExc_RuntimeError))
  /\ (~ in_loop in_data (cursor st) ->
      cursor st <> Z.of_nat (length in_data) ->
      decompress_hybrid native schedule in_data
      = Some (PyRaise PyExc_RuntimeError))
  /\ (forall trailing : list byte,
        cursor st = Z.of_nat (length in_data) ->
        (0 < length trailing < 8)%nat ->
        Z.of_nat (length (in_data ++ trailing)) <= PY_SSIZE_T_MAX ->
        decompress_hybrid native schedule (in_data ++ trailing)
        = Some (PyRaise PyExc_RuntimeError)).
Proof.
  intros Hlen Hreach.
  pose proof (index_reach_cursor native in_data Hlen st Hreach) as Hc.
  assert (Hout : forall data st0,
            Z.of_nat (length data) <= PY_SSIZE_T_MAX ->
            index_reach native data st0 ->
            ~ in_loop data (cursor st0) ->
            cursor st0 <> Z.of_nat (length data) ->
            decompress_hybrid native schedule data
            = Some (PyRaise PyExc_RuntimeError)).
  { intros data st0 Hd Hr Hnl Hne.
    pose proof (index_reach_cursor native data Hd st0 Hr) as Hc0.
    apply (decompress_hybrid_trailing native schedule data st0); [|exact Hne].
    apply (index_reach_loop native data Hd st0 1); [exact Hr|].
    now apply index_loop_out. }
  split; [|split].
  - intros Hloop Hbad.
    assert (Hstep : index_step native in_data st = PyRaise PyExc_RuntimeError).
    { apply index_step_rejects; trivial; [lia|].
      unfold header_accepted.
      destruct (header_at native in_data (cursor st)) as [o s].
      cbn [fst snd] in Hbad. lia. }
    split; [exact Hstep|].
    apply decompress_hybrid_raise.
    apply (index_reach_loop native in_data Hlen st 1); [exact Hreach|].
    rewrite index_loop_in by (trivial; lia). now rewrite Hstep.
  - intros Hnl Hne. now apply (Hout in_data st).
  - intros trailing Hend Htr Hlen'.
    apply (Hout (in_data ++ trailing) st); trivial.
    + now apply index_reach_app.
    + unfold in_loop, HEADER_SIZE. rewrite length_app. lia.
    + rewrite length_app. lia.
Qed.

Lemma malformed_stream_rejected_witness :
  (* a frame, then: a header with an oversized original size; one byte; two
     bytes *)
  decompress_hybrid (lz4 := RunLength.codec) little_endian in_order
    ([Byte.x04; Byte.x00; Byte.x00; Byte.x00;
      Byte.x02; Byte.x00; Byte.x00; Byte.x00; Byte.x04; Byte.x41]
     ++ [Byte.xff; Byte.xff; Byte.xff; Byte.xff;
         Byte.x00; Byte.x00; Byte.x00; Byte.x00])
  = Some (PyRaise PyExc_RuntimeError)
  /\ decompress_hybrid (lz4 := RunLength.codec) little_endian in_order
       ([Byte.x04; Byte.x00; Byte.x00; Byte.x00;
         Byte.x02; Byte.x00; Byte.x00; Byte.x00; Byte.x04; Byte.x41]
        ++ [Byte.x00])
     = Some (PyRaise PyExc_RuntimeError)
  /\ decompress_hybrid (lz4 := RunLength.codec) little_endian in_order
       ([Byte.x04; Byte.x00; Byte.x00; Byte.x00;
         Byte.x02; Byte.x00; Byte.x00; Byte.x00; Byte.x04; Byte.x41]
        ++ [Byte.x00; Byte.x00])
     = Some (PyRaise PyExc_RuntimeError).
Proof.
  set (frame0 := [Byte.x04; Byte.x00; Byte.x00; Byte.x00;
                  Byte.x02; Byte.x00; Byte.x00; Byte.x00;
                  Byte.x04; Byte.x41]).
  set (st := (10, 4, [BlockIndex.mk 8 0 2 4])).
  assert (Hreach : forall t,
            Z.of_nat (length (frame0 ++ t)) <= PY_SSIZE_T_MAX ->
            index_reach little_endian (frame0 ++ t) st).
  { intros t Ht. apply (reach_next _ _ (0, 0, [])); [constructor| |].
    - unfold in_loop, cursor, HEADER_SIZE. rewrite length_app. simpl. lia.
    - apply index_step_app; [exact Ht| | |reflexivity].
      + vm_compute. discriminate.
      + vm_compute. discriminate. }
  split; [|split].
  - destruct (malformed_stream_rejected (lz4 := RunLength.codec)
                little_endian in_order
                (frame0 ++ [Byte.xff; Byte.xff; Byte.xff; Byte.xff;
                            Byte.x00; Byte.x00; Byte.x00; Byte.x00]) st
                ltac:(vm_compute; discriminate)
                (Hreach [Byte.xff; Byte.xff; Byte.xff; Byte.xff;
                         Byte.x00; Byte.x00; Byte.x00; Byte.x00]
                        ltac:(vm_compute; discriminate)))
      as (Hbad & _ & _).
    apply Hbad.
    + vm_compute. discriminate.
    + left. vm_compute. reflexivity.
  - destruct (malformed_stream_rejected (lz4 := RunLength.codec)
                little_endian in_order frame0 st
                ltac:(vm_compute; discriminate)
                ltac:(rewrite <- (app_nil_r frame0); apply (Hreach []);
                      vm_compute; discriminate))
      as (_ & _ & Htrailing).
    apply Htrailing.
    + reflexivity.
    + simpl. lia.
    + vm_compute. discriminate.
  - destruct (malformed_stream_rejected (lz4 := RunLength.codec)
                little_endian in_order (frame0 ++ [Byte.x00; Byte.x00]) st
                ltac:(vm_compute; discriminate)
                (Hreach [Byte.x00; Byte.x00] ltac:(vm_compute; discriminate)))
      as (_ & Hend & _).
    apply Hend.
    + vm_compute. intros H. apply H. reflexivity.
    + vm_compute. discriminate.
Defined.

(** C4: when pass 1 accepts the stream and, for some block whose stored
    size differs from its original size, LZ4 returns a size other than the
    original size, the whole call raises and returns no data, wherever the
    schedule puts that block. *)
Theorem codec_mismatch_fails {lz4 : LZ4} (native : byte_order)
  (schedule : nat -> list nat) (in_data : list byte) (total : Z)
  (index : list BlockIndex.t) (i : nat) (block : BlockIndex.t) :
  (forall n, Permutation (schedule n) (seq 0 n)) ->
  Z.of_nat (length in_data) <= PY_SSIZE_T_MAX ->
  build_index native (S (length in_data)) in_data
  = Some (PyOk (total, index)) ->
  index !! i = Some block ->
  BlockIndex.comp_size block <> BlockIndex.orig_size block ->
  fst (LZ4_decompress_safe
         (slice in_data (BlockIndex.in_offset block)
                (int (BlockIndex.comp_size block)))
         (int (BlockIndex.comp_size block))
         (int (BlockIndex.orig_size block)))
  <> BlockIndex.orig_size block ->
  decompress_hybrid native schedule in_data
  = Some (PyRaise PyExc_RuntimeError).
Proof.
  intros Hsched Hlen Hidx Hi Hne Hret.
  pose proof (build_index_checked native in_data Hlen _ _ _ Hidx) as Hchk.
  assert (Hb : entry_checked in_data block).
  { eapply Forall_forall in Hchk; [exact Hchk|].
    now apply list_elem_of_lookup_2 in Hi. }
  destruct Hb as (Ho & _).
  assert (Hfail : block_fails in_data block = true).
  { unfold block_fails.
    rewrite (int_small (BlockIndex.orig_size block)) in *
      by (unfold MAX_BLOCK_SIZE in *; lia).
    destruct (Z.eqb_spec (BlockIndex.comp_size block)
                (BlockIndex.orig_size block)); [contradiction|].
    destruct (Z.eqb_spec
                (fst (LZ4_decompress_safe
                        (slice in_data (BlockIndex.in_offset block)
                               (int (BlockIndex.comp_size block)))
                        (int (BlockIndex.comp_size block))
                        (BlockIndex.orig_size block)))
                (BlockIndex.orig_size block)); [contradiction|].
    reflexivity. }
  rewrite (decompress_hybrid_indexed native schedule in_data _ _ Hidx).
  assert (Hin : i ∈ schedule (length index)).
  { rewrite Hsched. apply elem_of_seq. apply lookup_lt_Some in Hi. lia. }
  pose proof (decode_blocks_fail in_data index (schedule (length index)) i
                block (replicate (Z.to_nat total) Byte.x00, false)
                Hi Hfail Hin) as Hflag.
  destruct (decode_blocks _ _ _ _) as [out flag]. simpl in Hflag.
  now rewrite Hflag.
Qed.

Lemma codec_mismatch_fails_witness :
  (* one frame that declares three bytes and unpacks to one *)
  decompress_hybrid (lz4 := RunLength.codec) little_endian backwards
    [Byte.x03; Byte.x00; Byte.x00; Byte.x00;
     Byte.x02; Byte.x00; Byte.x00; Byte.x00; Byte.x01; Byte.x41]
  = Some (PyRaise PyExc_RuntimeError).
Proof.
  apply (codec_mismatch_fails (lz4 := RunLength.codec) little_endian
           backwards _ 3 [BlockIndex.mk 8 0 2 3] 0 (BlockIndex.mk 8 0 2 3)
           backwards_perm).
  - vm_compute. discriminate.
  - reflexivity.
  - reflexivity.
  - discriminate.
  - vm_compute. discriminate.
Defined.

(** C9: pass 1 asks nothing of the relation between the two sizes of a
    header: a header whose original size is at most [MAX_BLOCK_SIZE] and
    whose stored size fits the bytes left is accepted and recorded, the
    stored size being smaller than, equal to or greater than the original
    size. A block whose sizes differ goes to LZ4, and its iteration leaves
    [error_flag] clear exactly when LZ4 returns the original size; so the
    call returns data exactly when that holds for every such block. *)
Theorem stored_size_unconstrained {lz4 : LZ4} (native : byte_order)
  (schedule : nat -> list nat) (in_data : list byte) :
  (forall n, Permutation (schedule n) (seq 0 n)) ->
  Z.of_nat (length in_data) <= PY_SSIZE_T_MAX ->
  (forall st, index_reach native in_data st ->
     in_loop in_data (cursor st) ->
     fst (header_at native in_data (cursor st)) <= MAX_BLOCK_SIZE ->
     snd (header_at native in_data (cursor st))
     <= Z.of_nat (length in_data) - (cursor st + HEADER_SIZE) ->
     exists st',
       index_step native in_data st = PyOk st'
       /\ snd st'
          = snd st ++ [BlockIndex.mk
                         (cursor st + HEADER_SIZE) (snd (fst st))
                         (snd (header_at native in_data (cursor st)))
                         (fst (header_at native in_data (cursor st)))])
  /\ (forall (block : BlockIndex.t) (out : list byte),
        BlockIndex.comp_size block <> BlockIndex.orig_size block ->
        let lz4_result :=
          LZ4_decompress_safe
            (slice in_data (BlockIndex.in_offset block)
                   (int (BlockIndex.comp_size block)))
            (int (BlockIndex.comp_size block))
            (int (BlockIndex.orig_size block)) in
        decode_block in_data block (out, false)
        = (memcpy out (BlockIndex.out_offset block) (snd lz4_result),
           negb (fst lz4_result =? int (BlockIndex.orig_size block))))
  /\ (forall (total : Z) (index : list BlockIndex.t),
        build_index native (S (length in_data)) in_data
        = Some (PyOk (total, index)) ->
        ((exists out,
            decompress_hybrid native schedule in_data = Some (PyOk out))
         <-> forall (i : nat) (block : BlockIndex.t),
               index !! i = Some block ->
               BlockIndex.comp_size block <> BlockIndex.orig_size block ->
               fst (LZ4_decompress_safe
                      (slice in_data (BlockIndex.in_offset block)
                             (int (BlockIndex.comp_size block)))
                      (int (BlockIndex.comp_size block))
                      (int (BlockIndex.orig_size block)))
               = BlockIndex.orig_size block)).
Proof.
  intros Hsched Hlen. split; [|split].
  - intros st Hreach Hloop Ho Hs.
    pose proof (index_reach_cursor native in_data Hlen st Hreach) as Hc.
    assert (Hacc : header_accepted native in_data (cursor st)).
    { unfold header_accepted.
      destruct (header_at native in_data (cursor st)) as [o s]. now split. }
    pose proof (index_step_accepts native in_data Hlen st ltac:(lia)
                  Hloop Hacc) as E.
    destruct (header_at native in_data (cursor st)) as [o s].
    eexists. split; [exact E|reflexivity].
  - intros block out Hne. cbv zeta. unfold decode_block.
    destruct (Z.eqb_spec (BlockIndex.comp_size block)
                (BlockIndex.orig_size block)); [contradiction|].
    destruct (LZ4_decompress_safe _ _ _) as [ret written]. reflexivity.
  - intros total index Hidx.
    pose proof (build_index_checked native in_data Hlen _ _ _ Hidx) as Hchk.
    rewrite (decompress_hybrid_indexed native schedule in_data _ _ Hidx).
    pose proof (decode_blocks_flag in_data index (schedule (length index))
                  (replicate (Z.to_nat total) Byte.x00)) as Hflag.
    destruct (decode_blocks _ _ _ _) as [out flag]. cbn [snd] in Hflag.
    assert (Hint : forall i block, index !! i = Some block ->
              int (BlockIndex.orig_size block) = BlockIndex.orig_size block).
    { intros i block Hi. eapply Forall_forall in Hchk;
        [|apply (list_elem_of_lookup_2 _ _ _ Hi)].
      destruct Hchk as (Ho & _). apply int_small.
      unfold MAX_BLOCK_SIZE in *. lia. }
    split.
    + intros [o Hok] i block Hi Hne.
      destruct flag; [discriminate|].
      destruct (Z.eq_dec
                  (fst (LZ4_decompress_safe
                          (slice in_data (BlockIndex.in_offset block)
                                 (int (BlockIndex.comp_size block)))
                          (int (BlockIndex.comp_size block))
                          (int (BlockIndex.orig_size block))))
                  (BlockIndex.orig_size block)) as [E|E]; [exact E|].
      exfalso.
      assert (Hf : false = true); [|discriminate].
      apply Hflag. exists i, block. split; [|split; [exact Hi|]].
      * rewrite Hsched. apply elem_of_seq. apply lookup_lt_Some in Hi. lia.
      * unfold block_fails. rewrite (Hint i block Hi) in *.
        apply andb_true_iff. split; apply negb_true_iff; apply Z.eqb_neq;
          assumption.
    + intros Hall. destruct flag; [|eauto].
      exfalso. destruct (proj1 Hflag eq_refl) as (i & block & _ & Hi & Hf).
      unfold block_fails in Hf.
      destruct (Z.eqb_spec (BlockIndex.comp_size block)
                  (BlockIndex.orig_size block)) as [E|E]; [discriminate|].
      rewrite (Hall i block Hi E), (Hint i block Hi), Z.eqb_refl in Hf.
      discriminate.
Qed.

Lemma stored_size_unconstrained_witness :
  (* a frame of original size 0 and stored size 2: one run of length 0 *)
  (exists out,
     decompress_hybrid (lz4 := RunLength.codec) little_endian in_order
       [Byte.x00; Byte.x00; Byte.x00; Byte.x00;
        Byte.x02; Byte.x00; Byte.x00; Byte.x00; Byte.x00; Byte.x07]
     = Some (PyOk out))
  <-> forall (i : nat) (block : BlockIndex.t),
        [BlockIndex.mk 8 0 2 0] !! i = Some block ->
        BlockIndex.comp_size block <> BlockIndex.orig_size block ->
        fst (RunLength.decompress
               (slice [Byte.x00; Byte.x00; Byte.x00; Byte.x00;
                       Byte.x02; Byte.x00; Byte.x00; Byte.x00;
                       Byte.x00; Byte.x07]
                      (BlockIndex.in_offset block)
                      (int (BlockIndex.comp_size block)))
               (int (BlockIndex.comp_size block))
               (int (BlockIndex.orig_size block)))
        = BlockIndex.orig_size block.
Proof.
  destruct (stored_size_unconstrained (lz4 := RunLength.codec)
              little_endian in_order
              [Byte.x00; Byte.x00; Byte.x00; Byte.x00;
               Byte.x02; Byte.x00; Byte.x00; Byte.x00; Byte.x00; Byte.x07]
              in_order_perm ltac:(vm_compute; discriminate))
    as (_ & _ & Hdecode).
  apply (Hdecode 0 [BlockIndex.mk 8 0 2 0]). reflexivity.
Defined.

(** ** The index of a stream of 4 GiB *)

Lemma length_long_frame (filler : nat) :
  Z.of_nat (length (long_frame filler)) = 23 + Z.of_nat filler.
Proof.
  unfold long_frame. rewrite !length_app, !length_replicate. simpl length. lia.
Qed.

Lemma header_at_long_frame_0 (filler : nat) :
  header_at little_endian (long_frame filler) 0 = (0, 2 ^ 32 - 1).
Proof. reflexivity. Qed.

Lemma header_at_long_frame_7 (filler : nat) :
  header_at little_endian (long_frame filler) 7 = (255, 2 ^ 32 - 16).
Proof. reflexivity. Qed.

Lemma header_at_long_frame_end (filler : nat) :
  header_at little_endian (long_frame filler) (15 + Z.of_nat filler) = (0, 0).
Proof.
  unfold header_at, slice.
  replace (Z.to_nat (15 + Z.of_nat filler)) with (15 + filler)%nat by lia.
  replace (Z.to_nat (15 + Z.of_nat filler + 4)) with (15 + filler + 4)%nat
    by lia.
  unfold long_frame. rewrite app_assoc.
  rewrite (drop_app_length' _ _ (15 + filler))
    by (rewrite length_app, length_replicate; reflexivity).
  rewrite (drop_app_add' _ _ (15 + filler))
    by (rewrite length_app, length_replicate; reflexivity).
  reflexivity.
Qed.

(** Pass 1 accepts the frame and indexes three: the 32-bit sum
    [HEADER_SIZE + comp_size] of line 183 wraps to 7 at the first header. *)
Lemma build_index_long_frame (filler : nat) :
  Z.of_nat filler = 2 ^ 32 - 16 ->
  build_index little_endian (S (length (long_frame filler)))
              (long_frame filler)
  = Some (PyOk (255, [BlockIndex.mk 8 0 (2 ^ 32 - 1) 0;
                      BlockIndex.mk 15 0 (2 ^ 32 - 16) 255;
                      BlockIndex.mk (2 ^ 32 + 7) 255 0 0])).
Proof.
  intros Hfiller.
  pose proof (length_long_frame filler) as Hlen.
  assert (Hvalid : Z.of_nat (length (long_frame filler)) <= PY_SSIZE_T_MAX)
    by (unfold PY_SSIZE_T_MAX; lia).
  assert (Hloop : index_loop little_endian 4 (long_frame filler) (0, 0, [])
                  = Some (PyOk (2 ^ 32 + 7, 255,
                                [BlockIndex.mk 8 0 (2 ^ 32 - 1) 0;
                                 BlockIndex.mk 15 0 (2 ^ 32 - 16) 255;
                                 BlockIndex.mk (2 ^ 32 + 7) 255 0 0]))).
  { rewrite index_loop_in
      by (first [exact Hvalid
               |unfold cursor, in_loop, HEADER_SIZE; cbn [fst]; lia]).
    pose proof (index_step_accepts little_endian (long_frame filler) Hvalid
                  (0, 0, [])) as E.
    unfold cursor, in_loop, header_accepted in E. cbn [fst snd] in E.
    rewrite header_at_long_frame_0 in E.
    rewrite E by (unfold HEADER_SIZE, MAX_BLOCK_SIZE; lia). clear E.
    cbn [app].
    change (size_t (0 + uint32_t (HEADER_SIZE + (2 ^ 32 - 1)))) with 7.
    change (size_t (0 + 0)) with 0.
    change (0 + HEADER_SIZE) with 8.
    rewrite index_loop_in
      by (first [exact Hvalid
               |unfold cursor, in_loop, HEADER_SIZE; cbn [fst]; lia]).
    pose proof (index_step_accepts little_endian (long_frame filler) Hvalid
                  (7, 0, [BlockIndex.mk 8 0 (2 ^ 32 - 1) 0])) as E.
    unfold cursor, in_loop, header_accepted in E. cbn [fst snd] in E.
    rewrite header_at_long_frame_7 in E.
    rewrite E by (unfold HEADER_SIZE, MAX_BLOCK_SIZE; lia). clear E.
    cbn [app].
    change (size_t (7 + uint32_t (HEADER_SIZE + (2 ^ 32 - 16))))
      with (2 ^ 32 - 1).
    change (size_t (0 + 255)) with 255.
    change (7 + HEADER_SIZE) with 15.
    rewrite index_loop_in
      by (first [exact Hvalid
               |unfold cursor, in_loop, HEADER_SIZE; cbn [fst]; lia]).
    assert (E3 : index_step little_endian (long_frame filler)
                   (2 ^ 32 - 1, 255,
                    [BlockIndex.mk 8 0 (2 ^ 32 - 1) 0;
                     BlockIndex.mk 15 0 (2 ^ 32 - 16) 255])
                 = PyOk (2 ^ 32 + 7, 255,
                         [BlockIndex.mk 8 0 (2 ^ 32 - 1) 0;
                          BlockIndex.mk 15 0 (2 ^ 32 - 16) 255;
                          BlockIndex.mk (2 ^ 32 + 7) 255 0 0])).
    { pose proof (index_step_accepts little_endian (long_frame filler) Hvalid
                    (15 + Z.of_nat filler, 255,
                     [BlockIndex.mk 8 0 (2 ^ 32 - 1) 0;
                      BlockIndex.mk 15 0 (2 ^ 32 - 16) 255])) as E.
      unfold cursor, in_loop, header_accepted in E. cbn [fst snd] in E.
      rewrite header_at_long_frame_end in E.
      specialize (E ltac:(lia) ltac:(unfold HEADER_SIZE; lia)
                    ltac:(unfold HEADER_SIZE, MAX_BLOCK_SIZE; lia)).
      rewrite Hfiller in E. exact E. }
    rewrite E3.
    rewrite index_loop_out
      by (first [exact Hvalid
               |unfold cursor, in_loop, HEADER_SIZE; cbn [fst]; lia]).
    reflexivity. }
  unfold build_index.
  rewrite (index_loop_mono little_endian (long_frame filler) 4
             (S (length (long_frame filler))) _ _ ltac:(lia) Hloop).
  destruct (Z.eqb_spec (2 ^ 32 + 7) (Z.of_nat (length (long_frame filler))));
    [|lia].
  reflexivity.
Qed.

Lemma long_frame_is_a_frame (filler : nat) :
  Z.of_nat filler = 2 ^ 32 - 16 ->
  long_frame filler
  = stream_of little_endian [(0, drop 8 (long_frame filler))]
  /\ Z.of_nat (length (drop 8 (long_frame filler))) = 2 ^ 32 - 1.
Proof.
  intros Hfiller.
  assert (Hlen : Z.of_nat (length (drop 8 (long_frame filler))) = 2 ^ 32 - 1).
  { rewrite length_drop. pose proof (length_long_frame filler). lia. }
  split; [|exact Hlen].
  unfold stream_of. cbn [fmap list_fmap concat fst snd]. unfold frame_bytes.
  rewrite Hlen, app_nil_r. reflexivity.
Qed.

(** C5, where the code departs from it: [stream_4GiB] is one frame by the
    wire format and pass 1 accepts it, but the index it builds has three
    entries, and the header of the second starts at byte 7, inside the
    header of the first, not where the payload of the first ends: the index
    is not tiled. The sum [HEADER_SIZE + comp_size] of line 183 is computed
    in 32 bits and wraps for a stored size of [2 ^ 32 - 8] or more. *)
Theorem index_not_tiled_at_4GiB :
  (stream_4GiB = stream_of little_endian [(0, drop 8 stream_4GiB)]
   /\ Z.of_nat (length (drop 8 stream_4GiB)) = 2 ^ 32 - 1)
  /\ build_index little_endian (S (length stream_4GiB)) stream_4GiB
     = Some (PyOk (255, [BlockIndex.mk 8 0 (2 ^ 32 - 1) 0;
                         BlockIndex.mk 15 0 (2 ^ 32 - 16) 255;
                         BlockIndex.mk (2 ^ 32 + 7) 255 0 0]))
  /\ ~ index_tiled 0 0 [BlockIndex.mk 8 0 (2 ^ 32 - 1) 0;
                        BlockIndex.mk 15 0 (2 ^ 32 - 16) 255;
                        BlockIndex.mk (2 ^ 32 + 7) 255 0 0].
Proof.
  assert (Hfiller : Z.of_nat (Z.to_nat (2 ^ 32 - 16)) = 2 ^ 32 - 16)
    by (apply Z2Nat.id; lia).
  split; [|split].
  - exact (long_frame_is_a_frame _ Hfiller).
  - exact (build_index_long_frame _ Hfiller).
  - intros (_ & _ & H & _). cbn in H. unfold HEADER_SIZE in H. lia.
Qed.

(** Below 4 GiB the index of every accepted stream is tiled, and ends on
    the end of the input and on the size of the output. *)
Lemma index_tiled_below_4GiB (native : byte_order) (in_data : list byte)
  (fuel : nat) (total : Z) (index : list BlockIndex.t) :
  Z.of_nat (length in_data) < 2 ^ 32 ->
  build_index native fuel in_data = Some (PyOk (total, index)) ->
  index_tiled 0 0 index
  /\ index_end 0 0 index = (Z.of_nat (length in_data), total).
Proof.
  intros Hsmall Hidx.
  assert (Hlen : Z.of_nat (length in_data) <= PY_SSIZE_T_MAX)
    by (unfold PY_SSIZE_T_MAX; lia).
  apply (build_index_reach native in_data Hlen) in Hidx.
  destruct (index_reach_tiled native in_data Hlen _ Hsmall Hidx)
    as (Ht & He & _).
  split; [exact Ht|exact He].
Qed.

(** * Further properties of the code *)

(** ** The run-length codec writes what it returns *)

Lemma run_length_decompress_contract :
  LZ4_decompress_contract RunLength.codec.
Proof.
  split. intros src size cap. cbn. unfold RunLength.decompress.
  destruct (negb _); [cbn; lia|].
  destruct (RunLength.unpack src) as [d|]; [|cbn; lia].
  destruct (Z.leb_spec (Z.of_nat (length d)) cap); cbn; lia.
Qed.

(** ** The streams that pass 1 accepts (lines 153-192) *)

Lemma store32_load32 (bo : byte_order) (bs : list byte) :
  length bs = 4%nat -> store32 bo (load32 bo bs) = bs.
Proof.
  intros H. destruct bo; unfold store32, load32.
  - rewrite <- H. apply split_le_combine.
  - rewrite <- (length_rev bs) in H. rewrite <- H.
    rewrite split_le_combine. apply rev_involutive.
Qed.

Lemma take_slice (data : list byte) (off len : Z) :
  0 <= off -> 0 <= len ->
  take (Z.to_nat (off + len)) data
  = take (Z.to_nat off) data ++ slice data off len.
Proof.
  intros Ho Hl. unfold slice. rewrite take_take_drop. f_equal. lia.
Qed.

Lemma length_slice_4 (data : list byte) (off : Z) :
  0 <= off -> off + 4 <= Z.of_nat (length data) ->
  length (slice data off 4) = 4%nat.
Proof.
  intros Ho Hb. apply Nat2Z.inj. rewrite length_slice; lia.
Qed.

Lemma sum_orig_bound (fs : list (Z * list byte)) :
  Forall frame_valid fs ->
  0 <= sumZ fst fs <= MAX_BLOCK_SIZE * Z.of_nat (length fs).
Proof.
  induction 1 as [|f fs [Ho _] Hfs IH]; [unfold sumZ; simpl; lia|].
  rewrite sumZ_cons. simpl length. lia.
Qed.

(** Below 4 GiB the bytes before the cursor are the frames indexed so far. *)
Section AcceptedStream.

Variable native : byte_order.
Variable in_data : list byte.
Hypothesis below_4GiB : Z.of_nat (length in_data) < 2 ^ 32.

Local Abbreviation in_size := (Z.of_nat (length in_data)).

Lemma in_size_valid_below_4GiB : in_size <= PY_SSIZE_T_MAX.
Proof. unfold PY_SSIZE_T_MAX. lia. Qed.

Lemma index_reach_frames (st : Z * Z * list BlockIndex.t) :
  index_reach native in_data st ->
  let fs := frame_of_entry in_data <$> snd st in
  take (Z.to_nat (cursor st)) in_data = stream_of native fs
  /\ Forall frame_valid fs
  /\ snd (fst st) = sumZ fst fs.
Proof.
  pose proof in_size_valid_below_4GiB as Hlen.
  induction 1 as [|st st' Hreach (IHs & IHv & IHt) Hloop Hstep].
  - cbn. repeat split. constructor.
  - pose proof (index_reach_cursor native in_data Hlen st Hreach) as Hc.
    destruct (index_step_entry native in_data Hlen st st' ltac:(lia)
                Hloop Hstep) as [-> Hacc].
    pose proof (header_at_range native in_data (cursor st) ltac:(lia) Hloop)
      as [Ho Hs].
    pose proof (sum_orig_bound _ IHv) as Hsum.
    rewrite length_fmap in Hsum.
    pose proof (length_stream_of_ge native (frame_of_entry in_data <$> snd st))
      as Hcount.
    rewrite <- IHs, length_fmap, length_take in Hcount.
    unfold header_accepted in Hacc. unfold header_at in *.
    destruct st as [[c t] idx]. unfold cursor in *. cbn [fst snd] in *.
    set (o := load32 native (slice in_data c 4)) in *.
    set (s := load32 native (slice in_data (c + 4) 4)) in *.
    unfold in_loop, HEADER_SIZE in *.
    rewrite uint32_t_small by lia.
    rewrite !size_t_small by (unfold MAX_BLOCK_SIZE in *; lia).
    rewrite fmap_app, stream_of_app. cbn [fmap list_fmap].
    unfold frame_of_entry at 2 4 6. cbn [BlockIndex.orig_size
      BlockIndex.in_offset BlockIndex.comp_size].
    assert (Hp : Z.of_nat (length (slice in_data (c + 8) s)) = s)
      by (apply length_slice; lia).
    split; [|split].
    + rewrite <- IHs. rewrite stream_of_cons. cbn [fst snd].
      unfold stream_of at 1. cbn [fmap list_fmap concat]. rewrite app_nil_r.
      unfold frame_bytes. rewrite Hp. subst o s.
      rewrite !store32_load32 by (apply length_slice_4; lia).
      replace (c + (8 + load32 native (slice in_data (c + 4) 4)))
        with (c + 4 + 4 + load32 native (slice in_data (c + 4) 4)) by lia.
      rewrite !take_slice by lia.
      rewrite <- !app_assoc. do 3 f_equal. f_equal. lia.
    + apply Forall_app. split; [exact IHv|]. constructor; [|constructor].
      unfold frame_valid. cbn [fst snd]. rewrite Hp. unfold HEADER_SIZE. lia.
    + rewrite sumZ_app, <- IHt. unfold sumZ at 1. cbn. lia.
Qed.

Lemma build_index_frames (fuel : nat) (total : Z)
  (index : list BlockIndex.t) :
  build_index native fuel in_data = Some (PyOk (total, index)) ->
  let fs := frame_of_entry in_data <$> index in
  in_data = stream_of native fs
  /\ Forall frame_valid fs
  /\ total = sumZ fst fs.
Proof.
  intros H fs.
  apply (build_index_reach native in_data in_size_valid_below_4GiB) in H.
  destruct (index_reach_frames _ H) as (Hs & Hv & Ht).
  unfold cursor in Hs. cbn [fst snd] in *.
  rewrite Nat2Z.id, take_ge in Hs by lia.
  repeat split; assumption.
Qed.

End AcceptedStream.

Lemma frame_in_stream (native : byte_order) (fs : list (Z * list byte))
  (f : Z * list byte) :
  f ∈ fs ->
  HEADER_SIZE + Z.of_nat (length (snd f))
  <= Z.of_nat (length (stream_of native fs)).
Proof.
  induction 1 as [f fs|f f' fs Hin IH]; rewrite stream_of_cons, length_app,
    Nat2Z.inj_add, length_frame_bytes; unfold HEADER_SIZE in *; lia.
Qed.

(** Frames of a stream below 4 GiB are valid as soon as their original sizes
    are. *)
Lemma frames_valid_below_4GiB (native : byte_order)
  (fs : list (Z * list byte)) :
  Z.of_nat (length (stream_of native fs)) < 2 ^ 32 ->
  Forall (fun f => 0 <= fst f <= MAX_BLOCK_SIZE) fs ->
  Forall frame_valid fs
  /\ Z.of_nat (length (stream_of native fs)) <= PY_SSIZE_T_MAX
  /\ sumZ fst fs < 2 ^ 64.
Proof.
  intros Hlen Ho.
  assert (Hv : Forall frame_valid fs).
  { apply Forall_forall. intros f Hf. split.
    - eapply Forall_forall in Ho; [exact Ho|exact Hf].
    - pose proof (frame_in_stream native fs f Hf). lia. }
  split; [exact Hv|]. split; [unfold PY_SSIZE_T_MAX; lia|].
  pose proof (sum_orig_bound fs Hv).
  pose proof (length_stream_of_ge native fs).
  unfold MAX_BLOCK_SIZE, HEADER_SIZE in *. lia.
Qed.

Section DecodedFrames.

Context {lz4 : LZ4} {lz4_dec : LZ4_decompress_contract lz4}.
Variable native : byte_order.
Variable schedule : nat -> list nat.
Hypothesis schedule_perm : forall n, Permutation (schedule n) (seq 0 n).

Lemma frame_output_length (f : Z * list byte) :
  0 <= fst f <= MAX_BLOCK_SIZE -> frame_fails f = false ->
  Z.of_nat (length (frame_output f)) = fst f.
Proof.
  intros Ho. unfold frame_fails, frame_output.
  destruct (Z.eqb_spec (Z.of_nat (length (snd f))) (fst f)) as [E|E];
    [intros _; exact E|].
  cbn [negb andb]. intros Hret. apply negb_false_iff, Z.eqb_eq in Hret.
  rewrite (int_small (fst f)) in * by (unfold MAX_BLOCK_SIZE in *; lia).
  rewrite LZ4_decompress_written; [exact Hret|]. rewrite Hret. lia.
Qed.

(** What [decompress_hybrid] returns on a stream of valid frames. *)
Lemma decompress_hybrid_frames (fs : list (Z * list byte)) :
  Forall frame_valid fs ->
  Z.of_nat (length (stream_of native fs)) <= PY_SSIZE_T_MAX ->
  sumZ fst fs < 2 ^ 64 ->
  decompress_hybrid native schedule (stream_of native fs)
  = if existsb frame_fails fs then Some (PyRaise PyExc_RuntimeError)
    else Some (PyOk (concat (frame_output <$> fs))).
Proof.
  intros Hv Hlen Hsum. destruct (existsb frame_fails fs) eqn:E.
  - apply existsb_exists in E as (f & Hin & Hf).
    apply (decompress_stream_fails native schedule schedule_perm fs Hv Hlen
             Hsum).
    exists f. split; [now apply list_elem_of_In|exact Hf].
  - apply (decompress_stream_ok native schedule schedule_perm fs Hv);
      trivial.
    intros f Hf.
    assert (Hok : frame_fails f = false).
    { destruct (frame_fails f) eqn:Ef; [|reflexivity].
      assert (existsb frame_fails fs = true); [|congruence].
      apply existsb_exists. exists f. split; [now apply list_elem_of_In|].
      exact Ef. }
    split; [exact Hok|]. apply frame_output_length; [|exact Hok].
    eapply Forall_forall in Hv; [|exact Hf]. now destruct Hv.
Qed.

(** A decode that returns data was given a stream of frames none of which
    fails. *)
Lemma decompress_hybrid_ok_frames (in_data out : list byte) :
  Z.of_nat (length in_data) < 2 ^ 32 ->
  decompress_hybrid native schedule in_data = Some (PyOk out) ->
  exists fs,
    in_data = stream_of native fs /\ Forall frame_valid fs
    /\ existsb frame_fails fs = false
    /\ out = concat (frame_output <$> fs).
Proof.
  intros Hsmall Hok.
  destruct (build_index native (S (length in_data)) in_data)
    as [[[total index]|e]|] eqn:Hidx.
  2,3: unfold decompress_hybrid in Hok; rewrite Hidx in Hok; discriminate.
  destruct (build_index_frames native in_data Hsmall _ _ _ Hidx)
    as (Hs & Hv & Ht).
  set (fs := frame_of_entry in_data <$> index) in *.
  exists fs. split; [exact Hs|]. split; [exact Hv|].
  assert (Hlen : Z.of_nat (length (stream_of native fs)) <= PY_SSIZE_T_MAX)
    by (rewrite <- Hs; unfold PY_SSIZE_T_MAX; lia).
  assert (Hsum : sumZ fst fs < 2 ^ 64).
  { pose proof (sum_orig_bound fs Hv).
    pose proof (length_stream_of_ge native fs). rewrite <- Hs in *.
    unfold MAX_BLOCK_SIZE, HEADER_SIZE in *. lia. }
  rewrite Hs, (decompress_hybrid_frames fs Hv Hlen Hsum) in Hok.
  destruct (existsb frame_fails fs); [discriminate|].
  inversion Hok. split; reflexivity.
Qed.

End DecodedFrames.

(** X1: below 4 GiB, pass 1 accepts a byte string exactly when it is a
    concatenation of frames, each an 8-byte header (an original size of at
    most [MAX_BLOCK_SIZE], then the length of the payload) followed by its
    payload. *)
Theorem accepted_streams_are_frames (native : byte_order)
  (in_data : list byte) :
  Z.of_nat (length in_data) < 2 ^ 32 ->
  (exists total index,
     build_index native (S (length in_data)) in_data
     = Some (PyOk (total, index)))
  <-> exists fs : list (Z * list byte),
        Forall (fun f => 0 <= fst f <= MAX_BLOCK_SIZE) fs
        /\ in_data = stream_of native fs.
Proof.
  intros Hsmall. split.
  - intros (total & index & Hidx).
    destruct (build_index_frames native in_data Hsmall _ _ _ Hidx)
      as (Hs & Hv & _).
    eexists. split; [|exact Hs].
    eapply Forall_impl; [exact Hv|]. intros f [Ho _]. exact Ho.
  - intros (fs & Ho & ->).
    destruct (frames_valid_below_4GiB native fs Hsmall Ho) as (Hv & Hl & Hsum).
    exists (sumZ fst fs), (index_of_frames 0 0 fs).
    now apply build_index_stream.
Qed.

Lemma accepted_streams_are_frames_witness :
  (exists total index,
     build_index little_endian (S (length three_frames)) three_frames
     = Some (PyOk (total, index)))
  <-> exists fs : list (Z * list byte),
        Forall (fun f => 0 <= fst f <= MAX_BLOCK_SIZE) fs
        /\ three_frames = stream_of little_endian fs.
Proof.
  apply (accepted_streams_are_frames little_endian three_frames).
  vm_compute. reflexivity.
Defined.

(** ** Pass 2 in any order (lines 205-244) *)

(** X2: the result of [decompress_hybrid] does not depend on the order in
    which pass 2 takes the blocks: on every input below 4 GiB two schedules
    give the same data, or the same error. LZ4 is assumed to write as many
    bytes as it returns. *)
Theorem decode_schedule_independent {lz4 : LZ4}
  {lz4_dec : LZ4_decompress_contract lz4} (native : byte_order)
  (schedule schedule' : nat -> list nat) (in_data : list byte) :
  (forall n, Permutation (schedule n) (seq 0 n)) ->
  (forall n, Permutation (schedule' n) (seq 0 n)) ->
  Z.of_nat (length in_data) < 2 ^ 32 ->
  decompress_hybrid native schedule in_data
  = decompress_hybrid native schedule' in_data.
Proof.
  intros Hs Hs' Hsmall.
  destruct (build_index native (S (length in_data)) in_data)
    as [[[total index]|e]|] eqn:Hidx.
  2,3: unfold decompress_hybrid; rewrite Hidx; reflexivity.
  destruct (build_index_frames native in_data Hsmall _ _ _ Hidx)
    as (Hfs & Hv & Ht).
  set (fs := frame_of_entry in_data <$> index) in *.
  assert (Hlen : Z.of_nat (length (stream_of native fs)) <= PY_SSIZE_T_MAX)
    by (rewrite <- Hfs; unfold PY_SSIZE_T_MAX; lia).
  assert (Hsum : sumZ fst fs < 2 ^ 64).
  { pose proof (sum_orig_bound fs Hv).
    pose proof (length_stream_of_ge native fs). rewrite <- Hfs in *.
    unfold MAX_BLOCK_SIZE, HEADER_SIZE in *. lia. }
  rewrite Hfs.
  rewrite (decompress_hybrid_frames native schedule Hs fs Hv Hlen Hsum).
  rewrite (decompress_hybrid_frames native schedule' Hs' fs Hv Hlen Hsum).
  reflexivity.
Qed.

Lemma decode_schedule_independent_witness :
  decompress_hybrid (lz4 := RunLength.codec) little_endian in_order
                    three_frames
  = decompress_hybrid (lz4 := RunLength.codec) little_endian backwards
                      three_frames.
Proof.
  apply (decode_schedule_independent (lz4 := RunLength.codec)
           (lz4_dec := run_length_decompress_contract)
           little_endian in_order backwards three_frames
           in_order_perm backwards_perm).
  vm_compute. reflexivity.
Defined.

(** The two loops agree on [error_flag], and on the buffer while the flag is
    clear. *)
Lemma decode_blocks_unsync_flag {lz4 : LZ4} (in_data : list byte)
  (index : list BlockIndex.t) (order : list (nat * bool))
  (st st' : list byte * bool) :
  snd st = snd st' -> (snd st = false -> fst st = fst st') ->
  let r := decode_blocks_unsync in_data index order st in
  let r' := decode_blocks in_data index (fst <$> order) st' in
  snd r = snd r' /\ (snd r = false -> fst r = fst r').
Proof.
  revert st st'. induction order as [|[i sees] order IH]; intros st st' Hf Ho.
  - split; assumption.
  - cbn [fmap list_fmap]. rewrite decode_blocks_cons.
    unfold decode_blocks_unsync. cbn [fold_left fst snd].
    fold (decode_blocks_unsync in_data index order).
    apply IH.
    + destruct (index !! i) as [block|]; [|exact Hf].
      destruct st as [o f], st' as [o' f']. cbn [fst snd] in *. subst f'.
      destruct f.
      * unfold decode_block_unsync, decode_block at 2. cbn [andb].
        destruct sees; [reflexivity|].
        destruct (decode_block in_data block (o, false)); reflexivity.
      * rewrite (Ho eq_refl). unfold decode_block_unsync. cbn [andb orb].
        destruct (decode_block in_data block (o', false)); reflexivity.
    + destruct (index !! i) as [block|]; [|exact Ho].
      destruct st as [o f], st' as [o' f']. cbn [fst snd] in *. subst f'.
      destruct f.
      * unfold decode_block_unsync. cbn [andb].
        destruct sees; [discriminate|].
        destruct (decode_block in_data block (o, false)). discriminate.
      * rewrite (Ho eq_refl). unfold decode_block_unsync. cbn [andb orb].
        destruct (decode_block in_data block (o', false)); reflexivity.
Qed.

(** X18: the check of [error_flag] at the head of an iteration only saves
    work: whether or not an iteration sees the flag that an earlier failure
    has set, the call returns the same data or the same error as when every
    iteration sees it. *)
Theorem unsynchronised_flag_same_result {lz4 : LZ4} (native : byte_order)
  (schedule : nat -> list (nat * bool)) (in_data : list byte) :
  decompress_hybrid_unsync native schedule in_data
  = decompress_hybrid native (fun n => fst <$> schedule n) in_data.
Proof.
  unfold decompress_hybrid_unsync, decompress_hybrid.
  destruct (build_index native (S (length in_data)) in_data)
    as [[[total index]|e]|]; try reflexivity.
  destruct (decode_blocks_unsync_flag in_data index (schedule (length index))
              (replicate (Z.to_nat total) Byte.x00, false)
              (replicate (Z.to_nat total) Byte.x00, false)
              eq_refl (fun _ => eq_refl)) as [Hf Ho].
  destruct (decode_blocks_unsync _ _ _ _) as [o f].
  destruct (decode_blocks _ _ _ _) as [o' f'].
  cbn [fst snd] in *. subst f'. destruct f; [reflexivity|].
  now rewrite (Ho eq_refl).
Qed.

(** ** Whether pass 1 ends *)

Section Termination.

Variable native : byte_order.
Variable in_data : list byte.
Hypothesis below_4GiB : Z.of_nat (length in_data) < 2 ^ 32.

Local Abbreviation in_size := (Z.of_nat (length in_data)).



End Termination.





Lemma length_stuck_stream (filler : nat) :
  Z.of_nat (length (stuck_stream filler)) = 8 + Z.of_nat filler.
Proof.
  unfold stuck_stream. rewrite length_app, length_replicate. simpl length. lia.
Qed.

Lemma header_at_stuck_stream (filler : nat) :
  header_at little_endian (stuck_stream filler) 0 = (0, 2 ^ 32 - 8).
Proof. reflexivity. Qed.

(** X4: on an input of 4 GiB or more whose first header has an original
    size of at most [MAX_BLOCK_SIZE] and the stored size [2 ^ 32 - 8], pass 1
    makes no progress: the 32-bit sum of line 183 is zero, so the cursor stays
    on byte 0 while every iteration adds an entry to the index, and the loop
    does not end (it goes on until an allocation fails, which is not
    modelled). *)
Theorem pass1_makes_no_progress {lz4 : LZ4} (native : byte_order)
  (schedule : nat -> list nat) (in_data : list byte) :
  Z.of_nat (length in_data) <= PY_SSIZE_T_MAX ->
  2 ^ 32 <= Z.of_nat (length in_data) ->
  fst (header_at native in_data 0) <= MAX_BLOCK_SIZE ->
  snd (header_at native in_data 0) = 2 ^ 32 - 8 ->
  (forall n : nat,
     exists st, index_reach native in_data st
                /\ cursor st = 0 /\ length (snd st) = n)
  /\ (forall fuel, index_loop native fuel in_data (0, 0, []) = None)
  /\ decompress_hybrid native schedule in_data = None.
Proof.
  intros Hlen Hbig Ho Hs.
  assert (Hloop : in_loop in_data 0) by (unfold in_loop, HEADER_SIZE; lia).
  assert (Hacc : header_accepted native in_data 0).
  { unfold header_accepted.
    destruct (header_at native in_data 0) as [o s]. cbn [fst snd] in *.
    unfold HEADER_SIZE. lia. }
  assert (Hstuck : forall fuel st, cursor st = 0 ->
            index_loop native fuel in_data st = None).
  { apply (index_loop_stuck native in_data Hlen 0 ltac:(lia) Hloop Hacc).
    rewrite Hs. reflexivity. }
  split; [|split].
  - induction n as [|n (st & Hreach & Hc & Hn)].
    + exists (0, 0, []). repeat split. constructor.
    + pose proof (index_step_accepts native in_data Hlen st) as E.
      rewrite Hc in E. specialize (E ltac:(lia) Hloop Hacc).
      destruct (header_at native in_data 0) as [o s]. cbn [fst snd] in *.
      eexists. split; [|split].
      * apply (reach_next _ _ st); [exact Hreach|now rewrite Hc|exact E].
      * subst s. reflexivity.
      * cbn [snd]. rewrite length_app, Hn. simpl. lia.
  - intros fuel. now apply Hstuck.
  - unfold decompress_hybrid, build_index. now rewrite Hstuck.
Qed.

Lemma pass1_makes_no_progress_witness :
  (forall n : nat,
     exists st, index_reach little_endian stuck_4GiB st
                /\ cursor st = 0 /\ length (snd st) = n)
  /\ (forall fuel, index_loop little_endian fuel stuck_4GiB (0, 0, []) = None)
  /\ decompress_hybrid (lz4 := RunLength.codec) little_endian in_order
                       stuck_4GiB = None.
Proof.
  assert (Hfiller : Z.of_nat (Z.to_nat (2 ^ 32 - 8)) = 2 ^ 32 - 8)
    by (apply Z2Nat.id; lia).
  apply (pass1_makes_no_progress (lz4 := RunLength.codec) little_endian
           in_order stuck_4GiB); unfold stuck_4GiB.
  - rewrite length_stuck_stream, Hfiller. unfold PY_SSIZE_T_MAX. lia.
  - rewrite length_stuck_stream, Hfiller. lia.
  - rewrite header_at_stuck_stream. cbn [fst]. unfold MAX_BLOCK_SIZE. lia.
  - rewrite header_at_stuck_stream. reflexivity.
Defined.

(** ** What the index and the output are bounded by *)

Lemma index_tiled_out (index : list BlockIndex.t) :
  Forall (fun e => 0 <= BlockIndex.orig_size e) index ->
  forall a b, index_tiled a b index ->
    b <= snd (index_end a b index)
    /\ forall e, e ∈ index ->
         b <= BlockIndex.out_offset e
         /\ BlockIndex.out_offset e + BlockIndex.orig_size e
            <= snd (index_end a b index).
Proof.
  induction 1 as [|e0 index He0 Hrest IH]; intros a b Ht.
  - split; [simpl; lia|]. intros e He. inversion He.
  - destruct Ht as (_ & Hout & Ht). cbn [index_end].
    destruct (IH _ _ Ht) as [Hend Hall].
    split; [lia|]. intros e He. apply elem_of_cons in He as [->|He].
    + lia.
    + destruct (Hall e He). lia.
Qed.

(** X5: every entry of the index that pass 1 returns stays inside the
    input: its payload starts after a header and ends on or before the end of
    the input, and its original size is at most [MAX_BLOCK_SIZE], whatever
    the size of the input. Below 4 GiB its output region lies inside the
    output buffer. *)
Theorem index_entries_in_bounds (native : byte_order) (in_data : list byte)
  (total : Z) (index : list BlockIndex.t) (e : BlockIndex.t) :
  Z.of_nat (length in_data) <= PY_SSIZE_T_MAX ->
  build_index native (S (length in_data)) in_data
  = Some (PyOk (total, index)) ->
  e ∈ index ->
  (HEADER_SIZE <= BlockIndex.in_offset e
   /\ 0 <= BlockIndex.comp_size e
   /\ BlockIndex.in_offset e + BlockIndex.comp_size e
      <= Z.of_nat (length in_data)
   /\ 0 <= BlockIndex.orig_size e <= MAX_BLOCK_SIZE)
  /\ (Z.of_nat (length in_data) < 2 ^ 32 ->
      0 <= BlockIndex.out_offset e
      /\ BlockIndex.out_offset e + BlockIndex.orig_size e <= total).
Proof.
  intros Hlen Hidx He.
  pose proof (build_index_checked native in_data Hlen _ _ _ Hidx) as Hchk.
  split.
  - eapply Forall_forall in Hchk; [|exact He].
    destruct Hchk as (Ho & Hc & Hi & Hb). repeat split; lia.
  - intros Hsmall.
    apply (build_index_reach native in_data Hlen) in Hidx.
    destruct (index_reach_tiled native in_data Hlen _ Hsmall Hidx)
      as (Ht & Hend & _).
    cbn [fst snd] in *.
    assert (Hnn : Forall (fun e => 0 <= BlockIndex.orig_size e) index).
    { eapply Forall_impl; [exact Hchk|]. intros e' (Ho & _). lia. }
    destruct (index_tiled_out index Hnn 0 0 Ht) as [_ Hall].
    rewrite Hend in Hall. cbn [snd] in Hall. now apply Hall.
Qed.

Lemma index_entries_in_bounds_witness :
  (HEADER_SIZE <= 18 /\ 0 <= 2
   /\ 18 + 2 <= Z.of_nat (length three_frames)
   /\ 0 <= 4 <= MAX_BLOCK_SIZE)
  /\ (Z.of_nat (length three_frames) < 2 ^ 32 -> 0 <= 4 /\ 4 + 4 <= 10).
Proof.
  apply (index_entries_in_bounds little_endian three_frames 10
           [BlockIndex.mk 8 0 2 4; BlockIndex.mk 18 4 2 4;
            BlockIndex.mk 28 8 2 2] (BlockIndex.mk 18 4 2 4)).
  - vm_compute. discriminate.
  - vm_compute. reflexivity.
  - apply list_elem_of_In. simpl. auto.
Defined.

(** Pass 2 keeps the length of the output buffer. *)
Lemma length_decode_blocks {lz4 : LZ4} (in_data : list byte)
  (index : list BlockIndex.t) (order : list nat) (st : list byte * bool) :
  length (fst (decode_blocks in_data index order st)) = length (fst st).
Proof.
  revert st. induction order as [|i order IH]; intros st; [reflexivity|].
  rewrite decode_blocks_cons, IH.
  destruct (index !! i) as [block|]; [|reflexivity].
  destruct st as [out flag]. unfold decode_block.
  destruct flag; [reflexivity|].
  destruct (_ =? _); [apply length_memcpy|].
  destruct (LZ4_decompress_safe _ _ _) as [ret written].
  apply length_memcpy.
Qed.

Lemma decompress_hybrid_ok_index {lz4 : LZ4} (native : byte_order)
  (schedule : nat -> list nat) (in_data out : list byte) :
  decompress_hybrid native schedule in_data = Some (PyOk out) ->
  exists total index,
    build_index native (S (length in_data)) in_data
    = Some (PyOk (total, index))
    /\ length out = Z.to_nat total.
Proof.
  intros Hok.
  destruct (build_index native (S (length in_data)) in_data)
    as [[[total index]|e]|] eqn:Hidx.
  2,3: unfold decompress_hybrid in Hok; rewrite Hidx in Hok; discriminate.
  exists total, index. split; [reflexivity|].
  rewrite (decompress_hybrid_indexed native schedule in_data _ _ Hidx) in Hok.
  pose proof (length_decode_blocks in_data index (schedule (length index))
                (replicate (Z.to_nat total) Byte.x00, false)) as Hl.
  destruct (decode_blocks _ _ _ _) as [o flag]. cbn [fst] in Hl.
  destruct flag; [discriminate|]. inversion Hok; subst o.
  now rewrite length_replicate in Hl.
Qed.

(** X6: below 4 GiB the index has at most [in_size / 8] entries; the size
    of the output buffer is the sum of the original sizes of the headers, at
    most [MAX_BLOCK_SIZE] for each, so at most [MAX_BLOCK_SIZE / 8] times the
    length of the input; data that the call returns has that length. *)
Theorem decoded_size_bound {lz4 : LZ4} (native : byte_order)
  (schedule : nat -> list nat) (in_data : list byte) (total : Z)
  (index : list BlockIndex.t) :
  Z.of_nat (length in_data) < 2 ^ 32 ->
  build_index native (S (length in_data)) in_data
  = Some (PyOk (total, index)) ->
  HEADER_SIZE * Z.of_nat (length index) <= Z.of_nat (length in_data)
  /\ total = sumZ BlockIndex.orig_size index
  /\ 0 <= total <= MAX_BLOCK_SIZE * Z.of_nat (length index)
  /\ HEADER_SIZE * total <= MAX_BLOCK_SIZE * Z.of_nat (length in_data)
  /\ forall out,
       decompress_hybrid native schedule in_data = Some (PyOk out) ->
       Z.of_nat (length out) = total.
Proof.
  intros Hsmall Hidx.
  destruct (build_index_frames native in_data Hsmall _ _ _ Hidx)
    as (Hs & Hv & Ht).
  pose proof (sum_orig_bound _ Hv) as Hsum.
  pose proof (length_stream_of_ge native (frame_of_entry in_data <$> index))
    as Hcount.
  rewrite <- Hs in Hcount. rewrite length_fmap in Hsum, Hcount.
  rewrite <- Ht in Hsum. rewrite sumZ_fmap in Ht.
  split; [unfold HEADER_SIZE in *; lia|]. split; [exact Ht|].
  split; [exact Hsum|].
  split; [unfold HEADER_SIZE, MAX_BLOCK_SIZE in *; lia|].
  intros out Hout.
  apply decompress_hybrid_ok_index in Hout as (t & idx & Hidx' & Hl).
  rewrite Hidx in Hidx'. inversion Hidx'; subst t idx. lia.
Qed.

Lemma decoded_size_bound_witness :
  HEADER_SIZE * Z.of_nat 3 <= Z.of_nat (length three_frames)
  /\ 10 = sumZ BlockIndex.orig_size
               [BlockIndex.mk 8 0 2 4; BlockIndex.mk 18 4 2 4;
                BlockIndex.mk 28 8 2 2]
  /\ 0 <= 10 <= MAX_BLOCK_SIZE * Z.of_nat 3
  /\ HEADER_SIZE * 10 <= MAX_BLOCK_SIZE * Z.of_nat (length three_frames)
  /\ forall out,
       decompress_hybrid (lz4 := RunLength.codec) little_endian backwards
                         three_frames = Some (PyOk out) ->
       Z.of_nat (length out) = 10.
Proof.
  apply (decoded_size_bound (lz4 := RunLength.codec) little_endian backwards
           three_frames 10
           [BlockIndex.mk 8 0 2 4; BlockIndex.mk 18 4 2 4;
            BlockIndex.mk 28 8 2 2]).
  - vm_compute. reflexivity.
  - vm_compute. reflexivity.
Defined.

(** ** Truncated and short streams *)



Lemma decode_blocks_nil {lz4 : LZ4} (in_data : list byte) (order : list nat)
  (st : list byte * bool) :
  decode_blocks in_data [] order st = st.
Proof.
  induction order as [|i order IH]; [reflexivity|].
  rewrite decode_blocks_cons. exact IH.
Qed.

(** X8: an input shorter than a header: the empty input decodes to the
    empty output, and an input of one to seven bytes raises
    [RuntimeError]. *)
Theorem short_stream {lz4 : LZ4} (native : byte_order)
  (schedule : nat -> list nat) (in_data : list byte) :
  (length in_data < 8)%nat ->
  decompress_hybrid native schedule in_data
  = match in_data with
    | [] => Some (PyOk [])
    | _ :: _ => Some (PyRaise PyExc_RuntimeError)
    end.
Proof.
  intros Hshort.
  assert (Hlen : Z.of_nat (length in_data) <= PY_SSIZE_T_MAX)
    by (unfold PY_SSIZE_T_MAX; lia).
  assert (Hloop : index_loop native (S (length in_data)) in_data (0, 0, [])
                  = Some (PyOk (0, 0, []))).
  { apply index_loop_out; trivial; unfold cursor, in_loop, HEADER_SIZE;
      cbn [fst]; lia. }
  unfold decompress_hybrid, build_index. rewrite Hloop.
  destruct in_data as [|b rest]; [|reflexivity].
  cbn [length]. change (Z.of_nat 0) with 0. cbn -[decode_blocks].
  now rewrite decode_blocks_nil.
Qed.

Lemma short_stream_witness :
  decompress_hybrid (lz4 := RunLength.codec) little_endian in_order []
  = Some (PyOk [])
  /\ decompress_hybrid (lz4 := RunLength.codec) big_endian backwards
       [Byte.x00; Byte.x00; Byte.x00; Byte.x00; Byte.x00; Byte.x00; Byte.x00]
     = Some (PyRaise PyExc_RuntimeError).
Proof.
  split.
  - apply (short_stream (lz4 := RunLength.codec) little_endian in_order []).
    simpl. lia.
  - apply (short_stream (lz4 := RunLength.codec) big_endian backwards
             [Byte.x00; Byte.x00; Byte.x00; Byte.x00;
              Byte.x00; Byte.x00; Byte.x00]).
    simpl. lia.
Defined.

(** ** Streams written one after the other *)

(** X9: two streams that decode, written one after the other, decode to
    the concatenation of their outputs (below 4 GiB in all). *)
Theorem decompress_hybrid_app {lz4 : LZ4}
  {lz4_dec : LZ4_decompress_contract lz4} (native : byte_order)
  (schedule : nat -> list nat) (s1 s2 d1 d2 : list byte) :
  (forall n, Permutation (schedule n) (seq 0 n)) ->
  Z.of_nat (length (s1 ++ s2)) < 2 ^ 32 ->
  decompress_hybrid native schedule s1 = Some (PyOk d1) ->
  decompress_hybrid native schedule s2 = Some (PyOk d2) ->
  decompress_hybrid native schedule (s1 ++ s2) = Some (PyOk (d1 ++ d2)).
Proof.
  intros Hs Hsmall H1 H2. rewrite length_app in Hsmall.
  apply (decompress_hybrid_ok_frames native schedule Hs) in H1
    as (fs1 & -> & Hv1 & Hf1 & ->); [|lia].
  apply (decompress_hybrid_ok_frames native schedule Hs) in H2
    as (fs2 & -> & Hv2 & Hf2 & ->); [|lia].
  rewrite <- stream_of_app.
  assert (Hv : Forall frame_valid (fs1 ++ fs2)) by now apply Forall_app.
  rewrite (decompress_hybrid_frames native schedule Hs (fs1 ++ fs2) Hv).
  - rewrite existsb_app, Hf1, Hf2. cbn [orb].
    now rewrite fmap_app, concat_app.
  - rewrite stream_of_app, length_app. unfold PY_SSIZE_T_MAX. lia.
  - pose proof (sum_orig_bound _ Hv) as Hb.
    pose proof (length_stream_of_ge native (fs1 ++ fs2)) as Hc.
    rewrite stream_of_app, !length_app in Hc. rewrite length_app in Hb.
    unfold MAX_BLOCK_SIZE, HEADER_SIZE in *. lia.
Qed.

Lemma decompress_hybrid_app_witness :
  decompress_hybrid (lz4 := RunLength.codec) little_endian backwards
    ([Byte.x04; Byte.x00; Byte.x00; Byte.x00;
      Byte.x02; Byte.x00; Byte.x00; Byte.x00; Byte.x04; Byte.x41]
     ++ [Byte.x02; Byte.x00; Byte.x00; Byte.x00;
         Byte.x02; Byte.x00; Byte.x00; Byte.x00; Byte.x42; Byte.x43])
  = Some (PyOk (replicate 4 Byte.x41 ++ [Byte.x42; Byte.x43])).
Proof.
  apply (decompress_hybrid_app (lz4 := RunLength.codec)
           (lz4_dec := run_length_decompress_contract)
           little_endian backwards
           [Byte.x04; Byte.x00; Byte.x00; Byte.x00;
            Byte.x02; Byte.x00; Byte.x00; Byte.x00; Byte.x04; Byte.x41]
           [Byte.x02; Byte.x00; Byte.x00; Byte.x00;
            Byte.x02; Byte.x00; Byte.x00; Byte.x00; Byte.x42; Byte.x43]
           (replicate 4 Byte.x41) [Byte.x42; Byte.x43] backwards_perm).
  - vm_compute. reflexivity.
  - vm_compute. reflexivity.
  - vm_compute. reflexivity.
Defined.



(** X11: a stream of frames that store their block verbatim (the stored
    size is the original size) decodes to the concatenation of the payloads,
    whatever LZ4 does: pass 2 copies such a block and does not call LZ4. *)
Theorem stored_frames_decode {lz4 : LZ4} (native : byte_order)
  (schedule : nat -> list nat) (payloads : list (list byte)) :
  (forall n, Permutation (schedule n) (seq 0 n)) ->
  Forall (fun p => Z.of_nat (length p) <= MAX_BLOCK_SIZE) payloads ->
  let fs := (fun p => (Z.of_nat (length p), p)) <$> payloads in
  Z.of_nat (length (stream_of native fs)) <= PY_SSIZE_T_MAX ->
  decompress_hybrid native schedule (stream_of native fs)
  = Some (PyOk (concat payloads)).
Proof.
  intros Hs Hp fs Hlen.
  assert (Hout : frame_output <$> fs = payloads).
  { unfold fs. rewrite <- list_fmap_compose.
    rewrite <- (list_fmap_id payloads) at 2. apply list_fmap_ext.
    intros i p _. unfold frame_output. cbn [compose fst snd].
    now rewrite Z.eqb_refl. }
  rewrite <- Hout.
  apply (decompress_stream_ok native schedule Hs fs).
  - apply Forall_forall. intros f Hf.
    apply list_elem_of_fmap in Hf as (p & -> & Hin).
    eapply Forall_forall in Hp; [|exact Hin].
    unfold frame_valid, MAX_BLOCK_SIZE, HEADER_SIZE in *. cbn [fst snd]. lia.
  - intros f Hf. apply list_elem_of_fmap in Hf as (p & -> & Hin).
    unfold frame_fails, frame_output. cbn [fst snd].
    now rewrite Z.eqb_refl.
  - exact Hlen.
  - rewrite length_stream_of in Hlen.
    assert (sumZ fst fs
            <= sumZ (fun f => HEADER_SIZE + Z.of_nat (length (snd f))) fs).
    { apply sumZ_le. apply Forall_forall. intros f Hf.
      apply list_elem_of_fmap in Hf as (p & -> & Hin).
      cbn [fst snd]. unfold HEADER_SIZE. lia. }
    unfold PY_SSIZE_T_MAX in *. lia.
Qed.

Lemma stored_frames_decode_witness :
  decompress_hybrid (lz4 := RunLength.codec) big_endian backwards
    (stream_of big_endian
       [(2, [Byte.x41; Byte.x42]); (0, []); (1, [Byte.x43])])
  = Some (PyOk [Byte.x41; Byte.x42; Byte.x43]).
Proof.
  apply (stored_frames_decode (lz4 := RunLength.codec) big_endian backwards
           [[Byte.x41; Byte.x42]; []; [Byte.x43]] backwards_perm).
  - repeat constructor; cbn; unfold MAX_BLOCK_SIZE; lia.
  - vm_compute. discriminate.
Defined.

(** ** The parallel loop of the encoder (lines 51-90) *)

Lemma sumZ_perm {A : Type} (f : A -> Z) (l l' : list A) :
  Permutation l l' -> sumZ f l = sumZ f l'.
Proof.
  induction 1 as [|a l l' Hp IH|a b l|l l' l'' H1 IH1 H2 IH2];
    rewrite ?sumZ_cons; lia.
Qed.

(** The reduction: the sum of the terms modulo [2 ^ 64], in any order. *)
Lemma fold_size_t_sum {A : Type} (x : A -> Z) (l : list A) (t : Z) :
  fold_left (fun acc a => size_t (acc + x a)) l (size_t t)
  = size_t (t + sumZ x l).
Proof.
  revert t. induction l as [|a l IH]; intros t.
  - unfold sumZ. simpl. now rewrite Z.add_0_r.
  - cbn [fold_left]. rewrite sumZ_cons.
    replace (size_t (size_t t + x a)) with (size_t (t + x a))
      by (unfold size_t; now rewrite Zplus_mod_idemp_l).
    rewrite IH. f_equal. lia.
Qed.

Section EncoderLoop.

Context {lz4 : LZ4}.
Variable in_data : list byte.
Variable block_size : Z.

Local Abbreviation block i :=
  (compress_block in_data block_size (Z.of_nat i)).
Local Abbreviation term i :=
  (int (BlockResult.comp_size (block i) + HEADER_SIZE)).

Lemma compress_loop_split (order : list nat) (results : list BlockResult.t)
  (total : Z) :
  compress_loop in_data block_size order (results, total)
  = (fold_left (fun rs i => <[i := block i]> rs) order results,
     fold_left (fun acc i => size_t (acc + term i)) order total).
Proof.
  revert results total. induction order as [|i order IH]; intros;
    [reflexivity|].
  unfold compress_loop in *. cbn [fold_left compress_step]. apply IH.
Qed.

Lemma lookup_fold_insert (order : list nat) (results : list BlockResult.t)
  (j : nat) :
  fold_left (fun rs i => <[i := block i]> rs) order results !! j
  = if decide (j ∈ order)
    then (if decide (j < length results)%nat then Some (block j) else None)
    else results !! j.
Proof.
  revert results. induction order as [|i order IH]; intros results.
  - cbn [fold_left]. destruct (decide (j ∈ [])) as [H|_]; [inversion H|].
    reflexivity.
  - cbn [fold_left]. rewrite IH, length_insert.
    destruct (decide (j ∈ order)) as [Hin|Hout].
    + destruct (decide (j ∈ i :: order)) as [_|H]; [reflexivity|].
      exfalso. apply H. now right.
    + destruct (decide (j = i)) as [->|Hne].
      * destruct (decide (i ∈ i :: order)) as [_|H];
          [|exfalso; apply H; left].
        destruct (decide (i < length results)%nat) as [Hlt|Hge].
        -- now apply list_lookup_insert_eq.
        -- rewrite list_insert_ge by lia. apply lookup_ge_None. lia.
      * destruct (decide (j ∈ i :: order)) as [H|_].
        -- apply elem_of_cons in H as [H|H]; contradiction.
        -- now apply list_lookup_insert_ne.
Qed.

Lemma compress_loop_results (order : list nat) (n : nat) :
  Permutation order (seq 0 n) ->
  fold_left (fun rs i => <[i := block i]> rs) order
            (replicate n BlockResult_zero)
  = (fun i => block i) <$> seq 0 n.
Proof.
  intros Hp. apply list_eq. intros j.
  rewrite lookup_fold_insert, length_replicate, list_lookup_fmap.
  destruct (decide (j ∈ order)) as [Hin|Hout].
  - rewrite Hp in Hin. apply elem_of_seq in Hin.
    destruct (decide (j < n)%nat); [|lia].
    rewrite lookup_seq_lt by lia. reflexivity.
  - assert (Hge : (n <= j)%nat).
    { destruct (Nat.le_gt_cases n j) as [H|H]; [exact H|].
      exfalso. apply Hout. rewrite Hp. apply elem_of_seq. lia. }
    rewrite (proj1 (lookup_replicate_None n BlockResult_zero j) Hge).
    rewrite lookup_seq_ge by lia. reflexivity.
Qed.

Lemma total_comp_size_of_fmap (l : list nat) :
  total_comp_size_of ((fun i => block i) <$> l)
  = fold_left (fun acc i => size_t (acc + term i)) l 0.
Proof.
  unfold total_comp_size_of. generalize 0.
  induction l as [|i l IH]; intros acc; [reflexivity|].
  cbn [fmap list_fmap fold_left]. apply IH.
Qed.

Lemma compress_loop_total (order : list nat) (n : nat) :
  Permutation order (seq 0 n) ->
  fold_left (fun acc i => size_t (acc + term i)) order 0
  = total_comp_size_of ((fun i => block i) <$> seq 0 n).
Proof.
  intros Hp. rewrite total_comp_size_of_fmap.
  change 0 with (size_t 0).
  rewrite !(fold_size_t_sum (fun i => term i)).
  now rewrite (sumZ_perm _ _ _ Hp).
Qed.

End EncoderLoop.

(** X19: the output of [compress_hybrid] does not depend on the order in
    which the parallel loop takes the blocks: iteration [i] writes
    [results[i]] only, and the reduction adds the same terms modulo
    [2 ^ 64]. *)
Theorem encode_schedule_independent {lz4 : LZ4} (native : byte_order)
  (schedule : nat -> list nat) (in_data : list byte) (block_size : Z) :
  (forall n, Permutation (schedule n) (seq 0 n)) ->
  compress_hybrid_scheduled native schedule in_data block_size
  = compress_hybrid native in_data block_size.
Proof.
  intros Hs. unfold compress_hybrid_scheduled, compress_hybrid.
  destruct (MAX_BLOCK_SIZE <? block_size); [reflexivity|].
  destruct (block_size =? 0); [reflexivity|].
  cbv zeta. rewrite compress_loop_split.
  rewrite (compress_loop_results in_data block_size _ _ (Hs _)).
  rewrite (compress_loop_total in_data block_size _ _ (Hs _)).
  reflexivity.
Qed.

Lemma encode_schedule_independent_witness :
  compress_hybrid_scheduled (lz4 := RunLength.codec) little_endian backwards
                            (replicate 10 Byte.x41) 4
  = compress_hybrid (lz4 := RunLength.codec) little_endian
                    (replicate 10 Byte.x41) 4.
Proof.
  apply (encode_schedule_independent (lz4 := RunLength.codec) little_endian
           backwards (replicate 10 Byte.x41) 4 backwards_perm).
Defined.

(** ** Encoding a concatenation *)

Lemma slice_app_r (s t : list byte) (off len : Z) :
  Z.of_nat (length s) <= off ->
  slice (s ++ t) off len = slice t (off - Z.of_nat (length s)) len.
Proof.
  intros H. unfold slice. rewrite drop_app_ge by lia. do 2 f_equal. lia.
Qed.

(** The frame of a block depends on the input through the bytes of the
    block only. *)
Lemma compress_block_frame {lz4 : LZ4} (d d' : list byte)
  (block_size i i' : Z) :
  block_length (Z.of_nat (length d')) block_size i'
  = block_length (Z.of_nat (length d)) block_size i ->
  (forall len,
     0 <= len <= block_length (Z.of_nat (length d)) block_size i ->
     slice d' (block_offset block_size i') len
     = slice d (block_offset block_size i) len) ->
  0 <= block_length (Z.of_nat (length d)) block_size i <= MAX_BLOCK_SIZE ->
  frame_of_result (compress_block d' block_size i')
  = frame_of_result (compress_block d block_size i).
Proof.
  intros HL Hs Hrange. unfold compress_block. cbv zeta. rewrite HL.
  rewrite (int_small (block_length _ _ i))
    by (unfold MAX_BLOCK_SIZE in *; lia).
  rewrite !Hs by lia.
  destruct (_ && _); reflexivity.
Qed.

Lemma whole_blocks_count (n block_size k : Z) :
  0 < block_size -> 0 <= n -> n = k * block_size -> 0 <= k.
Proof. nia. Qed.

Section EncoderConcat.

Context {lz4 : LZ4}.
Variables a b : list byte.
Variables block_size k : Z.
Hypothesis block_size_valid : 0 < block_size <= MAX_BLOCK_SIZE.
Hypothesis whole_blocks : Z.of_nat (length a) = k * block_size.
Hypothesis size_valid : Z.of_nat (length (a ++ b)) <= PY_SSIZE_T_MAX.

Local Abbreviation len_a := (Z.of_nat (length a)).
Local Abbreviation len_b := (Z.of_nat (length b)).

Lemma num_blocks_of_whole : num_blocks_of len_a block_size = k.
Proof.
  pose proof (whole_blocks_count len_a block_size k ltac:(lia) ltac:(lia)
                whole_blocks).
  rewrite length_app in size_valid.
  rewrite num_blocks_of_div by lia. rewrite whole_blocks.
  replace (k * block_size + block_size - 1)
    with (k * block_size + (block_size - 1)) by lia.
  rewrite Z.div_add_l by lia. rewrite Z.div_small by lia. lia.
Qed.

Lemma num_blocks_of_app :
  num_blocks_of (Z.of_nat (length (a ++ b))) block_size
  = k + num_blocks_of len_b block_size.
Proof.
  pose proof (whole_blocks_count len_a block_size k ltac:(lia) ltac:(lia)
                whole_blocks).
  pose proof size_valid as Hsize. rewrite length_app in Hsize.
  rewrite !num_blocks_of_div by lia.
  rewrite length_app, Nat2Z.inj_add, whole_blocks.
  replace (k * block_size + len_b + block_size - 1)
    with (k * block_size + (len_b + block_size - 1)) by lia.
  rewrite Z.div_add_l by lia. reflexivity.
Qed.

Lemma frame_of_block_l (i : Z) :
  0 <= i < k ->
  frame_of_result (compress_block (a ++ b) block_size i)
  = frame_of_result (compress_block a block_size i).
Proof.
  intros Hi.
  pose proof size_valid as Hsize. rewrite length_app in Hsize.
  assert (Ha : 0 <= len_a <= PY_SSIZE_T_MAX) by lia.
  assert (Hab : 0 <= Z.of_nat (length (a ++ b)) <= PY_SSIZE_T_MAX) by lia.
  pose proof (block_length_range len_a block_size block_size_valid Ha i
                ltac:(rewrite num_blocks_of_whole; lia)) as [Hl Hend].
  pose proof (block_length_min len_a block_size block_size_valid Ha i
                ltac:(rewrite num_blocks_of_whole; lia)) as Hmin.
  pose proof (num_blocks_ceil b block_size block_size_valid ltac:(lia))
    as (Hnb & _).
  apply compress_block_frame.
  - rewrite Hmin.
    rewrite (block_length_min _ block_size block_size_valid Hab i)
      by (rewrite num_blocks_of_app; lia).
    rewrite length_app, Nat2Z.inj_add. nia.
  - intros len Hlen.
    rewrite (block_offset_mul (Z.of_nat (length (a ++ b))) block_size
               block_size_valid Hab i)
      by (rewrite num_blocks_of_app; lia).
    apply slice_app_l; nia.
  - lia.
Qed.

Lemma frame_of_block_r (j : Z) :
  0 <= j < num_blocks_of len_b block_size ->
  frame_of_result (compress_block (a ++ b) block_size (k + j))
  = frame_of_result (compress_block b block_size j).
Proof.
  intros Hj.
  pose proof (whole_blocks_count len_a block_size k ltac:(lia) ltac:(lia)
                whole_blocks).
  pose proof size_valid as Hsize. rewrite length_app in Hsize.
  assert (Hb : 0 <= len_b <= PY_SSIZE_T_MAX) by lia.
  assert (Hab : 0 <= Z.of_nat (length (a ++ b)) <= PY_SSIZE_T_MAX) by lia.
  pose proof (block_length_range len_b block_size block_size_valid Hb j Hj)
    as [Hl Hend].
  pose proof (block_length_min len_b block_size block_size_valid Hb j Hj)
    as Hmin.
  apply compress_block_frame.
  - rewrite Hmin.
    rewrite (block_length_min _ block_size block_size_valid Hab (k + j))
      by (rewrite num_blocks_of_app; lia).
    rewrite length_app, Nat2Z.inj_add. nia.
  - intros len Hlen.
    rewrite (block_offset_mul (Z.of_nat (length (a ++ b))) block_size
               block_size_valid Hab (k + j))
      by (rewrite num_blocks_of_app; lia).
    rewrite (block_offset_mul len_b block_size block_size_valid Hb j Hj).
    rewrite slice_app_r by nia. f_equal. nia.
  - lia.
Qed.

Lemma frames_of_app :
  frame_of_result <$> block_results (a ++ b) block_size
  = (frame_of_result <$> block_results a block_size)
    ++ (frame_of_result <$> block_results b block_size).
Proof.
  pose proof (whole_blocks_count len_a block_size k ltac:(lia) ltac:(lia)
                whole_blocks).
  pose proof size_valid as Hsize. rewrite length_app in Hsize.
  pose proof (num_blocks_ceil b block_size block_size_valid ltac:(lia))
    as (Hnb & _).
  unfold block_results.
  rewrite num_blocks_of_app, num_blocks_of_whole.
  rewrite Z2Nat.inj_add, seq_app, !fmap_app by lia. cbn [Nat.add].
  rewrite <- !list_fmap_compose. f_equal.
  - apply list_fmap_ext. intros n i Hi. apply lookup_seq in Hi as [-> Hlt].
    cbn [compose Nat.add]. apply frame_of_block_l. lia.
  - replace (seq (Z.to_nat k) (Z.to_nat (num_blocks_of len_b block_size)))
      with (Nat.add (Z.to_nat k)
              <$> seq 0 (Z.to_nat (num_blocks_of len_b block_size)))
      by (rewrite fmap_add_seq; f_equal; lia).
    rewrite <- list_fmap_compose.
    apply list_fmap_ext. intros n i Hi. apply lookup_seq in Hi as [-> Hlt].
    cbn [compose Nat.add]. rewrite Nat2Z.inj_add, Z2Nat.id by lia.
    apply frame_of_block_r. lia.
Qed.

End EncoderConcat.

(** X12: when the length of [a] is a multiple of the block size, the
    encoding of [a ++ b] is the encoding of [a] followed by the encoding of
    [b]. *)
Theorem compress_hybrid_app {lz4 : LZ4} (native : byte_order)
  (a b : list byte) (block_size : Z) :
  0 < block_size <= MAX_BLOCK_SIZE ->
  Z.of_nat (length a) mod block_size = 0 ->
  Z.of_nat (length (a ++ b))
  + num_blocks_of (Z.of_nat (length (a ++ b))) block_size * HEADER_SIZE
  <= PY_SSIZE_T_MAX ->
  exists ea eb,
    compress_hybrid native a block_size = PyOk ea
    /\ compress_hybrid native b block_size = PyOk eb
    /\ compress_hybrid native (a ++ b) block_size = PyOk (ea ++ eb).
Proof.
  intros Hbs Hmod Hsize.
  pose proof (Z.div_mod (Z.of_nat (length a)) block_size ltac:(lia)) as Hk.
  rewrite Hmod, Z.add_0_r, Z.mul_comm in Hk.
  set (k := Z.of_nat (length a) / block_size) in *.
  assert (Hnab : 0 <= num_blocks_of (Z.of_nat (length (a ++ b))) block_size).
  { unfold num_blocks_of. apply Z.div_pos; [|lia]. apply size_t_range. }
  assert (Hlen : Z.of_nat (length (a ++ b)) <= PY_SSIZE_T_MAX)
    by (unfold HEADER_SIZE in *; lia).
  pose proof (num_blocks_of_app a b block_size k Hbs Hk Hlen) as Hn.
  pose proof (num_blocks_of_whole a b block_size k Hbs Hk Hlen) as Hna.
  pose proof (whole_blocks_count (Z.of_nat (length a)) block_size k
                ltac:(lia) ltac:(lia) Hk) as Hk0.
  pose proof Hlen as Hlen'. rewrite length_app, Nat2Z.inj_add in Hlen'.
  pose proof (num_blocks_ceil b block_size Hbs ltac:(lia)) as (Hnb & _).
  rewrite Hn in Hsize. rewrite length_app, Nat2Z.inj_add in Hsize.
  exists (concat (frame_of native <$> block_results a block_size)),
         (concat (frame_of native <$> block_results b block_size)).
  split; [|split].
  - apply compress_hybrid_frames; trivial; [lia|].
    rewrite Hna. unfold HEADER_SIZE in *. lia.
  - apply compress_hybrid_frames; trivial; unfold HEADER_SIZE in *; lia.
  - rewrite compress_hybrid_frames; trivial;
      [|rewrite Hn, length_app, Nat2Z.inj_add; lia].
    f_equal. rewrite <- !stream_of_results.
    rewrite (frames_of_app a b block_size k Hbs Hk Hlen).
    apply stream_of_app.
Qed.

Lemma compress_hybrid_app_witness :
  exists ea eb,
    compress_hybrid (lz4 := RunLength.codec) little_endian
                    (replicate 8 Byte.x41) 4 = PyOk ea
    /\ compress_hybrid (lz4 := RunLength.codec) little_endian
                       [Byte.x42; Byte.x43] 4 = PyOk eb
    /\ compress_hybrid (lz4 := RunLength.codec) little_endian
                       (replicate 8 Byte.x41 ++ [Byte.x42; Byte.x43]) 4
       = PyOk (ea ++ eb).
Proof.
  apply (compress_hybrid_app (lz4 := RunLength.codec) little_endian
           (replicate 8 Byte.x41) [Byte.x42; Byte.x43] 4).
  - vm_compute. split; [reflexivity|discriminate].
  - reflexivity.
  - vm_compute. discriminate.
Defined.

Section EncodedFrames.

Context {lz4 : LZ4} {lz4_ok : LZ4_contract lz4}.
Variable in_data : list byte.
Variable block_size : Z.
Hypothesis block_size_valid : 0 < block_size <= MAX_BLOCK_SIZE.
Hypothesis in_size_valid : Z.of_nat (length in_data) <= PY_SSIZE_T_MAX.

Local Abbreviation fs :=
  (frame_of_result <$> block_results in_data block_size).

Lemma encoded_frames_valid : Forall frame_valid fs.
Proof.
  apply Forall_forall. intros f Hf.
  apply list_elem_of_fmap in Hf as (r & -> & Hr).
  now apply (frame_of_result_valid in_data block_size).
Qed.

Lemma encoded_frames_decode (f : Z * list byte) :
  f ∈ fs ->
  frame_fails f = false /\ Z.of_nat (length (frame_output f)) = fst f.
Proof.
  intros Hf. apply list_elem_of_fmap in Hf as (r & -> & Hr).
  destruct (frame_of_result_decodes in_data block_size block_size_valid
              in_size_valid r Hr) as [Hfail Hdata].
  split; [exact Hfail|]. rewrite Hdata.
  apply elem_of_results in Hr as (i & Hi & ->).
  destruct (compress_block_fields in_data block_size block_size_valid
              in_size_valid i Hi) as (Hoff & Hor & _).
  pose proof (block_length_range _ block_size block_size_valid
                (in_size_range in_data in_size_valid) i Hi) as [Hlen Hend].
  unfold frame_of_result, block_data. cbn [fst].
  rewrite Hoff, Hor. apply length_slice; lia.
Qed.

Lemma encoded_frames_output :
  concat (frame_output <$> fs) = in_data.
Proof.
  rewrite <- (concat_block_data in_data block_size block_size_valid
                in_size_valid) at 2.
  f_equal. rewrite <- list_fmap_compose. apply list_fmap_ext.
  intros i r Hr. apply list_elem_of_lookup_2 in Hr.
  now destruct (frame_of_result_decodes in_data block_size block_size_valid
                  in_size_valid r Hr).
Qed.

Lemma encoded_frames_sum : sumZ fst fs = Z.of_nat (length in_data).
Proof.
  rewrite sumZ_fmap.
  apply (sum_orig_block_results in_data block_size block_size_valid
           in_size_valid).
Qed.

Lemma encoded_frames_length (native : byte_order) :
  Z.of_nat (length (stream_of native fs))
  <= Z.of_nat (length in_data)
     + num_blocks_of (Z.of_nat (length in_data)) block_size * HEADER_SIZE.
Proof.
  rewrite stream_of_results.
  rewrite length_concat_frames
    by apply (block_results_ok in_data block_size block_size_valid
                in_size_valid).
  apply (sum_stored_le in_data block_size block_size_valid in_size_valid).
Qed.

End EncodedFrames.

(** X13: the encodings of two inputs, each with a block size of its own,
    written one after the other decode to the first input followed by the
    second. *)
Theorem concatenated_encodings_decode {lz4 : LZ4}
  {lz4_ok : LZ4_contract lz4} (native : byte_order)
  (schedule : nat -> list nat) (a b : list byte)
  (block_size_a block_size_b : Z) :
  (forall n, Permutation (schedule n) (seq 0 n)) ->
  0 < block_size_a <= MAX_BLOCK_SIZE ->
  0 < block_size_b <= MAX_BLOCK_SIZE ->
  Z.of_nat (length a)
  + num_blocks_of (Z.of_nat (length a)) block_size_a * HEADER_SIZE
  + Z.of_nat (length b)
  + num_blocks_of (Z.of_nat (length b)) block_size_b * HEADER_SIZE
  <= PY_SSIZE_T_MAX ->
  exists ea eb,
    compress_hybrid native a block_size_a = PyOk ea
    /\ compress_hybrid native b block_size_b = PyOk eb
    /\ decompress_hybrid native schedule (ea ++ eb) = Some (PyOk (a ++ b)).
Proof.
  intros Hs Hbsa Hbsb Hsize.
  assert (Hna : 0 <= num_blocks_of (Z.of_nat (length a)) block_size_a).
  { unfold num_blocks_of. apply Z.div_pos; [|lia]. apply size_t_range. }
  assert (Hnb : 0 <= num_blocks_of (Z.of_nat (length b)) block_size_b).
  { unfold num_blocks_of. apply Z.div_pos; [|lia]. apply size_t_range. }
  assert (Ha : Z.of_nat (length a) <= PY_SSIZE_T_MAX)
    by (unfold HEADER_SIZE in *; lia).
  assert (Hb : Z.of_nat (length b) <= PY_SSIZE_T_MAX)
    by (unfold HEADER_SIZE in *; lia).
  set (fa := frame_of_result <$> block_results a block_size_a).
  set (fb := frame_of_result <$> block_results b block_size_b).
  exists (stream_of native fa), (stream_of native fb).
  split; [|split].
  - unfold fa. rewrite stream_of_results.
    apply compress_hybrid_frames; trivial. unfold HEADER_SIZE in *. lia.
  - unfold fb. rewrite stream_of_results.
    apply compress_hybrid_frames; trivial. unfold HEADER_SIZE in *. lia.
  - rewrite <- stream_of_app.
    rewrite <- (encoded_frames_output a block_size_a Hbsa Ha) at 1.
    rewrite <- (encoded_frames_output b block_size_b Hbsb Hb) at 1.
    fold fa fb. rewrite <- concat_app, <- fmap_app.
    pose proof (encoded_frames_length a block_size_a Hbsa Ha native) as Hla.
    pose proof (encoded_frames_length b block_size_b Hbsb Hb native) as Hlb.
    apply (decompress_stream_ok native schedule Hs (fa ++ fb)).
    + apply Forall_app. split; now apply encoded_frames_valid.
    + intros f Hf. apply elem_of_app in Hf as [Hf|Hf].
      * now apply (encoded_frames_decode a block_size_a).
      * now apply (encoded_frames_decode b block_size_b).
    + rewrite stream_of_app, length_app, Nat2Z.inj_add. fold fa fb in Hla, Hlb.
      lia.
    + rewrite sumZ_app. unfold fa, fb.
      rewrite (encoded_frames_sum a block_size_a Hbsa Ha).
      rewrite (encoded_frames_sum b block_size_b Hbsb Hb).
      unfold PY_SSIZE_T_MAX in *. lia.
Qed.

Lemma concatenated_encodings_decode_witness :
  exists ea eb,
    compress_hybrid (lz4 := RunLength.codec) little_endian
                    (replicate 10 Byte.x41) 4 = PyOk ea
    /\ compress_hybrid (lz4 := RunLength.codec) little_endian
                       [Byte.x42; Byte.x43; Byte.x43] 2 = PyOk eb
    /\ decompress_hybrid (lz4 := RunLength.codec) little_endian backwards
                         (ea ++ eb)
       = Some (PyOk (replicate 10 Byte.x41
                     ++ [Byte.x42; Byte.x43; Byte.x43])).
Proof.
  apply (concatenated_encodings_decode (lz4 := RunLength.codec)
           (lz4_ok := run_length_contract) little_endian backwards
           (replicate 10 Byte.x41) [Byte.x42; Byte.x43; Byte.x43] 4 2
           backwards_perm).
  - vm_compute. split; [reflexivity|discriminate].
  - vm_compute. split; [reflexivity|discriminate].
  - vm_compute. discriminate.
Defined.

(** ** The size of the encoding *)

Lemma sumZ_eq_le {A : Type} (f g : A -> Z) (l : list A) :
  Forall (fun a => f a <= g a) l ->
  sumZ f l = sumZ g l <-> Forall (fun a => f a = g a) l.
Proof.
  induction 1 as [|a l Ha Hl IH]; [split; [constructor|reflexivity]|].
  pose proof (sumZ_le f g l Hl) as Hle.
  rewrite !sumZ_cons. split.
  - intros E. constructor; [lia|]. apply IH. lia.
  - intros E. inversion E as [|? ? Ea El]; subst.
    apply IH in El. lia.
Qed.

(** X14: the encoded length reaches its bound [N + 8 * num_blocks] exactly
    when every block is stored verbatim. *)
Theorem encoded_length_attained {lz4 : LZ4} (native : byte_order)
  (in_data : list byte) (block_size : Z) (out : list byte) :
  0 < block_size <= MAX_BLOCK_SIZE ->
  Z.of_nat (length in_data)
  + num_blocks_of (Z.of_nat (length in_data)) block_size * HEADER_SIZE
  <= PY_SSIZE_T_MAX ->
  compress_hybrid native in_data block_size = PyOk out ->
  Z.of_nat (length out)
  = Z.of_nat (length in_data)
    + num_blocks_of (Z.of_nat (length in_data)) block_size * HEADER_SIZE
  <-> forall r, r ∈ block_results in_data block_size ->
                BlockResult.comp_buf r = block_data in_data r.
Proof.
  intros Hbs Hsize Hout.
  assert (Hnb : 0 <= num_blocks_of (Z.of_nat (length in_data)) block_size).
  { unfold num_blocks_of. apply Z.div_pos; [|lia]. apply size_t_range. }
  assert (Hn : Z.of_nat (length in_data) <= PY_SSIZE_T_MAX)
    by (unfold HEADER_SIZE in *; lia).
  rewrite (compress_hybrid_frames native in_data block_size Hbs Hn Hsize)
    in Hout.
  inversion Hout; subst out; clear Hout.
  pose proof (block_results_ok in_data block_size Hbs Hn) as Hok.
  rewrite length_concat_frames by exact Hok.
  unfold stored_plus_header. rewrite sumZ_plus_const, length_block_results.
  rewrite Z2Nat.id by lia.
  pose proof (sum_orig_block_results in_data block_size Hbs Hn) as Hsum.
  assert (Hle : Forall (fun r => BlockResult.comp_size r
                                 <= BlockResult.orig_size r)
                  (block_results in_data block_size)).
  { apply Forall_forall. intros r Hr. rewrite blocks_upto_all in Hr.
    apply (blocks_upto_sizes in_data block_size Hbs Hn) in Hr; lia. }
  assert (Hraw : forall r, r ∈ block_results in_data block_size ->
            (BlockResult.comp_size r = BlockResult.orig_size r
             <-> BlockResult.comp_buf r = block_data in_data r)).
  { intros r Hr.
    pose proof Hr as Hr'. rewrite blocks_upto_all in Hr'.
    apply (blocks_upto_sizes in_data block_size Hbs Hn) in Hr'
      as (Hc & Ho & Hl); [|lia].
    apply (elem_of_results in_data block_size) in Hr as (i & Hi & ->).
    destruct (compress_block_fields in_data block_size Hbs Hn i Hi)
      as (Hoff & Hor & Hcase).
    pose proof (block_length_range _ block_size Hbs
                  (in_size_range in_data Hn) i Hi) as [Hlen Hend].
    set (r := compress_block in_data block_size i) in *.
    assert (Hblk : Z.of_nat (length (block_data in_data r))
                   = BlockResult.orig_size r).
    { unfold block_data. rewrite Hoff, Hor. apply length_slice; lia. }
    split.
    - intros E. destruct Hcase as [(Hret & Hcs & _)|(_ & _ & Hbuf)];
        [lia|exact Hbuf].
    - intros E. rewrite E in Hl. lia. }
  split.
  - intros E r Hr. apply Hraw; [exact Hr|].
    assert (Hs : sumZ BlockResult.comp_size (block_results in_data block_size)
                 = sumZ BlockResult.orig_size
                        (block_results in_data block_size)) by lia.
    apply (sumZ_eq_le _ _ _ Hle) in Hs.
    eapply Forall_forall in Hs; [exact Hs|exact Hr].
  - intros Hall.
    assert (Hs : sumZ BlockResult.comp_size (block_results in_data block_size)
                 = sumZ BlockResult.orig_size
                        (block_results in_data block_size)).
    { apply (sumZ_eq_le _ _ _ Hle). apply Forall_forall. intros r Hr.
      apply Hraw; [exact Hr|]. now apply Hall. }
    lia.
Qed.

Lemma encoded_length_attained_witness :
  Z.of_nat (length
    [Byte.x02; Byte.x00; Byte.x00; Byte.x00; Byte.x02; Byte.x00;
     Byte.x00; Byte.x00; Byte.x42; Byte.x43; Byte.x01; Byte.x00;
     Byte.x00; Byte.x00; Byte.x01; Byte.x00; Byte.x00; Byte.x00;
     Byte.x44])
  = Z.of_nat (length [Byte.x42; Byte.x43; Byte.x44])
    + num_blocks_of (Z.of_nat (length [Byte.x42; Byte.x43; Byte.x44])) 2
      * HEADER_SIZE
  <-> forall r,
        r ∈ block_results (lz4 := RunLength.codec)
              [Byte.x42; Byte.x43; Byte.x44] 2 ->
        BlockResult.comp_buf r
        = block_data [Byte.x42; Byte.x43; Byte.x44] r.
Proof.
  apply (encoded_length_attained (lz4 := RunLength.codec) little_endian
           [Byte.x42; Byte.x43; Byte.x44] 2).
  - vm_compute. split; [reflexivity|discriminate].
  - vm_compute. discriminate.
  - reflexivity.
Defined.

Lemma sumZ_ge_const {A : Type} (f : A -> Z) (c : Z) (l : list A) :
  Forall (fun a => c <= f a) l -> c * Z.of_nat (length l) <= sumZ f l.
Proof.
  induction 1 as [|a l Ha Hl IH]; [unfold sumZ; simpl; lia|].
  rewrite sumZ_cons. simpl length. lia.
Qed.

(** X15: the encoder writes no empty payload: every stored size is
    positive, so a frame takes 9 bytes at least, and the output is empty
    exactly when the input is. *)
Theorem encoded_frames_not_empty {lz4 : LZ4} (native : byte_order)
  (in_data : list byte) (block_size : Z) (out : list byte) :
  0 < block_size <= MAX_BLOCK_SIZE ->
  Z.of_nat (length in_data)
  + num_blocks_of (Z.of_nat (length in_data)) block_size * HEADER_SIZE
  <= PY_SSIZE_T_MAX ->
  compress_hybrid native in_data block_size = PyOk out ->
  (forall r, r ∈ block_results in_data block_size ->
             0 < BlockResult.comp_size r)
  /\ (HEADER_SIZE + 1)
     * num_blocks_of (Z.of_nat (length in_data)) block_size
     <= Z.of_nat (length out)
  /\ (out = [] <-> in_data = []).
Proof.
  intros Hbs Hsize Hout.
  assert (Hnb : 0 <= num_blocks_of (Z.of_nat (length in_data)) block_size).
  { unfold num_blocks_of. apply Z.div_pos; [|lia]. apply size_t_range. }
  assert (Hn : Z.of_nat (length in_data) <= PY_SSIZE_T_MAX)
    by (unfold HEADER_SIZE in *; lia).
  pose proof (num_blocks_ceil in_data block_size Hbs Hn) as (_ & Hlo & Hhi).
  rewrite (compress_hybrid_frames native in_data block_size Hbs Hn Hsize)
    in Hout.
  inversion Hout; subst out; clear Hout.
  pose proof (block_results_ok in_data block_size Hbs Hn) as Hok.
  assert (Hpos : forall r, r ∈ block_results in_data block_size ->
                           0 < BlockResult.comp_size r).
  { intros r Hr. rewrite blocks_upto_all in Hr.
    apply (blocks_upto_sizes in_data block_size Hbs Hn) in Hr; lia. }
  assert (Hlen : (HEADER_SIZE + 1)
                 * num_blocks_of (Z.of_nat (length in_data)) block_size
                 <= Z.of_nat (length (concat (frame_of native
                      <$> block_results in_data block_size)))).
  { rewrite length_concat_frames by exact Hok.
    pose proof (sumZ_ge_const stored_plus_header (HEADER_SIZE + 1)
                  (block_results in_data block_size)) as Hge.
    rewrite length_block_results, Z2Nat.id in Hge by lia.
    apply Hge. apply Forall_forall. intros r Hr.
    specialize (Hpos r Hr). unfold stored_plus_header. lia. }
  split; [exact Hpos|]. split; [exact Hlen|].
  split.
  - intros E. rewrite E in Hlen. cbn [length] in Hlen.
    unfold HEADER_SIZE in Hlen.
    apply length_zero_iff_nil. nia.
  - intros E. rewrite E in *. cbn [length] in *.
    assert (Hz : num_blocks_of (Z.of_nat 0) block_size = 0) by nia.
    unfold block_results. cbn [length]. rewrite Hz. reflexivity.
Qed.

Lemma encoded_frames_not_empty_witness :
  (forall r, r ∈ block_results (lz4 := RunLength.codec)
                   (replicate 10 Byte.x41) 4 ->
             0 < BlockResult.comp_size r)
  /\ (HEADER_SIZE + 1) * num_blocks_of 10 4
     <= Z.of_nat (length three_frames)
  /\ (three_frames = [] <-> replicate 10 Byte.x41 = []).
Proof.
  apply (encoded_frames_not_empty (lz4 := RunLength.codec) little_endian
           (replicate 10 Byte.x41) 4 three_frames).
  - vm_compute. split; [reflexivity|discriminate].
  - vm_compute. discriminate.
  - reflexivity.
Defined.

(** ** The block size as a Python argument (lines 27-39) *)

Lemma size_t_negative (x : Z) : - 2 ^ 64 <= x < 0 -> size_t x = x + 2 ^ 64.
Proof.
  intros H. unfold size_t. symmetry.
  apply (Z.mod_unique x (2 ^ 64) (-1)); lia.
Qed.

(** X16: [block_size] as the Python integer given to [compress_hybrid]: a
    value outside [long long] raises [TypeError]; a value inside it raises
    [ValueError] when it is zero, negative (the [size_t] then holds a value
    above [MAX_BLOCK_SIZE]) or greater than [MAX_BLOCK_SIZE]; any other value
    gives data. *)
Theorem block_size_argument {lz4 : LZ4} (native : byte_order)
  (in_data : list byte) (block_size : Z) :
  (compress_hybrid_args native in_data block_size = PyRaise PyExc_TypeError
   <-> block_size < LLONG_MIN \/ LLONG_MAX < block_size)
  /\ (compress_hybrid_args native in_data block_size
      = PyRaise PyExc_ValueError
      <-> LLONG_MIN <= block_size <= 0
          \/ MAX_BLOCK_SIZE < block_size <= LLONG_MAX)
  /\ ((exists out,
         compress_hybrid_args native in_data block_size = PyOk out)
      <-> 0 < block_size <= MAX_BLOCK_SIZE).
Proof.
  unfold compress_hybrid_args, PyArg_Parse_L, LLONG_MIN, LLONG_MAX.
  assert (Hmax : MAX_BLOCK_SIZE = 2 ^ 29) by reflexivity.
  assert (Hcases :
    forall r : PyResult (list byte),
      (r = PyRaise PyExc_TypeError
       /\ (block_size < - 2 ^ 63 \/ 2 ^ 63 - 1 < block_size))
      \/ (r = PyRaise PyExc_ValueError
          /\ (- 2 ^ 63 <= block_size <= 0
              \/ MAX_BLOCK_SIZE < block_size <= 2 ^ 63 - 1))
      \/ ((exists out, r = PyOk out) /\ 0 < block_size <= MAX_BLOCK_SIZE) ->
      (r = PyRaise PyExc_TypeError
       <-> block_size < - 2 ^ 63 \/ 2 ^ 63 - 1 < block_size)
      /\ (r = PyRaise PyExc_ValueError
          <-> - 2 ^ 63 <= block_size <= 0
              \/ MAX_BLOCK_SIZE < block_size <= 2 ^ 63 - 1)
      /\ ((exists out, r = PyOk out) <-> 0 < block_size <= MAX_BLOCK_SIZE)).
  { intros r [[-> H]|[[-> H]|[[out ->] H]]].
    all: split; [|split]; split; intros Hx; trivial;
      try discriminate; try (exfalso; lia); eauto.
    all: destruct Hx as [o Ho]; discriminate. }
  apply Hcases.
  destruct (Z.leb_spec (- 2 ^ 63) block_size) as [Hlo|Hlo]; cbn [andb];
    [|left; split; [reflexivity|lia]].
  destruct (Z.leb_spec block_size (2 ^ 63 - 1)) as [Hhi|Hhi];
    [|left; split; [reflexivity|lia]].
  right. unfold compress_hybrid.
  destruct (Z_lt_dec block_size 0) as [Hneg|Hnn].
  - rewrite size_t_negative by lia.
    destruct (Z.ltb_spec MAX_BLOCK_SIZE (block_size + 2 ^ 64)) as [_|Hc];
      [|lia].
    left. split; [reflexivity|lia].
  - rewrite size_t_small by lia.
    destruct (Z.ltb_spec MAX_BLOCK_SIZE block_size) as [Hbig|Hle];
      [left; split; [reflexivity|lia]|].
    destruct (Z.eqb_spec block_size 0) as [Hz|Hnz];
      [left; split; [reflexivity|lia]|].
    right. split; [eauto|lia].
Qed.

(** ** Reading a stream in the other byte order *)

(** A size below 256 read in the other byte order. *)
Lemma load32_store32_foreign (native foreign : byte_order) (x : Z) :
  native <> foreign -> 0 <= x < 256 ->
  load32 foreign (store32 native x) = x * 2 ^ 24.
Proof.
  intros Hne Hx.
  assert (Hall : forallb
                   (fun n => le_combine (rev (le_split 4 (Z.of_nat n)))
                             =? Z.of_nat n * 2 ^ 24)
                   (seq 0 256) = true) by (vm_compute; reflexivity).
  rewrite forallb_forall in Hall.
  specialize (Hall (Z.to_nat x)). rewrite Z2Nat.id in Hall by lia.
  apply Z.eqb_eq in Hall; [|apply in_seq; lia].
  destruct native, foreign; try contradiction; unfold load32, store32;
    exact Hall.
Qed.

(** X17: the header fields are in the byte order of the host that wrote
    them: the encoding of 1 to 255 bytes written by a host of one byte order
    is rejected, with [RuntimeError], by a host of the other. *)
Theorem foreign_byte_order_rejected {lz4 : LZ4}
  (native foreign : byte_order) (schedule : nat -> list nat)
  (in_data : list byte) (block_size : Z) :
  native <> foreign ->
  0 < block_size <= MAX_BLOCK_SIZE ->
  (0 < length in_data < 256)%nat ->
  exists encoded,
    compress_hybrid native in_data block_size = PyOk encoded
    /\ decompress_hybrid foreign schedule encoded
       = Some (PyRaise PyExc_RuntimeError).
Proof.
  intros Hne Hbs Hn.
  assert (Hlen : Z.of_nat (length in_data) <= PY_SSIZE_T_MAX)
    by (unfold PY_SSIZE_T_MAX; lia).
  pose proof (num_blocks_ceil in_data block_size Hbs Hlen) as (Hnb & Hlo & Hhi).
  pose proof (num_blocks_of_le (Z.of_nat (length in_data)) block_size Hbs
                ltac:(lia)) as Hle.
  assert (Hpos : 0 < num_blocks_of (Z.of_nat (length in_data)) block_size)
    by nia.
  assert (Hsize : Z.of_nat (length in_data)
                  + num_blocks_of (Z.of_nat (length in_data)) block_size
                    * HEADER_SIZE <= PY_SSIZE_T_MAX)
    by (unfold HEADER_SIZE, PY_SSIZE_T_MAX; lia).
  set (results := block_results in_data block_size).
  set (encoded := concat (frame_of native <$> results)).
  exists encoded. split; [now apply compress_hybrid_frames|].
  pose proof (block_results_ok in_data block_size Hbs Hlen) as Hok.
  pose proof (sum_stored_le in_data block_size Hbs Hlen) as Hsum.
  pose proof (length_concat_frames native _ Hok) as Henc.
  fold results encoded in Hok, Hsum, Henc.
  assert (H0 : results !! 0%nat
               = Some (compress_block in_data block_size 0)).
  { apply lookup_block_results. split; [lia|reflexivity]. }
  destruct (compress_block_sizes in_data block_size Hbs Hlen 0 ltac:(lia))
    as (Hc & Ho & Hl).
  destruct (compress_block_fields in_data block_size Hbs Hlen 0 ltac:(lia))
    as (_ & Hor & _).
  pose proof (block_length_range _ block_size Hbs
                (in_size_range in_data Hlen) 0 ltac:(lia)) as [_ Hend].
  rewrite <- Hor in Hend.
  set (r := compress_block in_data block_size 0) in *.
  destruct results as [|r0 rest] eqn:Hres; [discriminate|].
  cbn in H0. inversion H0; subst r0. clear H0.
  assert (Hhead : encoded
                  = [] ++ store32 native (BlockResult.orig_size r)
                    ++ store32 native (BlockResult.comp_size r)
                    ++ BlockResult.comp_buf r
                    ++ concat (frame_of native <$> rest)).
  { unfold encoded. cbn [fmap list_fmap concat app].
    unfold frame_of at 1, frame_bytes. rewrite Hl, <- !app_assoc.
    reflexivity. }
  assert (Hh : header_at foreign encoded 0
               = (BlockResult.orig_size r * 2 ^ 24,
                  BlockResult.comp_size r * 2 ^ 24)).
  { unfold header_at. f_equal.
    - rewrite Hhead, slice_app_at; [|reflexivity|now rewrite length_store32].
      apply load32_store32_foreign; [exact Hne|lia].
    - rewrite Hhead. cbn [app].
      rewrite (slice_app_at (store32 native (BlockResult.orig_size r))).
      + apply load32_store32_foreign; [exact Hne|lia].
      + now rewrite length_store32.
      + now rewrite length_store32. }
  assert (Henc_lo : HEADER_SIZE <= Z.of_nat (length encoded)).
  { rewrite Hhead. rewrite !length_app, !length_store32.
    unfold HEADER_SIZE. lia. }
  assert (Hlen' : Z.of_nat (length encoded) <= PY_SSIZE_T_MAX)
    by (unfold PY_SSIZE_T_MAX, HEADER_SIZE in *; lia).
  apply decompress_hybrid_raise.
  rewrite index_loop_in;
    [|exact Hlen'|unfold cursor; cbn [fst]; lia
     |unfold cursor, in_loop; cbn [fst]; lia].
  rewrite index_step_rejects;
    [reflexivity|exact Hlen'|unfold cursor; cbn [fst]; lia
    |unfold cursor, in_loop; cbn [fst]; lia|].
  unfold cursor, header_accepted. cbn [fst]. rewrite Hh.
  unfold HEADER_SIZE in *. lia.
Qed.

Lemma foreign_byte_order_rejected_witness :
  exists encoded,
    compress_hybrid (lz4 := RunLength.codec) little_endian
                    (replicate 10 Byte.x41) 4 = PyOk encoded
    /\ decompress_hybrid (lz4 := RunLength.codec) big_endian in_order encoded
       = Some (PyRaise PyExc_RuntimeError).
Proof.
  apply (foreign_byte_order_rejected (lz4 := RunLength.codec)
           little_endian big_endian in_order (replicate 10 Byte.x41) 4).
  - discriminate.
  - vm_compute. split; [reflexivity|discriminate].
  - simpl. lia.
Defined.
